(** * CareerSightAI: corpus normalizer and recommendation engine

    A shallow embedding of [utils/data_processor.py] and
    [utils/recommendation_engine.py].

    Conventions of the embedding.
    - Text is ASCII: a Python [str] is a [string] whose characters are
      classified by the tables Python uses on code points below 128.
    - A pandas cell that is missing is NaN and is written [None]; a
      present cell is [Some v].  Float cells are the rationals they
      denote, and the factor 1.2 is the rational 12/10; a comparison
      with a missing cell is false, as it is with NaN.  A row has a cell
      for every column the code reads; whether the table has the column
      is asked of its list of column names.
    - Numerals: Python's [int] is unbounded and its [float] is a
      binary64 number; the embedding reads a numeral as the number it
      denotes, which agrees with Python on numerals of at most 15
      digits ([short], [experience_numerals_short]).
    - A similarity score is the real number that the formulas of the
      text vector index denote.
    - The random numbers and the clock reading of a run are inputs of
      the run.
    - A [DataFrame] is its list of column names and its rows in
      positional order; each row carries its index label.
    - Code that can raise returns an [outcome].
    - A dict whose items are read in order is the list of its items in
      insertion order; a dict or set that is only looked up is a [gmap]
      or [gset].
    - The vectorizer, [np.argsort], the [re] engine and [Series.mean]
      are not part of the repository: they enter through the interfaces
      [Vectorizer], [Sorter], [RegexEngine] and [Averager], which record
      only what their documentation promises.  The text vector index
      ([TextVectorIndex]) and the ordering step of the ranker
      ([sort_values]) are modelled from the specification. *)

From Stdlib Require Import QArith Rbase Rfunctions R_sqrt Rpower Lra.
From Stdlib Require Import Ascii String Sorted Permutation.
From Stdlib Require OrderedTypeEx.
From stdpp Require Import base option list strings gmap sorting.

Open Scope string_scope.
Open Scope list_scope.
Open Scope nat_scope.
Open Scope stdpp_scope.

(** ** Errors *)

Inductive exn :=
  | KeyError (column : string)
  | ValueError (msg : string)
  | ReError (pattern : string).

Inductive outcome (A : Type) :=
  | Ok (a : A)
  | Raise (e : exn).
Arguments Ok {A} a.
Arguments Raise {A} e.

Definition obind {A B} (m : outcome A) (k : A → outcome B) : outcome B :=
  match m with
  | Ok a => k a
  | Raise e => Raise e
  end.

Notation "'do' x <- m ; k" := (obind m (λ x, k))
  (at level 10, x name, m at level 100, k at level 200).

(** ** Python string built-ins (ASCII) *)

Module Py.

Definition code (c : ascii) : N := N_of_ascii c.

Definition between (lo hi : N) (c : ascii) : bool :=
  ((lo <=? code c) && (code c <=? hi))%N.

(** [str.isspace] below 128: TAB..CR, FS..US and the blank. *)
Definition isspace (c : ascii) : bool := between 9 13 c || between 28 32 c.
Definition isupper (c : ascii) : bool := between 65 90 c.
Definition islower (c : ascii) : bool := between 97 122 c.
Definition iscased (c : ascii) : bool := isupper c || islower c.
Definition isdigit (c : ascii) : bool := between 48 57 c.

Definition lower_char (c : ascii) : ascii :=
  if isupper c then ascii_of_N (code c + 32) else c.
Definition upper_char (c : ascii) : ascii :=
  if islower c then ascii_of_N (code c - 32) else c.

Fixpoint smap (f : ascii → ascii) (s : string) : string :=
  match s with
  | EmptyString => EmptyString
  | String c s' => String (f c) (smap f s')
  end.

(** [s.lower()] and [s.upper()] *)
Definition lower (s : string) : string := smap lower_char s.
Definition upper (s : string) : string := smap upper_char s.

(** [s.title()]: a cased character is upper-cased when the character
    before it is not cased, and lower-cased otherwise. *)
Fixpoint title_from (previous_is_cased : bool) (s : string) : string :=
  match s with
  | EmptyString => EmptyString
  | String c s' =>
      String (if previous_is_cased then lower_char c else upper_char c)
             (title_from (iscased c) s')
  end.
Definition title (s : string) : string := title_from false s.

Fixpoint all_space (s : string) : bool :=
  match s with
  | EmptyString => true
  | String c s' => isspace c && all_space s'
  end.

Fixpoint lstrip (s : string) : string :=
  match s with
  | EmptyString => EmptyString
  | String c s' => if isspace c then lstrip s' else s
  end.

Fixpoint rstrip (s : string) : string :=
  match s with
  | EmptyString => EmptyString
  | String c s' => if all_space s then EmptyString else String c (rstrip s')
  end.

(** [s.strip()] *)
Definition strip (s : string) : string := rstrip (lstrip s).

(** [re.sub(r'\s+', ' ', s)]: every maximal run of whitespace becomes one
    blank.  [in_run] tells that the previous character was whitespace. *)
Fixpoint sub_spaces_from (in_run : bool) (s : string) : string :=
  match s with
  | EmptyString => EmptyString
  | String c s' =>
      if isspace c
      then (if in_run then sub_spaces_from true s'
            else String " " (sub_spaces_from true s'))
      else String c (sub_spaces_from false s')
  end.
Definition sub_spaces (s : string) : string := sub_spaces_from false s.

Fixpoint startswith (p s : string) : bool :=
  match p, s with
  | EmptyString, _ => true
  | String a p', String b s' => if ascii_dec a b then startswith p' s' else false
  | String _ _, EmptyString => false
  end.

(** [needle in hay] *)
Fixpoint contains (needle hay : string) : bool :=
  startswith needle hay ||
  match hay with
  | EmptyString => false
  | String _ hay' => contains needle hay'
  end.

(** Splitting at every character of a class, empty pieces kept:
    [s.split(',')] and [re.split(r'[,;|]', s)]. *)
Fixpoint split_at (sep : ascii → bool) (s : string) : list string :=
  match s with
  | EmptyString => [EmptyString]
  | String c s' =>
      if sep c then EmptyString :: split_at sep s'
      else match split_at sep s' with
           | t :: ts => String c t :: ts
           | [] => [String c EmptyString]
           end
  end.

Definition nonempty (s : string) : bool :=
  match s with EmptyString => false | _ => true end.

(** [s.split()]: the maximal runs of non-whitespace. *)
Definition split (s : string) : list string :=
  filter (λ t, nonempty t) (split_at isspace s).

(** [sep.join(parts)] *)
Fixpoint join (sep : string) (parts : list string) : string :=
  match parts with
  | [] => EmptyString
  | [p] => p
  | p :: ps => p +:+ sep +:+ join sep ps
  end.

(** [len(s)] *)
Definition len (s : string) : nat := String.length s.

(** Value of a run of decimal digits, most significant first. *)
Definition digit_value (c : ascii) : Z := Z.of_N (code c - 48).
Fixpoint digits_value (acc : Z) (s : string) : Z :=
  match s with
  | EmptyString => acc
  | String c s' => digits_value (10 * acc + digit_value c) s'
  end.

(** [int(tok)] for a token matched by [\d+]: the number the digits
    denote.  (Python refuses a token of more than 4300 digits.) *)
Definition int (tok : string) : Z := digits_value 0 tok.

(** [re.findall(r'(\d+)', s)]: the maximal runs of digits, left to right.
    [cur] is the run being read. *)
Fixpoint findall_digits_from (cur : string) (s : string) : list string :=
  match s with
  | EmptyString => if nonempty cur then [cur] else []
  | String c s' =>
      if isdigit c then findall_digits_from (cur +:+ String c EmptyString) s'
      else (if nonempty cur then [cur] else []) ++ findall_digits_from EmptyString s'
  end.
Definition findall_digits (s : string) : list string :=
  findall_digits_from EmptyString s.

(** A token matched by [\d+(?:\.\d+)?]: integer digits and the digits
    after the point (empty when the optional group did not match). *)
Record decimal := Decimal { int_digits : string; frac_digits : string }.

(** Where the scanner for [\d+(?:\.\d+)?] stands. *)
Inductive scan :=
  | Idle
  | InInt (i : string)
  | AfterDot (i : string)
  | InFrac (i f : string).

Definition flush (st : scan) : list decimal :=
  match st with
  | Idle => []
  | InInt i | AfterDot i => [Decimal i EmptyString]
  | InFrac i f => [Decimal i f]
  end.

Definition snoc (s : string) (c : ascii) : string := s +:+ String c EmptyString.

(** [re.findall(r'(\d+(?:\.\d+)?)', s)].  The point is consumed only when
    a digit follows it; otherwise the match ends before the point and the
    search resumes there. *)
Fixpoint findall_decimals_from (st : scan) (s : string) : list decimal :=
  match s with
  | EmptyString => flush st
  | String c s' =>
      if isdigit c then
        match st with
        | Idle => findall_decimals_from (InInt (String c EmptyString)) s'
        | InInt i => findall_decimals_from (InInt (snoc i c)) s'
        | AfterDot i => findall_decimals_from (InFrac i (String c EmptyString)) s'
        | InFrac i f => findall_decimals_from (InFrac i (snoc f c)) s'
        end
      else
        match st with
        | InInt i =>
            if ascii_dec c "." then findall_decimals_from (AfterDot i) s'
            else flush st ++ findall_decimals_from Idle s'
        | _ => flush st ++ findall_decimals_from Idle s'
        end
  end.
Definition findall_decimals (s : string) : list decimal :=
  findall_decimals_from Idle s.

(** [float(tok)] for a token matched by [\d+(?:\.\d+)?]: the number the
    digits denote.  (Python rounds it to binary64, which keeps apart, and
    in order, the tokens of at most 15 digits.) *)
Definition float (d : decimal) : Q :=
  Qmake (digits_value (int (int_digits d)) (frac_digits d))
        (Z.to_pos (10 ^ Z.of_nat (len (frac_digits d)))).

End Py.

(** ** Data frames *)

(** One row of the job table: the columns the code reads or writes. *)
Record Row := mkRow {
  idx : nat;                         (* index label *)
  job_title : option string;
  company : option string;
  location : option string;
  skills : option string;
  description : option string;
  salary : option string;            (* free text *)
  experience : option string;        (* free text *)
  salary_min : option Q;
  salary_max : option Q;
  exp_min : option Z;
  exp_max : option Z;
  experience_level : option string;
  posted_date : option Z;
  combined_text : option string
}.

Record DataFrame := mkFrame {
  columns : list string;
  rows : list Row
}.

Definition has_column (c : string) (df : DataFrame) : bool :=
  bool_decide (c ∈ columns df).

(** [df[c] = ...] keeps the position of an existing column and appends a
    new one. *)
Definition add_column (c : string) (cols : list string) : list string :=
  if bool_decide (c ∈ cols) then cols else cols ++ [c].

Definition set_job_title (v : option string) (r : Row) : Row :=
  mkRow (idx r) v (company r) (location r) (skills r) (description r)
        (salary r) (experience r) (salary_min r) (salary_max r) (exp_min r)
        (exp_max r) (experience_level r) (posted_date r) (combined_text r).
Definition set_location (v : option string) (r : Row) : Row :=
  mkRow (idx r) (job_title r) (company r) v (skills r) (description r)
        (salary r) (experience r) (salary_min r) (salary_max r) (exp_min r)
        (exp_max r) (experience_level r) (posted_date r) (combined_text r).
Definition set_skills (v : option string) (r : Row) : Row :=
  mkRow (idx r) (job_title r) (company r) (location r) v (description r)
        (salary r) (experience r) (salary_min r) (salary_max r) (exp_min r)
        (exp_max r) (experience_level r) (posted_date r) (combined_text r).
Definition set_salary_range (v : option Q * option Q) (r : Row) : Row :=
  mkRow (idx r) (job_title r) (company r) (location r) (skills r) (description r)
        (salary r) (experience r) v.1 v.2 (exp_min r)
        (exp_max r) (experience_level r) (posted_date r) (combined_text r).
Definition set_exp_range (v : option Z * option Z) (r : Row) : Row :=
  mkRow (idx r) (job_title r) (company r) (location r) (skills r) (description r)
        (salary r) (experience r) (salary_min r) (salary_max r) v.1
        v.2 (experience_level r) (posted_date r) (combined_text r).
Definition set_experience_level (v : option string) (r : Row) : Row :=
  mkRow (idx r) (job_title r) (company r) (location r) (skills r) (description r)
        (salary r) (experience r) (salary_min r) (salary_max r) (exp_min r)
        (exp_max r) v (posted_date r) (combined_text r).
Definition set_posted_date (v : option Z) (r : Row) : Row :=
  mkRow (idx r) (job_title r) (company r) (location r) (skills r) (description r)
        (salary r) (experience r) (salary_min r) (salary_max r) (exp_min r)
        (exp_max r) (experience_level r) v (combined_text r).
Definition set_combined_text (v : option string) (r : Row) : Row :=
  mkRow (idx r) (job_title r) (company r) (location r) (skills r) (description r)
        (salary r) (experience r) (salary_min r) (salary_max r) (exp_min r)
        (exp_max r) (experience_level r) (posted_date r) v.

(** ** utils/data_processor.py *)

(** What the four [np.random] calls of one [process_jobs] run return,
    by row position. *)
Record Draws := mkDraws {
  uniform_3_15 : nat → Q;      (* np.random.uniform(3, 15, len(df)) *)
  uniform_12_20 : nat → Q;     (* np.random.uniform(1.2, 2.0, len(df)) *)
  choice_exp_min : nat → Z;    (* np.random.choice([0, 1, 2, 3, 5, 8], len(df)) *)
  choice_exp_span : nat → Z    (* np.random.choice([2, 3, 4, 5], len(df)) *)
}.

Module DataProcessor.

Definition _clean_job_title (title : option string) : option string :=
  match title with
  | None => Some "Not Specified"
  | Some title =>
      let title := Py.sub_spaces (Py.strip title) in
      let title := Py.title title in
      Some title
  end.

Definition extract_salary_range (salary_str : option string) : option Q * option Q :=
  match salary_str with
  | None => (None, None)
  | Some salary_str =>
      let salary_str := Py.lower salary_str in
      let numbers := Py.findall_decimals salary_str in
      match numbers with
      | n0 :: n1 :: _ => (Some (Py.float n0), Some (Py.float n1))
      | [n0] =>
          let val := Py.float n0 in
          (Some val, Some (val * (12 # 10))%Q)
      | [] => (None, None)
      end
  end.

(** On a table without rows, [apply] returns an empty Series, which
    pandas refuses to assign to the two columns; with rows, it returns one
    column per bound.  Without a salary column the range is drawn at
    random. *)
Definition _process_salary (d : Draws) (df : DataFrame) : outcome DataFrame :=
  if has_column "salary" df then
    match rows df with
    | [] => Raise (ValueError "Columns must be same length as key")
    | _ =>
        Ok (mkFrame (add_column "salary_max" (add_column "salary_min" (columns df)))
              ((λ r, set_salary_range (extract_salary_range (salary r)) r) <$> rows df))
    end
  else
    Ok (mkFrame (add_column "salary_max" (add_column "salary_min" (columns df)))
          (imap (λ i r,
                   let lo := uniform_3_15 d i in
                   set_salary_range (Some lo, Some (lo * uniform_12_20 d i)%Q) r)
                (rows df))).

Definition extract_experience_range (exp_str : option string) : option Z * option Z :=
  match exp_str with
  | None => (None, None)
  | Some exp_str =>
      let exp_str := Py.lower exp_str in
      let numbers := Py.findall_digits exp_str in
      match numbers with
      | n0 :: n1 :: _ => (Some (Py.int n0), Some (Py.int n1))
      | [n0] =>
          let val := Py.int n0 in
          (Some val, Some (val + 2)%Z)
      | [] => (Some 0%Z, Some 2%Z)
      end
  end.

Definition get_experience_level (exp_min exp_max : option Z) : string :=
  let avg_exp :=
    match exp_min, exp_max with
    | Some lo, Some hi => (inject_Z (lo + hi) / 2)%Q
    | _, _ => 2%Q
    end in
  if Qle_bool avg_exp 2 then "Entry Level (0-2 years)"
  else if Qle_bool avg_exp 5 then "Mid Level (3-5 years)"
  else if Qle_bool avg_exp 10 then "Senior Level (6-10 years)"
  else "Expert Level (10+ years)".

(** The range is extracted as the salary range is, then the level is
    derived from it row by row. *)
Definition _process_experience (d : Draws) (df : DataFrame) : outcome DataFrame :=
  do ranged <-
    (if has_column "experience" df then
       match rows df with
       | [] => Raise (ValueError "Columns must be same length as key")
       | _ =>
           Ok (mkFrame (add_column "exp_max" (add_column "exp_min" (columns df)))
                 ((λ r, set_exp_range (extract_experience_range (experience r)) r)
                    <$> rows df))
       end
     else
       Ok (mkFrame (add_column "exp_max" (add_column "exp_min" (columns df)))
             (imap (λ i r,
                      let lo := choice_exp_min d i in
                      set_exp_range (Some lo, Some (lo + choice_exp_span d i)%Z) r)
                   (rows df))));
  Ok (mkFrame (add_column "experience_level" (columns ranged))
        ((λ r, set_experience_level
                 (Some (get_experience_level (exp_min r) (exp_max r))) r)
           <$> rows ranged)).

Definition is_skill_delimiter (c : ascii) : bool :=
  bool_decide (c = ","%char) || bool_decide (c = ";"%char) || bool_decide (c = "|"%char).

Definition _clean_skills (skills_str : option string) : option string :=
  match skills_str with
  | None => Some ""
  | Some skills_str =>
      let skills := Py.split_at is_skill_delimiter skills_str in
      let cleaned_skills :=
        filter (λ skill, 1 < Py.len skill)
               ((λ skill, Py.title (Py.strip skill)) <$> skills) in
      Some (Py.join ", " cleaned_skills)
  end.

Definition location_mapping : list (string * string) :=
  [ ("bengaluru", "Bangalore"); ("mumbai", "Mumbai"); ("delhi", "Delhi");
    ("hyderabad", "Hyderabad"); ("pune", "Pune"); ("chennai", "Chennai");
    ("kolkata", "Kolkata"); ("gurgaon", "Gurgaon"); ("noida", "Noida") ].

Definition _clean_location (location : option string) : option string :=
  match location with
  | None => Some "Not Specified"
  | Some location =>
      let location := Py.strip location in
      let location_lower := Py.lower location in
      match List.find (λ kv, Py.contains kv.1 location_lower) location_mapping with
      | Some kv => Some kv.2
      | None => Some (Py.title location)
      end
  end.

(** [process_jobs] on the table [pd.DataFrame(jobs_data)]; [now] is the
    reading of [pd.Timestamp.now()]. *)
Definition process_jobs (d : Draws) (now : Z) (df : DataFrame) : outcome DataFrame :=
  if negb (has_column "job_title" df) then Raise (KeyError "job_title") else
  let df := mkFrame (columns df)
              ((λ r, set_job_title (_clean_job_title (job_title r)) r) <$> rows df) in
  do df <- _process_salary d df;
  do df <- _process_experience d df;
  if negb (has_column "skills" df) then Raise (KeyError "skills") else
  let df := mkFrame (columns df)
              ((λ r, set_skills (_clean_skills (skills r)) r) <$> rows df) in
  if negb (has_column "location" df) then Raise (KeyError "location") else
  let df := mkFrame (columns df)
              ((λ r, set_location (_clean_location (location r)) r) <$> rows df) in
  let df :=
    if negb (has_column "posted_date" df)
    then mkFrame (add_column "posted_date" (columns df))
                 (set_posted_date (Some now) <$> rows df)
    else df in
  Ok df.

End DataProcessor.

(** ** Library interfaces *)

(** [TfidfVectorizer] together with [cosine_similarity].  A fitted
    vectorizer holds the vocabulary and the job vectors; there is one
    score for every document it was fitted on. *)
Class Vectorizer := {
  tfidf : Type;
  (** [fit_transform(docs)] *)
  fit_transform : list string → outcome tfidf;
  n_samples : tfidf → nat;
  (** [cosine_similarity(transform([text]), job_vectors)[0]] *)
  query_similarity : tfidf → string → list R;
  (** [cosine_similarity(job_vectors[i:i+1], job_vectors)[0]] *)
  pairwise_similarity : tfidf → nat → list R;
  fit_transform_samples docs t :
    fit_transform docs = Ok t → n_samples t = length docs;
  query_similarity_length t text :
    length (query_similarity t text) = n_samples t;
  pairwise_similarity_length t i :
    i < n_samples t → length (pairwise_similarity t i) = n_samples t
}.

Definition ascending_by {A} (by_ : A → R) (x y : A) : Prop := (by_ x <= by_ y)%R.
Definition descending_by {A} (by_ : A → R) (x y : A) : Prop := (by_ y <= by_ x)%R.

#[global] Instance Rle_decision (x y : R) : Decision (x <= y)%R := Rle_dec x y.

(** [x] may stand before [y] in the order asked for. *)
Definition goes_before {A} (by_ : A → R) (asc : bool) (x y : A) : bool :=
  if asc then bool_decide (by_ x <= by_ y)%R else bool_decide (by_ y <= by_ x)%R.

(** Modelled from the spec: one step of the stable sort below; a row is
    put before the first row, among those that followed it in the table,
    that it may stand before.  The sorting routine is pandas'. *)
Fixpoint insert_by {A} (by_ : A → R) (asc : bool) (x : A) (l : list A) : list A :=
  match l with
  | [] => [x]
  | y :: l' => if goes_before by_ asc x y then x :: l else y :: insert_by by_ asc x l'
  end.

(** Modelled from the spec: the ordering step of the ranker, which the
    source leaves to [DataFrame.sort_values(by, ascending=...)] of
    pandas, called without a [kind]; that routine is not code of the
    repository.  The spec has the postings sorted by score, ties broken
    by original corpus order (stable sort). *)
Definition sort_values {A} (by_ : A → R) (asc : bool) (l : list A) : list A :=
  foldr (insert_by by_ asc) [] l.

(** [np.argsort] with its default algorithm, for which no order among
    equal keys is promised. *)
Class Sorter := {
  argsort : list R → list nat;
  argsort_perm a : argsort a ≡ₚ seq 0 (length a);
  argsort_sorted a :
    StronglySorted Rle ((λ i, default 0%R (a !! i)) <$> argsort a)
}.

Definition is_regex_special (c : ascii) : bool :=
  bool_decide (c ∈ [ "."; "^"; "$"; "*"; "+"; "?"; "{"; "}"; "["; "]";
                     "\"; "|"; "("; ")" ]%char).

Fixpoint is_literal (pat : string) : bool :=
  match pat with
  | EmptyString => true
  | String c pat' => negb (is_regex_special c) && is_literal pat'
  end.

(** [re.compile(pat, re.IGNORECASE)] and [regex.search(s) is not None]. *)
Class RegexEngine := {
  regex : Type;
  compile_ignorecase : string → outcome regex;
  search : regex → string → bool;
  (** a pattern without special characters matches as a substring,
      letter case ignored *)
  compile_literal pat :
    is_literal pat →
    ∃ r, compile_ignorecase pat = Ok r ∧
         ∀ s, search r s = Py.contains (Py.lower pat) (Py.lower s);
  (** an unterminated group is rejected *)
  compile_open_group : compile_ignorecase "(" = Raise (ReError "(")
}.

(** ** The text vector index

    The source takes the index from scikit-learn ([TfidfVectorizer],
    [cosine_similarity]), which is not code of the repository; the
    definitions of this module follow the words of the specification. *)

Module TextVectorIndex.

(** Modelled from the spec: the characters of a word, letters and
    digits; the tokenizer is scikit-learn's. *)
Definition is_word_char (c : ascii) : bool := Py.isdigit c || Py.iscased c.

(** Modelled from the spec: the words of a text, case-folded; the
    tokenizer is scikit-learn's.  A word is a maximal run of letters and
    digits. *)
Definition words (text : string) : list string :=
  filter (λ w, Py.nonempty w)
         (Py.split_at (λ c, negb (is_word_char c)) (Py.lower text)).

(** Modelled from the spec: the bigrams of a list of words, the pairs of
    neighbours; the n-gram step is scikit-learn's. *)
Fixpoint bigrams (ws : list string) : list string :=
  match ws with
  | a :: ws' =>
      match ws' with
      | b :: _ => (a +:+ " " +:+ b) :: bigrams ws'
      | [] => []
      end
  | [] => []
  end.

(** Modelled from the spec: the dot product of two vectors; the vector
    arithmetic is scikit-learn's. *)
Definition dot (u v : list R) : R := foldr Rplus 0%R (zip_with Rmult u v).

(** Modelled from the spec: the L2 norm of a vector; the vector
    arithmetic is scikit-learn's. *)
Definition norm (v : list R) : R := sqrt (dot v v).

(** Modelled from the spec: L2 normalization, which is scikit-learn's;
    the zero vector is left as it is. *)
Definition normalize (v : list R) : list R :=
  if Req_dec_T (norm v) 0 then v else (λ x, x / norm v)%R <$> v.

(** Modelled from the spec: cosine similarity, which the source takes
    from scikit-learn: the dot product of two vectors divided by the
    product of their norms, and 0 when a norm is 0. *)
Definition cosine (u v : list R) : R :=
  if Req_dec_T (norm u * norm v) 0 then 0%R
  else (dot u v / (norm u * norm v))%R.

Section index.
(** The settings of an index: the stop words left out and the cap on the
    vocabulary. *)
Variable stop_words : list string.
Variable max_features : nat.

(** Modelled from the spec: the terms of a text, unigrams and bigrams
    with the stop words left out; the analyzer is scikit-learn's. *)
Definition terms (text : string) : list string :=
  let ws := filter (λ w, w ∉ stop_words) (words text) in
  ws ++ bigrams ws.

(** Modelled from the spec: the term frequency in a document, the number
    of times the term occurs; the counting is scikit-learn's. *)
Definition term_frequency (t : string) (ts : list string) : nat :=
  length (filter (λ u, u = t) ts).

(** Modelled from the spec: the number of documents containing the term;
    the counting is scikit-learn's. *)
Definition document_frequency (docs : list (list string)) (t : string) : nat :=
  length (filter (λ d, t ∈ d) docs).

(** Modelled from the spec: log(N / documents containing the term); the
    weighting is scikit-learn's. *)
Definition idf (docs : list (list string)) (t : string) : R :=
  ln (INR (length docs) / INR (document_frequency docs t)).

(** Modelled from the spec: the term weight, term frequency in the
    document × log(N / documents containing the term); the weighting is
    scikit-learn's. *)
Definition weight (docs : list (list string)) (t : string) (ts : list string) : R :=
  (INR (term_frequency t ts) * idf docs t)%R.

(** Modelled from the spec: the weight of a term over the whole corpus,
    by which the vocabulary is capped; the selection is scikit-learn's. *)
Definition total_weight (docs : list (list string)) (t : string) : R :=
  foldr Rplus 0%R ((λ ts, weight docs t ts) <$> docs).

(** Modelled from the spec: the vocabulary, the highest-weighted terms
    of the corpus up to the cap; the selection is scikit-learn's. *)
Definition select_vocabulary (docs : list (list string)) : list string :=
  take max_features
       (sort_values (total_weight docs) false (remove_dups (mjoin docs))).

(** Modelled from the spec: the built index, which in the source is a
    fitted [TfidfVectorizer] of scikit-learn with its job vectors: the
    terms of the documents, the vocabulary and the L2-normalized document
    vectors. *)
Record Index := mkIndex {
  documents : list (list string);
  vocabulary : list string;
  document_vectors : list (list R)
}.

(** Modelled from the spec: the vector of a text, the weight of every
    term of the vocabulary in it; the transformation is scikit-learn's. *)
Definition weights (docs : list (list string)) (vocab : list string)
    (ts : list string) : list R :=
  (λ t, weight docs t ts) <$> vocab.

(** Modelled from the spec: [build(corpus)], in the source
    [fit_transform] of scikit-learn. *)
Definition build (corpus : list string) : Index :=
  let docs := terms <$> corpus in
  let vocab := select_vocabulary docs in
  mkIndex docs vocab ((λ ts, normalize (weights docs vocab ts)) <$> docs).

(** Modelled from the spec: a text projected into the vocabulary of the
    index, terms outside it contributing nothing; in the source
    [transform] of scikit-learn. *)
Definition project (index : Index) (text : string) : list R :=
  weights (documents index) (vocabulary index) (terms text).

(** Modelled from the spec: [query(text)], the L2-normalized projection;
    in the source [transform] of scikit-learn. *)
Definition query (index : Index) (text : string) : list R :=
  normalize (project index text).

(** Modelled from the spec: the similarity of a text to every document;
    in the source [cosine_similarity] of scikit-learn on the query
    vector and the job vectors. *)
Definition similarity (index : Index) (text : string) : list R :=
  cosine (query index text) <$> document_vectors index.

(** Modelled from the spec: the similarity of a document to every
    document; in the source [cosine_similarity] of scikit-learn on one
    job vector and all of them. *)
Definition document_similarity (index : Index) (i : nat) : list R :=
  match document_vectors index !! i with
  | Some d => cosine d <$> document_vectors index
  | None => []
  end.

End index.
End TextVectorIndex.

(** ** utils/recommendation_engine.py *)

Abbreviation loc := nat.
Abbreviation heap := (gmap loc DataFrame).

Record Scored := mkScored {
  job : Row;
  compatibility_score : R
}.

(** Columns of the posting a score belongs to. *)
Definition job_location (r : Scored) : option string := location (job r).
Definition job_salary_min (r : Scored) : option Q := salary_min (job r).
Definition job_salary_max (r : Scored) : option Q := salary_max (job r).

Record Recommendation := mkRecommendation {
  result : Scored;
  match_explanation : string
}.

Record SimilarJob := mkSimilarJob {
  similar_job : Row;
  similarity_score : R
}.

Record SkillGapReport := mkReport {
  target_role : string;
  total_role_jobs : nat;
  existing_skills : list string;
  missing_skills : list string;
  skill_match_percentage : Q
}.

(** [str(cell)] for a cell of a column that the table has; a missing
    cell, NaN, prints as [nan]. *)
Definition str (cell : option string) : string := default "nan" cell.

(** [df.head(n)] *)
Definition head_rows {A} (n : Z) (l : list A) : list A :=
  if (0 <=? n)%Z then take (Z.to_nat n) l
  else take (length l - Z.to_nat (- n)) l.

(** [a[start:stop]] *)
Definition slice {A} (start stop : Z) (l : list A) : list A :=
  let n := Z.of_nat (length l) in
  let clip i := if (i <? 0)%Z then Z.max 0 (n + i) else Z.min i n in
  let lo := Z.to_nat (clip start) in
  let hi := Z.to_nat (clip stop) in
  drop lo (take hi l).

(** [sorted(items, key=..., reverse=True)]: stable, largest key first. *)
Fixpoint insert_desc {A} (key : A → nat) (x : A) (l : list A) : list A :=
  match l with
  | [] => [x]
  | y :: l' => if (key y <=? key x)%nat then x :: l else y :: insert_desc key x l'
  end.
Definition sorted_reverse {A} (key : A → nat) (l : list A) : list A :=
  foldr (insert_desc key) [] l.

Module RecommendationEngine.
Section engine.
Context `{V : Vectorizer} `{S : Sorter} `{E : RegexEngine}.

Record Engine := mkEngine {
  jobs_df : loc;      (* self.jobs_df *)
  job_vectors : tfidf (* self.tfidf_vectorizer and self.job_vectors *)
}.

Definition _combine_job_features (row : Row) : string :=
  let features : list string := [] in
  let features :=
    match job_title row with
    | Some t => (features ++ [t +:+ t])%list
    | None => features
    end in
  let features :=
    match skills row with Some s => (features ++ [s])%list | None => features end in
  let features :=
    match company row with Some c => (features ++ [c])%list | None => features end in
  let features :=
    match description row with Some d => (features ++ [d])%list | None => features end in
  Py.join " " features.

Definition read (σ : heap) (l : loc) : outcome DataFrame :=
  match σ !! l with
  | Some df => Ok df
  | None => Raise (ValueError "no such object")
  end.

(** [_prepare_data] on the engine's own table: the combined text becomes
    a column and the vectorizer is fitted on it. *)
Definition _prepare_data (df : DataFrame) : outcome (DataFrame * tfidf) :=
  let df := mkFrame (add_column "combined_text" (columns df))
              ((λ r, set_combined_text (Some (_combine_job_features r)) r) <$> rows df) in
  do vectors <- fit_transform ((λ r, default "" (combined_text r)) <$> rows df);
  Ok (df, vectors).

(** [self.jobs_df = jobs_df.copy()]: the copy is a new object; the
    caller keeps the original. *)
Definition __init__ (σ : heap) (jobs_df : loc) : outcome (Engine * heap) :=
  do df <- read σ jobs_df;
  let self_jobs_df := fresh (dom σ) in
  do prepared <- _prepare_data df;
  Ok (mkEngine self_jobs_df prepared.2, <[self_jobs_df := prepared.1]> σ).

Definition _extract_experience_years (experience_level : string) : option Z :=
  if Py.contains "Entry" experience_level then Some 1%Z
  else if Py.contains "Mid" experience_level then Some 4%Z
  else if Py.contains "Senior" experience_level then Some 8%Z
  else if Py.contains "Expert" experience_level then Some 12%Z
  else None.

(** [series.str.contains('Remote', case=False, na=False)]: the pattern is
    a constant without special characters. *)
Definition contains_remote (location : option string) : bool :=
  match location with
  | Some l => Py.contains "remote" (Py.lower l)
  | None => false
  end.

Definition location_is (location : option string) (wanted : string) : bool :=
  bool_decide (location = Some wanted).

Definition le_cell (a : option Z) (b : Z) : bool :=
  match a with Some a => (a <=? b)%Z | None => false end.
Definition ge_cell (a : option Z) (b : Z) : bool :=
  match a with Some a => (b <=? a)%Z | None => false end.
Definition le_float (a : option Q) (b : Q) : bool :=
  match a with Some a => Qle_bool a b | None => false end.
Definition ge_float (a : option Q) (b : Q) : bool :=
  match a with Some a => Qle_bool b a | None => false end.

(** [df[column]]: a table without the column raises [KeyError]. *)
Definition require_columns (df : DataFrame) (needed : list string) : outcome unit :=
  match List.find (λ c, negb (has_column c df)) needed with
  | Some c => Raise (KeyError c)
  | None => Ok tt
  end.

(** The columns that [_apply_filters] looks up, in the order in which it
    does so; a filter that is switched off looks up none. *)
Definition filter_columns (location experience_level : option string)
    (salary_min salary_max : option Q) : list string :=
  match location with
  | Some location =>
      if Py.nonempty location && negb (bool_decide (location = "Any"))
      then ["location"] else []
  | None => []
  end ++
  match experience_level with
  | Some experience_level =>
      if Py.nonempty experience_level then
        match _extract_experience_years experience_level with
        | Some _ => ["exp_min"; "exp_max"]
        | None => []
        end
      else []
  | None => []
  end ++
  match salary_min, salary_max with
  | Some _, Some _ => ["salary_max"; "salary_min"]
  | _, _ => []
  end.

(** The rows that [_apply_filters] keeps.  The columns it looks up on
    the way are [filter_columns]; [get_recommendations] raises when one
    of them is absent. *)
Definition _apply_filters (df : list Scored)
    (location experience_level : option string)
    (salary_min salary_max : option Q) : list Scored :=
  let filtered_df := df in
  let filtered_df :=
    match location with
    | Some location =>
        if Py.nonempty location && negb (bool_decide (location = "Any")) then
          if bool_decide (location = "Remote") then
            filter (λ r, contains_remote (job_location r)) filtered_df
          else
            filter (λ r, location_is (job_location r) location
                         || contains_remote (job_location r))
                   filtered_df
        else filtered_df
    | None => filtered_df
    end in
  let filtered_df :=
    match experience_level with
    | Some experience_level =>
        if Py.nonempty experience_level then
          match _extract_experience_years experience_level with
          | Some exp_years =>
              filter (λ r, le_cell (exp_min (job r)) exp_years
                           && ge_cell (exp_max (job r)) exp_years)
                     filtered_df
          | None => filtered_df
          end
        else filtered_df
    | None => filtered_df
    end in
  let filtered_df :=
    match salary_min, salary_max with
    | Some lo, Some hi =>
        filter (λ r, ge_float (job_salary_max r) lo
                     && le_float (job_salary_min r) hi)
               filtered_df
    | _, _ => filtered_df
    end in
  filtered_df.

Definition _generate_match_explanation (job_row : Row) (user_skills : list string)
    : string :=
  let explanations : list string := [] in
  let job_skills_str := Py.lower (str (skills job_row)) in
  let matching_skills :=
    filter (λ skill, Py.contains (Py.lower skill) job_skills_str) user_skills in
  let explanations :=
    match matching_skills with
    | [] => explanations
    | _ => (explanations ++
            ["Matching skills: " +:+ Py.join ", " (take 3 matching_skills)])%list
    end in
  let job_title := Py.lower (str (job_title job_row)) in
  let title_keywords :=
    Py.lower <$> filter (λ skill, (3 <? Py.len skill)%nat) user_skills in
  let explanations :=
    match List.find (λ keyword, Py.contains keyword job_title) title_keywords with
    | Some keyword => (explanations ++ ["Title contains '" +:+ keyword +:+ "'"])%list
    | None => explanations
    end in
  let explanations :=
    match explanations with
    | [] => ["General profile match"]
    | _ => explanations
    end in
  Py.join " | " (take 2 explanations).

(** [df['compatibility_score'] = scores] *)
Definition assign_scores (rows : list Row) (scores : list R) : outcome (list Scored) :=
  if bool_decide (length scores = length rows)
  then Ok (zip_with mkScored rows scores)
  else Raise (ValueError "Length of values does not match length of index").

Definition get_recommendations (σ : heap) (self : Engine)
    (user_skills : list string) (location experience_level : option string)
    (salary_min salary_max : option Q) (top_n : Z) : outcome (list Recommendation) :=
  let user_profile := Py.join " " user_skills in
  let similarity_scores := query_similarity (job_vectors self) user_profile in
  do jobs <- read σ (jobs_df self);
  do recommendations_df <- assign_scores (rows jobs) similarity_scores;
  do columns_found <-
    require_columns jobs
      (filter_columns location experience_level salary_min salary_max);
  let recommendations_df :=
    _apply_filters recommendations_df location experience_level salary_min salary_max in
  let recommendations_df :=
    head_rows top_n (sort_values compatibility_score false recommendations_df) in
  Ok ((λ row, mkRecommendation row (_generate_match_explanation (job row) user_skills))
        <$> recommendations_df).

(** [df[df['job_title'].str.contains(pat, case=False, na=False)]]: the
    pattern is a regular expression, compiled before any row is looked
    at. *)
Definition search_cell (r : regex) (cell : option string) : bool :=
  match cell with
  | Some text => search r text
  | None => false
  end.

Definition title_contains (jobs : list Row) (pat : string) : outcome (list Row) :=
  do r <- compile_ignorecase pat;
  Ok (filter (λ row, search_cell r (job_title row)) jobs).

(** The loop over the keywords of the role: the first keyword with a
    match wins; [role_jobs] is what the last search returned. *)
Fixpoint broader_search (jobs : list Row) (keywords : list string)
    (role_jobs : list Row) : outcome (list Row) :=
  match keywords with
  | [] => Ok role_jobs
  | keyword :: keywords =>
      do role_jobs <- title_contains jobs keyword;
      match role_jobs with
      | [] => broader_search jobs keywords role_jobs
      | _ => Ok role_jobs
      end
  end.

Definition is_comma (c : ascii) : bool := bool_decide (c = ","%char).

(** [[skill.strip() for skill in str(skills_str).split(',') if skill.strip()]] *)
Definition split_skills (skills_str : string) : list string :=
  filter (λ skill, Py.nonempty skill) (Py.strip <$> Py.split_at is_comma skills_str).

(** The skills cells of the role's jobs, [dropna] applied. *)
Definition role_skills (role_jobs : list Row) : list string :=
  omap skills role_jobs.

Definition _skills_similar (skill1 skill2 : string) : bool :=
  if (Py.len skill1 <? 3)%nat || (Py.len skill2 <? 3)%nat
  then bool_decide (skill1 = skill2)
  else Py.contains skill1 skill2 || Py.contains skill2 skill1
       || (Z.abs (Z.of_nat (Py.len skill1) - Z.of_nat (Py.len skill2)) <=? 2)%Z.

Definition count_skill (skill_counts : gmap string nat) (skill : string)
    : gmap string nat :=
  <[skill := (default 0%nat (skill_counts !! skill) + 1)%nat]> skill_counts.

Definition analyze_skill_gaps (σ : heap) (self : Engine)
    (user_skills : list string) (target_role : string) : outcome SkillGapReport :=
  do jobs <- read σ (jobs_df self);
  do job_title_found <- require_columns jobs ["job_title"];
  do role_jobs <- title_contains (rows jobs) target_role;
  do role_jobs <-
    match role_jobs with
    | [] =>
        let keywords := Py.split (Py.lower target_role) in
        broader_search (rows jobs) keywords role_jobs
    | _ => Ok role_jobs
    end;
  do skills_found <- require_columns jobs ["skills"];
  let required_skills : gset string :=
    list_to_set (mjoin ((λ skills_str, Py.lower <$> split_skills skills_str)
                          <$> role_skills role_jobs)) in
  let user_skills_lower := Py.lower <$> user_skills in
  let held req_skill :=
    existsb (λ user_skill,
               Py.contains user_skill req_skill || Py.contains req_skill user_skill
               || _skills_similar user_skill req_skill)
            user_skills_lower in
  let existing_skills :=
    Py.title <$> filter (λ req_skill, held req_skill) (elements required_skills) in
  let missing_skills :=
    Py.title <$> filter (λ req_skill, negb (held req_skill)) (elements required_skills) in
  let skill_counts : gmap string nat :=
    foldl count_skill ∅
      (mjoin ((λ skills_str, Py.lower <$> split_skills skills_str)
                <$> role_skills role_jobs)) in
  let missing_skills_with_counts :=
    (λ skill, (skill, default 0%nat (skill_counts !! Py.lower skill))) <$> missing_skills in
  let missing_skills_sorted :=
    fst <$> sorted_reverse snd missing_skills_with_counts in
  Ok (mkReport target_role
        (length role_jobs)
        (elements (list_to_set existing_skills : gset string))
        missing_skills_sorted
        (inject_Z (Z.of_nat (length existing_skills))
         / inject_Z (Z.of_nat (Nat.max (size required_skills) 1)) * 100)%Q).

(** [df.iloc[indices]] *)
Fixpoint iloc (rows : list Row) (indices : list nat) : outcome (list Row) :=
  match indices with
  | [] => Ok []
  | i :: indices =>
      match rows !! i with
      | Some r => do rest <- iloc rows indices; Ok (r :: rest)
      | None => Raise (ValueError "positional indexers are out-of-bounds")
      end
  end.

Definition get_similar_jobs (σ : heap) (self : Engine) (job_id top_n : Z)
    : outcome (list SimilarJob) :=
  do jobs <- read σ (jobs_df self);
  if (Z.of_nat (length (rows jobs)) <=? job_id)%Z then Ok []
  else
    match slice job_id (job_id + 1) (seq 0 (n_samples (job_vectors self))) with
    | [i] =>
        let similarities := pairwise_similarity (job_vectors self) i in
        let similar_indices :=
          slice 1 (top_n + 1) (reverse (argsort similarities)) in
        do similar_jobs <- iloc (rows jobs) similar_indices;
        Ok (zip_with mkSimilarJob similar_jobs
              ((λ j, default 0%R (similarities !! j)) <$> similar_indices))
    | _ => Raise (ValueError "Found array with 0 sample(s)")
    end.

End engine.
End RecommendationEngine.

(** ** Skill listings

    [DataProcessor.get_unique_skills], [DataProcessor._get_top_skills] and
    [RecommendationEngine.get_trending_skills]. *)

(** [sorted(strings)]: ascending by code points. *)
Fixpoint insert_string (x : string) (l : list string) : list string :=
  match l with
  | [] => [x]
  | y :: l' => if String.leb x y then x :: l else y :: insert_string x l'
  end.
Definition sorted_strings (l : list string) : list string :=
  foldr insert_string [] l.

(** [counts[key] = counts.get(key, 0) + 1] on a dict, whose items keep
    the order in which the keys were first inserted. *)
Fixpoint dict_increment (counts : list (string * nat)) (key : string)
    : list (string * nat) :=
  match counts with
  | [] => [(key, 1)]
  | (k, n) :: counts' =>
      if bool_decide (k = key) then (k, n + 1) :: counts'
      else (k, n) :: dict_increment counts' key
  end.

(** [[skill.strip() for skill in str(skills_str).split(',') if skill.strip()]] *)
Definition stripped_skills (skills_str : string) : list string :=
  filter (λ skill, Py.nonempty skill)
         (Py.strip <$> Py.split_at (λ c, bool_decide (c = ","%char)) skills_str).

(** The loop over [df['skills'].dropna()] that counts every skill. *)
Definition count_skills (rows : list Row) : list (string * nat) :=
  foldl dict_increment [] (mjoin (stripped_skills <$> omap skills rows)).

Module DataProcessorListings.

Definition get_unique_skills (df : DataFrame) : outcome (list string) :=
  if negb (has_column "skills" df) then Raise (KeyError "skills") else
  let all_skills : gset string :=
    list_to_set (mjoin (stripped_skills <$> omap skills (rows df))) in
  Ok (sorted_strings (elements all_skills)).

Definition _get_top_skills (df : DataFrame) (top_n : Z) : outcome (list string) :=
  if negb (has_column "skills" df) then Raise (KeyError "skills") else
  let skill_counts := count_skills (rows df) in
  let sorted_skills := sorted_reverse snd skill_counts in
  Ok (fst <$> slice 0 top_n sorted_skills).

End DataProcessorListings.

Record TrendingSkill := mkTrending {
  skill : string;
  count : nat;
  trend : string
}.

Module RecommendationEngineListings.
Section listings.
Context `{V : Vectorizer}.

Definition get_trending_skills (σ : heap) (self : RecommendationEngine.Engine)
    (days : Z) : outcome (list TrendingSkill) :=
  do jobs <- RecommendationEngine.read σ (RecommendationEngine.jobs_df self);
  if negb (has_column "skills" jobs) then Raise (KeyError "skills") else
  let skill_counts := count_skills (rows jobs) in
  Ok ((λ item, mkTrending item.1 item.2 "up")
        <$> slice 0 20 (sorted_reverse snd skill_counts)).

End listings.
End RecommendationEngineListings.

(** ** Job statistics

    [DataProcessor.get_job_statistics]. *)

(** [Series.mean()] of the values that are not missing; [None] stands
    for NaN, the mean of no value. *)
Class Averager := {
  mean : list Q → option Q;
  mean_empty : mean [] = None;
  mean_nonempty l : l ≠ [] → is_Some (mean l)
}.

(** [series.nunique()]: the number of distinct values, missing ones not
    counted. *)
Definition nunique (cells : list (option string)) : nat :=
  size (list_to_set (omap id cells) : gset string).

(** [series.value_counts().to_dict()]: how often each value occurs,
    missing ones not counted. *)
Definition value_counts (cells : list (option string)) : gmap string nat :=
  foldr (λ value counts, <[value := S (default 0 (counts !! value))]> counts)
        ∅ (omap id cells).

Record JobStatistics := mkStatistics {
  total_jobs : nat;
  unique_companies : nat;
  unique_locations : nat;
  avg_salary_min : option Q;
  avg_salary_max : option Q;
  experience_distribution : gmap string nat;
  top_skills : list string
}.

Module DataProcessorStatistics.
Section statistics.
Context `{M : Averager}.

(** The entries of the dict are evaluated in the order they are
    written. *)
Definition get_job_statistics (df : DataFrame) : outcome JobStatistics :=
  let total_jobs := length (rows df) in
  let unique_companies :=
    if has_column "company" df then nunique (company <$> rows df) else 0 in
  if negb (has_column "location" df) then Raise (KeyError "location") else
  let unique_locations := nunique (location <$> rows df) in
  let avg_salary_min :=
    if has_column "salary_min" df then mean (omap salary_min (rows df))
    else Some 0%Q in
  let avg_salary_max :=
    if has_column "salary_max" df then mean (omap salary_max (rows df))
    else Some 0%Q in
  let experience_distribution :=
    if has_column "experience_level" df
    then value_counts (experience_level <$> rows df) else ∅ in
  do top_skills <- DataProcessorListings._get_top_skills df 10;
  Ok (mkStatistics total_jobs unique_companies unique_locations
        avg_salary_min avg_salary_max experience_distribution top_skills).

End statistics.
End DataProcessorStatistics.

(** ** Reference implementations of the library interfaces

    Small instances, used to run the engine on concrete tables.  They
    obey the interfaces above and nothing more is claimed of them. *)

(** The positions of the values, smallest value first. *)
Definition stable_argsort (a : list R) : list nat :=
  fst <$> sort_values snd true (zip (seq 0 (length a)) a).

(** Patterns without special characters only. *)
Definition compile_literal_only (pat : string) : outcome string :=
  if is_literal pat then Ok (Py.lower pat) else Raise (ReError pat).

(** The mean in exact arithmetic. *)
Definition exact_mean (l : list Q) : option Q :=
  match l with
  | [] => None
  | _ => Some (foldr Qplus 0 l / inject_Z (Z.of_nat (length l)))%Q
  end.

(** ** Sample tables *)

Definition raw_job (i : nat) (title company location skills salary experience : string)
    : Row :=
  mkRow i (Some title) (Some company) (Some location) (Some skills) None
        (Some salary) (Some experience) None None None None None None None.

Definition raw_columns : list string :=
  ["job_title"; "company"; "location"; "skills"; "salary"; "experience"].

Definition sample_jobs : DataFrame :=
  mkFrame raw_columns
    [ raw_job 0 " senior  software engineer" "IBM" "bengaluru"
              "python; sql | aws" "12-18 LPA" "5-8 years";
      raw_job 1 "data scientist" "Google" "Remote"
              "Python, Machine Learning" "20 LPA" "3 years";
      raw_job 2 "QA Engineer" "TCS" "new delhi"
              "selenium, java" "8.5 LPA" "fresher" ].

(** A posting whose ranges are written upper bound first. *)
Definition swapped_jobs : DataFrame :=
  mkFrame raw_columns
    [ raw_job 0 "Data Scientist" "IBM" "Pune" "python, sql"
              "20-10 LPA" "5-3 years" ].

(** A table without a salary column. *)
Definition unpaid_jobs : DataFrame :=
  mkFrame ["job_title"; "location"; "skills"; "experience"]
    [ mkRow 0 (Some "Data Scientist") None (Some "Pune") (Some "python, sql") None
            None (Some "2-4 years") None None None None None None None ].

Definition draws_a : Draws := mkDraws (λ _, 3%Q) (λ _, (3 # 2)%Q) (λ _, 0%Z) (λ _, 2%Z).
Definition draws_b : Draws := mkDraws (λ _, 4%Q) (λ _, (3 # 2)%Q) (λ _, 1%Z) (λ _, 3%Z).

(** Normalized postings for the engine. *)
Definition posting (i : nat) (title location skills : string)
    (pay_lo pay_hi : Q) (exp_lo exp_hi : Z) : Row :=
  mkRow i (Some title) None (Some location) (Some skills) None None None
        (Some pay_lo) (Some pay_hi) (Some exp_lo) (Some exp_hi) None None None.

Definition posting_columns : list string :=
  ["job_title"; "location"; "skills"; "salary_min"; "salary_max"; "exp_min"; "exp_max"].

Definition two_jobs : DataFrame :=
  mkFrame posting_columns
    [ posting 0 "Python Developer" "Pune" "Python, Sql" 10 20 1 3;
      posting 1 "Data Scientist" "Remote" "Python, Ml" 12 25 2 5 ].

Definition eleven_jobs : DataFrame :=
  mkFrame posting_columns
    ((λ i, posting i "Data Engineer" "Pune" "Sql, Spark" 10 20 1 3) <$> seq 0 11).

Definition band_10_20 : Scored :=
  mkScored (posting 0 "Data Engineer" "Pune" "Sql, Spark" 10 20 1 3) 0.

(** A table without a location column. *)
Definition unlocated_jobs : DataFrame :=
  mkFrame ["job_title"; "skills"; "salary_min"; "salary_max"; "exp_min"; "exp_max"]
    [ mkRow 0 (Some "Python Developer") None None (Some "Python, Sql") None None None
            (Some 10%Q) (Some 20%Q) (Some 1%Z) (Some 3%Z) None None None ].
Definition unlocated_jobs_heap : heap := {[ 0 := unlocated_jobs ]}.

(** The settings of the index used on the sample tables. *)
Definition sample_stop_words : list string := ["a"; "an"; "and"; "of"; "the"].
Definition sample_max_features : nat := 5000.

Definition two_jobs_heap : heap := {[ 0 := two_jobs ]}.
Definition eleven_jobs_heap : heap := {[ 0 := eleven_jobs ]}.

(** * Properties *)

Lemma Qle_bool_true x y : Is_true (Qle_bool x y) ↔ (x <= y)%Q.
Proof. rewrite Is_true_true. apply Qle_bool_iff. Qed.

Lemma StronglySorted_impl {A} (R1 R2 : relation A) l :
  (∀ x y, R1 x y → R2 x y) → StronglySorted R1 l → StronglySorted R2 l.
Proof.
  intros HR. induction 1 as [|x l Hl IH Hx]; constructor; [done|].
  eapply Forall_impl; eauto.
Qed.

Lemma filter_none {A} (P : A → Prop) `{∀ x, Decision (P x)} (l : list A) :
  (∀ x, x ∈ l → ¬ P x) → filter P l = [].
Proof.
  induction l as [|x l IH]; intros Hl; [done|].
  rewrite filter_cons_False by (apply Hl; by left).
  apply IH. intros y Hy. apply Hl. by right.
Qed.

Module OrderFacts.

Lemma goes_before_spec {A} (by_ : A → R) asc x y :
  goes_before by_ asc x y ↔
  (if asc then ascending_by by_ else descending_by by_) x y.
Proof.
  unfold goes_before, ascending_by, descending_by.
  destruct asc; by rewrite bool_decide_spec.
Qed.

Lemma insert_by_perm {A} (by_ : A → R) asc x l : insert_by by_ asc x l ≡ₚ x :: l.
Proof.
  induction l as [|y l IH]; simpl; [done|].
  destruct (goes_before by_ asc x y); [done|].
  by rewrite IH, Permutation_swap.
Qed.

Lemma sort_values_perm {A} (by_ : A → R) asc l : sort_values by_ asc l ≡ₚ l.
Proof.
  induction l as [|x l IH]; simpl; [done|].
  by rewrite insert_by_perm, IH.
Qed.

Lemma sort_values_length {A} (by_ : A → R) asc (l : list A) :
  length (sort_values by_ asc l) = length l.
Proof. by rewrite sort_values_perm. Qed.

(** Sorting commutes with a map that the key looks through. *)
Lemma insert_by_fmap {A B} (f : A → B) (by_ : B → R) asc x l :
  f <$> insert_by (by_ ∘ f) asc x l = insert_by by_ asc (f x) (f <$> l).
Proof.
  induction l as [|y l IH]; [done|].
  rewrite fmap_cons. cbn [insert_by].
  change (goes_before (by_ ∘ f) asc x y) with (goes_before by_ asc (f x) (f y)).
  destruct (goes_before by_ asc (f x) (f y)); rewrite !fmap_cons; [done|].
  by rewrite IH.
Qed.

Lemma sort_values_fmap {A B} (f : A → B) (by_ : B → R) asc l :
  f <$> sort_values (by_ ∘ f) asc l = sort_values by_ asc (f <$> l).
Proof.
  induction l as [|x l IH]; [done|].
  rewrite fmap_cons. cbn [sort_values foldr].
  rewrite insert_by_fmap. f_equal. exact IH.
Qed.

Lemma goes_before_total {A} (by_ : A → R) asc x y :
  goes_before by_ asc x y = false → goes_before by_ asc y x = true.
Proof.
  unfold goes_before.
  destruct asc; intros H%bool_decide_eq_false; apply bool_decide_eq_true; lra.
Qed.

Lemma goes_before_trans {A} (by_ : A → R) asc x y z :
  goes_before by_ asc x y → goes_before by_ asc y z → goes_before by_ asc x z.
Proof. rewrite !goes_before_spec. destruct asc; unfold ascending_by, descending_by; lra. Qed.

(** The order of the sorted list: by key, and among rows that may stand
    either way round, the one that came [earlier] first. *)
Definition ranked {A} (by_ : A → R) (asc : bool) (earlier : relation A) (x y : A)
    : Prop :=
  goes_before by_ asc x y ∧ (goes_before by_ asc y x → earlier x y).

Lemma insert_by_ranked {A} (by_ : A → R) asc (earlier : relation A) x l :
  Forall (earlier x) l →
  StronglySorted (ranked by_ asc earlier) l →
  StronglySorted (ranked by_ asc earlier) (insert_by by_ asc x l).
Proof.
  intros Hx Hl. induction Hl as [|y l Hl IH Hy]; simpl.
  - repeat constructor.
  - inversion Hx as [|? ? Hxy Hxl]; subst.
    destruct (goes_before by_ asc x y) eqn:Hb.
    + constructor; [by constructor|].
      constructor; [split; [by rewrite Hb|done]|].
      rewrite Forall_forall in Hxl, Hy. apply Forall_forall. intros z Hz.
      split; [|intros _; by apply Hxl].
      eapply goes_before_trans; [by rewrite Hb|]. by apply Hy.
    + constructor; [by apply IH|].
      rewrite insert_by_perm. constructor; [|done].
      split; [by rewrite (goes_before_total _ _ _ _ Hb)|]. by rewrite Hb.
Qed.

Lemma sort_values_ranked {A} (by_ : A → R) asc (earlier : relation A) l :
  StronglySorted earlier l →
  StronglySorted (ranked by_ asc earlier) (sort_values by_ asc l).
Proof.
  induction 1 as [|x l Hl IH Hx]; simpl; [constructor|].
  apply insert_by_ranked; [|done]. by rewrite sort_values_perm.
Qed.

Lemma StronglySorted_any {A} (l : list A) : StronglySorted (λ _ _, True) l.
Proof. induction l; constructor; [done|]. by apply Forall_forall. Qed.

Lemma sort_values_sorted {A} (by_ : A → R) (asc : bool) l :
  StronglySorted (if asc then ascending_by by_ else descending_by by_)
                 (sort_values by_ asc l).
Proof.
  eapply StronglySorted_impl;
    [|apply (sort_values_ranked by_ asc (λ _ _, True)), StronglySorted_any].
  intros x y [Hxy _]. by apply goes_before_spec.
Qed.

(** Rows of one and the same key are left as they are. *)
Lemma sort_values_constant {A} (by_ : A → R) asc (k : R) (l : list A) :
  Forall (λ x, by_ x = k) l → sort_values by_ asc l = l.
Proof.
  induction 1 as [|x l Hx Hl IH]; simpl; [done|]. rewrite IH.
  destruct Hl as [|y l Hy Hl]; simpl; [done|].
  unfold goes_before. rewrite Hx, Hy.
  destruct asc; by rewrite bool_decide_eq_true_2 by lra.
Qed.

End OrderFacts.

Module IndexFacts.
Import TextVectorIndex.
Open Scope R_scope.

Lemma dot_nil_r u : dot u [] = 0.
Proof. by destruct u. Qed.

Lemma dot_cons a u b v : dot (a :: u) (b :: v) = a * b + dot u v.
Proof. reflexivity. Qed.

Lemma dot_self_nonneg v : 0 <= dot v v.
Proof.
  induction v as [|a v IH]; [unfold dot; simpl; lra|].
  rewrite dot_cons. nra.
Qed.

Lemma dot_nonneg u v :
  Forall (λ x, 0 <= x) u → Forall (λ x, 0 <= x) v → 0 <= dot u v.
Proof.
  intros Hu. revert v. induction Hu as [|a u Ha Hu IH]; intros v Hv.
  - unfold dot. simpl. lra.
  - destruct Hv as [|b v Hb Hv]; [rewrite dot_nil_r; lra|].
    rewrite dot_cons. specialize (IH v Hv). nra.
Qed.

(** Cauchy-Schwarz *)
Lemma dot_square_le u v : dot u v * dot u v <= dot u u * dot v v.
Proof.
  revert v. induction u as [|a u IH]; intros v.
  - unfold dot. simpl. lra.
  - destruct v as [|b v].
    + rewrite dot_nil_r. change (dot [] []) with 0. lra.
    + rewrite !dot_cons. specialize (IH v).
      pose proof (dot_self_nonneg u) as HU.
      pose proof (dot_self_nonneg v) as HV.
      set (D := dot u v) in *. set (U := dot u u) in *. set (V := dot v v) in *.
      clearbody D U V.
      assert (Hmix : 2 * (a * b) * D <= a * a * V + b * b * U).
      { destruct (Req_dec_T V 0) as [HV0|HV0].
        - rewrite HV0 in *.
          assert (HD : D = 0).
          { apply Rsqr_0_uniq. pose proof (Rle_0_sqr D) as H0.
            unfold Rsqr in *. lra. }
          rewrite HD. pose proof (Rle_0_sqr b) as Hb. unfold Rsqr in Hb. nra.
        - assert (HVpos : 0 < V) by lra.
          pose proof (Rle_0_sqr (a * V - b * D)) as Hsq. unfold Rsqr in Hsq.
          pose proof (Rle_0_sqr b) as Hb. unfold Rsqr in Hb.
          assert (Hbd : b * b * (D * D) <= b * b * (U * V))
            by (apply Rmult_le_compat_l; lra).
          assert (Hprod : 0 <= V * (a * a * V + b * b * U - 2 * (a * b) * D)) by lra.
          apply Rmult_le_reg_l with V; [done|]. lra. }
      lra.
Qed.

Lemma norm_nonneg v : 0 <= norm v.
Proof. apply sqrt_pos. Qed.

Lemma dot_le_norms u v : dot u v <= norm u * norm v.
Proof.
  unfold norm. rewrite <-sqrt_mult by apply dot_self_nonneg.
  apply Rle_trans with (Rabs (dot u v)); [apply Rle_abs|].
  rewrite <-sqrt_Rsqr_abs. apply sqrt_le_1_alt. unfold Rsqr. apply dot_square_le.
Qed.

(** The cosine of two vectors without negative entries lies in [0,1]. *)
Lemma cosine_unit_interval u v :
  Forall (λ x, 0 <= x) u → Forall (λ x, 0 <= x) v → 0 <= cosine u v <= 1.
Proof.
  intros Hu Hv. unfold cosine.
  destruct (Req_dec_T (norm u * norm v) 0) as [Hz|Hnz]; [lra|].
  assert (0 < norm u * norm v).
  { pose proof (norm_nonneg u). pose proof (norm_nonneg v). nra. }
  split.
  - apply Rmult_le_pos; [by apply dot_nonneg|]. left. by apply Rinv_0_lt_compat.
  - apply Rmult_le_reg_r with (norm u * norm v); [done|].
    unfold Rdiv. rewrite Rmult_assoc, Rinv_l by done.
    rewrite Rmult_1_r, Rmult_1_l. apply dot_le_norms.
Qed.

Lemma dot_zero_l u v : Forall (λ x, x = 0) u → dot u v = 0.
Proof.
  intros Hu. revert v. induction Hu as [|a u -> Hu IH]; intros v; [done|].
  destruct v as [|b v]; [apply dot_nil_r|]. rewrite dot_cons, IH. lra.
Qed.

Lemma norm_zero v : Forall (λ x, x = 0) v → norm v = 0.
Proof. intros Hv. unfold norm. rewrite dot_zero_l by done. apply sqrt_0. Qed.

Lemma normalize_zero v : Forall (λ x, x = 0) v → normalize v = v.
Proof.
  intros Hv. unfold normalize. rewrite norm_zero by done.
  by destruct (Req_dec_T 0 0).
Qed.

(** The zero vector has similarity 0 to every vector; nothing is
    divided. *)
Lemma cosine_zero_l u v : Forall (λ x, x = 0) u → cosine u v = 0.
Proof.
  intros Hu. unfold cosine. rewrite norm_zero by done.
  rewrite Rmult_0_l. by destruct (Req_dec_T 0 0).
Qed.

Lemma normalize_nonneg v : Forall (λ x, 0 <= x) v → Forall (λ x, 0 <= x) (normalize v).
Proof.
  intros Hv. unfold normalize.
  destruct (Req_dec_T (norm v) 0) as [Hz|Hnz]; [done|].
  rewrite Forall_fmap. eapply Forall_impl; [exact Hv|]. intros x Hx. simpl.
  pose proof (norm_nonneg v).
  apply Rmult_le_pos; [done|]. left. apply Rinv_0_lt_compat. lra.
Qed.

Section index_facts.
Variable stop_words : list string.
Variable max_features : nat.

Lemma words_empty : words "" = [].
Proof. reflexivity. Qed.

Lemma terms_empty : terms stop_words "" = [].
Proof. reflexivity. Qed.

Lemma document_frequency_le docs t :
  (document_frequency docs t ≤ length docs)%nat.
Proof. apply length_filter. Qed.

Lemma document_frequency_pos docs t :
  t ∈ mjoin docs → (1 ≤ document_frequency docs t)%nat.
Proof.
  intros (d & Ht & Hd)%list_elem_of_join. unfold document_frequency.
  assert (Hin : d ∈ filter (λ d, t ∈ d) docs) by by apply list_elem_of_filter.
  destruct (filter _ docs); [by apply elem_of_nil in Hin|simpl; lia].
Qed.

Lemma ln_nonneg x : 1 <= x → 0 <= ln x.
Proof.
  intros [Hlt| <-]; [|rewrite ln_1; lra].
  left. rewrite <-ln_1. apply ln_increasing; lra.
Qed.

Lemma idf_nonneg docs t : t ∈ mjoin docs → 0 <= idf docs t.
Proof.
  intros Ht. unfold idf. apply ln_nonneg.
  pose proof (document_frequency_pos docs t Ht) as Hpos.
  pose proof (document_frequency_le docs t) as Hle.
  apply le_INR in Hpos, Hle. simpl in Hpos.
  apply Rmult_le_reg_r with (INR (document_frequency docs t)); [lra|].
  unfold Rdiv. rewrite Rmult_assoc, Rinv_l by lra. lra.
Qed.

Lemma select_vocabulary_subseteq docs :
  select_vocabulary max_features docs ⊆ mjoin docs.
Proof.
  intros t Ht. unfold select_vocabulary in Ht.
  apply subseteq_take in Ht. rewrite OrderFacts.sort_values_perm in Ht.
  by rewrite elem_of_remove_dups in Ht.
Qed.

Lemma weights_nonneg docs vocab ts :
  vocab ⊆ mjoin docs → Forall (λ x, 0 <= x) (weights docs vocab ts).
Proof.
  intros Hvocab. unfold weights. rewrite Forall_fmap. apply Forall_forall.
  intros t Ht. simpl. unfold weight.
  apply Rmult_le_pos; [apply pos_INR|]. by apply idf_nonneg, Hvocab.
Qed.

(** A text none of whose terms is in the vocabulary is projected to the
    zero vector. *)
Lemma weights_out_of_vocabulary docs vocab ts :
  Forall (λ t, t ∉ vocab) ts → Forall (λ x, x = 0) (weights docs vocab ts).
Proof.
  intros Hts. unfold weights. rewrite Forall_fmap. apply Forall_forall.
  intros t Ht. simpl. unfold weight, term_frequency.
  rewrite (filter_none (λ u, u = t)); [simpl; lra|].
  intros u Hu ->. rewrite Forall_forall in Hts. by apply (Hts t).
Qed.

Lemma similarity_length index text :
  length (similarity stop_words index text) = length (document_vectors index).
Proof. unfold similarity. by rewrite length_fmap. Qed.

Lemma build_document_vectors corpus :
  length (document_vectors (build stop_words max_features corpus)) = length corpus.
Proof. unfold build. cbn [document_vectors]. by rewrite !length_fmap. Qed.

Lemma build_vectors_nonneg corpus :
  Forall (Forall (λ x, 0 <= x))
         (document_vectors (build stop_words max_features corpus)).
Proof.
  unfold build. cbn [document_vectors]. rewrite Forall_fmap.
  apply Forall_forall. intros ts _. simpl.
  apply normalize_nonneg, weights_nonneg, select_vocabulary_subseteq.
Qed.

Lemma query_nonneg corpus text :
  Forall (λ x, 0 <= x) (query stop_words (build stop_words max_features corpus) text).
Proof.
  unfold query, project, build. cbn [documents vocabulary].
  apply normalize_nonneg, weights_nonneg, select_vocabulary_subseteq.
Qed.

Lemma similarity_of_zero index text :
  Forall (λ x, x = 0) (project stop_words index text) →
  similarity stop_words index text
  = replicate (length (document_vectors index)) 0.
Proof.
  intros Hzero. unfold similarity, query. rewrite normalize_zero by done.
  induction (document_vectors index) as [|d ds IH]; [done|].
  rewrite fmap_cons, cosine_zero_l by done. cbn [length replicate]. by rewrite IH.
Qed.

Lemma similarity_of_empty index :
  similarity stop_words index ""
  = replicate (length (document_vectors index)) 0.
Proof.
  apply similarity_of_zero. unfold project. by apply weights_out_of_vocabulary.
Qed.

(** The similarity of a text to the documents of a built index: one
    score for every document, each in [0,1]. *)
Lemma similarity_unit_interval corpus text :
  Forall (λ score, 0 <= score <= 1)
         (similarity stop_words (build stop_words max_features corpus) text).
Proof.
  unfold similarity. rewrite Forall_fmap.
  eapply Forall_impl; [apply build_vectors_nonneg|].
  intros d Hd. simpl. apply cosine_unit_interval; [apply query_nonneg|done].
Qed.

End index_facts.
End IndexFacts.

(** ** Interfaces are inhabited *)

Lemma zip_seq_lookup {A} (a : list A) k i v :
  (i, v) ∈ zip (seq k (length a)) a → a !! (i - k) = Some v ∧ k ≤ i.
Proof.
  revert k. induction a as [|q a IH]; intros k; simpl.
  - intros H. inversion H.
  - intros [H|H]%elem_of_cons.
    + inversion H; subst. replace (k - k) with 0 by lia. split; [done|lia].
    + apply IH in H as [H ?]. split; [|lia].
      replace (i - k) with (S (i - S k)) by lia. done.
Qed.

Lemma stable_argsort_perm a : stable_argsort a ≡ₚ seq 0 (length a).
Proof.
  unfold stable_argsort. rewrite OrderFacts.sort_values_perm.
  rewrite fst_zip; [done|]. by rewrite length_seq.
Qed.

Lemma stable_argsort_sorted a :
  StronglySorted Rle ((λ i, default 0%R (a !! i)) <$> stable_argsort a).
Proof.
  unfold stable_argsort.
  set (l := sort_values _ _ _).
  assert (Hl : Forall (λ p, a !! p.1 = Some p.2) l).
  { apply Forall_forall. intros [i v] Hin. unfold l in Hin.
    rewrite OrderFacts.sort_values_perm in Hin.
    apply zip_seq_lookup in Hin as [Hin _]. by rewrite Nat.sub_0_r in Hin. }
  assert (Hs : StronglySorted (ascending_by snd) l)
    by apply (OrderFacts.sort_values_sorted snd true).
  clearbody l. induction Hs as [|p l Hs IH Hp]; simpl; [constructor|].
  inversion Hl as [|? ? Hp1 Hl']; subst. constructor; [by apply IH|].
  rewrite !Forall_fmap. rewrite Forall_forall in Hp, Hl'.
  apply Forall_forall. intros q Hq. simpl.
  rewrite Hp1, (Hl' q Hq). simpl. by apply Hp.
Qed.

#[global, refine] Instance stable_sorter : Sorter := {| argsort := stable_argsort |}.
Proof.
  - apply stable_argsort_perm.
  - apply stable_argsort_sorted.
Defined.

(** The text vector index is a vectorizer. *)
#[refine] Instance text_vector_index (stop_words : list string) (max_features : nat)
    : Vectorizer :=
  {| tfidf := TextVectorIndex.Index;
     fit_transform docs := Ok (TextVectorIndex.build stop_words max_features docs);
     n_samples index := length (TextVectorIndex.document_vectors index);
     query_similarity index text := TextVectorIndex.similarity stop_words index text;
     pairwise_similarity index i := TextVectorIndex.document_similarity index i |}.
Proof.
  - intros docs t [= <-]. apply IndexFacts.build_document_vectors.
  - intros. apply IndexFacts.similarity_length.
  - intros index i Hi. unfold TextVectorIndex.document_similarity.
    destruct (lookup_lt_is_Some_2 _ _ Hi) as [d ->]. by rewrite length_fmap.
Defined.

Abbreviation sample_index := (text_vector_index sample_stop_words sample_max_features).

#[global, refine] Instance literal_engine : RegexEngine :=
  {| regex := string;
     compile_ignorecase := compile_literal_only;
     search r s := Py.contains r (Py.lower s) |}.
Proof.
  - intros pat Hpat. exists (Py.lower pat). unfold compile_literal_only.
    destruct (is_literal pat); [done|destruct Hpat].
  - reflexivity.
Defined.

#[global, refine] Instance exact_averager : Averager := {| mean := exact_mean |}.
Proof.
  - reflexivity.
  - intros l Hl. destruct l; [done|]. by eexists.
Defined.

(** ** Facts about the string built-ins *)

Module PyFacts.
Import Py.

Ltac each_char c := destruct c as [[] [] [] [] [] [] [] []]; vm_compute; try done.

Lemma isspace_upper c : isspace (upper_char c) = isspace c.
Proof. each_char c. Qed.
Lemma isspace_lower c : isspace (lower_char c) = isspace c.
Proof. each_char c. Qed.
Lemma iscased_upper c : iscased (upper_char c) = iscased c.
Proof. each_char c. Qed.
Lemma iscased_lower c : iscased (lower_char c) = iscased c.
Proof. each_char c. Qed.
Lemma lower_lower c : lower_char (lower_char c) = lower_char c.
Proof. each_char c. Qed.
Lemma upper_upper c : upper_char (upper_char c) = upper_char c.
Proof. each_char c. Qed.
Lemma lower_upper c : lower_char (upper_char c) = lower_char c.
Proof. each_char c. Qed.

Definition cased_as (b : bool) (c : ascii) : ascii :=
  if b then lower_char c else upper_char c.

Lemma cased_as_idem b c : cased_as b (cased_as b c) = cased_as b c.
Proof. destruct b; simpl; [apply lower_lower|apply upper_upper]. Qed.
Lemma isspace_cased_as b c : isspace (cased_as b c) = isspace c.
Proof. destruct b; simpl; [apply isspace_lower|apply isspace_upper]. Qed.
Lemma iscased_cased_as b c : iscased (cased_as b c) = iscased c.
Proof. destruct b; simpl; [apply iscased_lower|apply iscased_upper]. Qed.
Lemma lower_cased_as b c : lower_char (cased_as b c) = lower_char c.
Proof. destruct b; simpl; [apply lower_lower|apply lower_upper]. Qed.
Lemma space_not_cased c : isspace c = true → iscased c = false.
Proof. each_char c. Qed.
Lemma space_cased_as b c : isspace c = true → cased_as b c = c.
Proof. destruct b; each_char c. Qed.

Lemma title_from_cons b c s :
  title_from b (String c s) = String (cased_as b c) (title_from (iscased c) s).
Proof. reflexivity. Qed.

Lemma lstrip_cons c s :
  lstrip (String c s) = if isspace c then lstrip s else String c s.
Proof. reflexivity. Qed.

Lemma all_space_cons c s : all_space (String c s) = isspace c && all_space s.
Proof. reflexivity. Qed.

Lemma sub_spaces_from_cons r c s :
  sub_spaces_from r (String c s) =
  if isspace c
  then (if r then sub_spaces_from true s else String " " (sub_spaces_from true s))
  else String c (sub_spaces_from false s).
Proof. reflexivity. Qed.

Lemma title_from_idem b s : title_from b (title_from b s) = title_from b s.
Proof.
  revert b. induction s as [|c s IH]; intros b; [done|].
  rewrite !title_from_cons, cased_as_idem, iscased_cased_as. by rewrite IH.
Qed.

Lemma lower_title_from b s : lower (title_from b s) = lower s.
Proof.
  revert b. induction s as [|c s IH]; intros b; [done|].
  rewrite title_from_cons. unfold lower in *. simpl.
  by rewrite lower_cased_as, IH.
Qed.

Lemma all_space_title_from b s : all_space (title_from b s) = all_space s.
Proof.
  revert b. induction s as [|c s IH]; intros b; [done|].
  by rewrite title_from_cons, !all_space_cons, isspace_cased_as, IH.
Qed.

Lemma lstrip_title s : lstrip (title_from false s) = title_from false (lstrip s).
Proof.
  induction s as [|c s IH]; [done|].
  rewrite title_from_cons, !lstrip_cons, isspace_cased_as.
  destruct (isspace c) eqn:Hc.
  - by rewrite (space_not_cased c Hc).
  - by rewrite title_from_cons.
Qed.

Lemma rstrip_cons c s :
  rstrip (String c s) = if all_space (String c s) then EmptyString else String c (rstrip s).
Proof. reflexivity. Qed.

Lemma rstrip_title b s : rstrip (title_from b s) = title_from b (rstrip s).
Proof.
  revert b. induction s as [|c s IH]; intros b; [done|].
  rewrite title_from_cons, !rstrip_cons, <-title_from_cons, all_space_title_from.
  destruct (all_space (String c s)); [done|].
  by rewrite !title_from_cons, IH.
Qed.

Lemma strip_title s : strip (title s) = title (strip s).
Proof. unfold strip, title. by rewrite lstrip_title, rstrip_title. Qed.

Lemma title_idem s : title (title s) = title s.
Proof. apply title_from_idem. Qed.

Lemma lower_title s : lower (title s) = lower s.
Proof. apply lower_title_from. Qed.

Lemma lstrip_idem s : lstrip (lstrip s) = lstrip s.
Proof.
  induction s as [|c s IH]; [done|]. simpl.
  destruct (isspace c) eqn:Hc; [done|]. simpl. by rewrite Hc.
Qed.

Lemma all_space_lstrip s : all_space s = true → lstrip s = EmptyString.
Proof.
  induction s as [|c s IH]; [done|]. simpl.
  intros [Hc Hs]%andb_true_iff. rewrite Hc. auto.
Qed.

Lemma all_space_rstrip s : all_space (rstrip s) = all_space s.
Proof.
  induction s as [|c s IH]; [done|]. rewrite rstrip_cons.
  destruct (all_space (String c s)) eqn:Hs; [done|].
  simpl in *. by rewrite IH.
Qed.

Lemma rstrip_idem s : rstrip (rstrip s) = rstrip s.
Proof.
  induction s as [|c s IH]; [done|]. rewrite rstrip_cons.
  destruct (all_space (String c s)) eqn:Hs; [done|].
  rewrite rstrip_cons. simpl in *. by rewrite all_space_rstrip, Hs, IH.
Qed.

Lemma lstrip_rstrip s : lstrip (rstrip s) = rstrip (lstrip s).
Proof.
  induction s as [|c s IH]; [done|]. rewrite rstrip_cons.
  destruct (all_space (String c s)) eqn:Hs.
  - by rewrite (all_space_lstrip _ Hs).
  - simpl in *. destruct (isspace c) eqn:Hc; [done|].
    rewrite rstrip_cons. simpl. by rewrite Hc.
Qed.

Lemma strip_idem s : strip (strip s) = strip s.
Proof.
  unfold strip. by rewrite lstrip_rstrip, lstrip_idem, rstrip_idem.
Qed.

Lemma sub_spaces_from_idem r s :
  sub_spaces_from r (sub_spaces_from r s) = sub_spaces_from r s.
Proof.
  revert r. induction s as [|c s IH]; intros r; [done|]. simpl.
  destruct (isspace c) eqn:Hc.
  - destruct r; [apply IH|]. simpl. by rewrite IH.
  - simpl. by rewrite Hc, IH.
Qed.

Lemma lstrip_sub_spaces r s :
  lstrip (sub_spaces_from r s) = sub_spaces_from false (lstrip s).
Proof.
  revert r. induction s as [|c s IH]; intros r; [done|]. simpl.
  destruct (isspace c) eqn:Hc.
  - destruct r; [apply IH|]. simpl. apply IH.
  - simpl. by rewrite Hc.
Qed.

Lemma all_space_sub_spaces r s : all_space (sub_spaces_from r s) = all_space s.
Proof.
  revert r. induction s as [|c s IH]; intros r; [done|]. simpl.
  destruct (isspace c) eqn:Hc.
  - destruct r; simpl; by rewrite IH.
  - simpl. by rewrite Hc.
Qed.

Lemma rstrip_sub_spaces r s :
  rstrip (sub_spaces_from r s) = sub_spaces_from r (rstrip s).
Proof.
  revert r. induction s as [|c s IH]; intros r; [done|].
  rewrite rstrip_cons.
  destruct (all_space (String c s)) eqn:Hs.
  - rewrite <-(all_space_sub_spaces r) in Hs.
    destruct (sub_spaces_from r (String c s)); [done|].
    by rewrite rstrip_cons, Hs.
  - simpl in *. destruct (isspace c) eqn:Hc; simpl in Hs.
    + destruct r; [apply IH|].
      rewrite rstrip_cons. simpl. by rewrite all_space_sub_spaces, Hs, IH.
    + rewrite rstrip_cons. simpl. by rewrite Hc, IH.
Qed.

Lemma strip_sub_spaces s : strip (sub_spaces s) = sub_spaces (strip s).
Proof. unfold strip, sub_spaces. by rewrite lstrip_sub_spaces, rstrip_sub_spaces. Qed.

Lemma sub_spaces_title_from r b s :
  (r = true → b = false) →
  sub_spaces_from r (title_from b s) = title_from b (sub_spaces_from r s).
Proof.
  revert r b. induction s as [|c s IH]; intros r b Hrb; [done|].
  rewrite title_from_cons, !sub_spaces_from_cons, isspace_cased_as.
  destruct (isspace c) eqn:Hc.
  - rewrite (space_not_cased c Hc). destruct r.
    + rewrite (Hrb eq_refl). by apply IH.
    + rewrite title_from_cons, IH by done. by destruct b.
  - rewrite title_from_cons. by rewrite IH.
Qed.

Lemma sub_spaces_title s : sub_spaces (title s) = title (sub_spaces s).
Proof. by apply sub_spaces_title_from. Qed.

End PyFacts.

(** ** The normalizer's cleaning steps are idempotent *)

Module CleanFacts.
Import Py PyFacts DataProcessor.

Lemma _clean_job_title_idem t :
  _clean_job_title (_clean_job_title t) = _clean_job_title t.
Proof.
  destruct t as [t|]; [|reflexivity]. simpl. f_equal.
  rewrite strip_title, strip_sub_spaces, strip_idem.
  unfold sub_spaces at 1. rewrite sub_spaces_title.
  unfold sub_spaces at 1 2. by rewrite sub_spaces_from_idem, title_idem.
Qed.

Lemma location_values_fixed :
  Forall (λ kv, _clean_location (Some kv.2) = Some kv.2) location_mapping.
Proof. repeat constructor. Qed.

Lemma _clean_location_cases l :
  (∃ kv, kv ∈ location_mapping ∧ _clean_location (Some l) = Some kv.2) ∨
  (List.find (λ kv, contains kv.1 (lower (strip l))) location_mapping = None ∧
   _clean_location (Some l) = Some (title (strip l))).
Proof.
  unfold _clean_location.
  destruct (List.find _ location_mapping) as [kv|] eqn:Hfind; [left|by right].
  apply find_some in Hfind as [Hin _]. exists kv. by rewrite list_elem_of_In.
Qed.

Lemma _clean_location_idem l :
  _clean_location (_clean_location l) = _clean_location l.
Proof.
  destruct l as [l|]; [|reflexivity].
  destruct (_clean_location_cases l) as [(kv & Hin & ->)|[Hfind ->]].
  - pose proof location_values_fixed as Hfix.
    rewrite Forall_forall in Hfix. by apply Hfix.
  - unfold _clean_location.
    by rewrite strip_title, strip_idem, lower_title, Hfind, title_idem.
Qed.

(** No character of the text separates skills. *)
Fixpoint undelimited (s : string) : bool :=
  match s with
  | EmptyString => true
  | String c s' => negb (is_skill_delimiter c) && undelimited s'
  end.

Lemma negb_True_false (b : bool) : negb b → b = false.
Proof. by destruct b. Qed.

Lemma delimiter_cased_as b c :
  is_skill_delimiter (cased_as b c) = is_skill_delimiter c.
Proof. destruct b; each_char c. Qed.

Lemma undelimited_title_from b s : undelimited (title_from b s) = undelimited s.
Proof.
  revert b. induction s as [|c s IH]; intros b; [done|].
  rewrite title_from_cons. simpl. by rewrite delimiter_cased_as, IH.
Qed.

Lemma undelimited_lstrip s : undelimited s → undelimited (lstrip s).
Proof.
  induction s as [|c s IH]; [done|]. rewrite lstrip_cons.
  destruct (isspace c); [|done]. simpl. intros [_ ?]%andb_True. auto.
Qed.

Lemma undelimited_rstrip s : undelimited s → undelimited (rstrip s).
Proof.
  induction s as [|c s IH]; [done|]. rewrite rstrip_cons.
  destruct (all_space _); [done|]. simpl.
  intros [? ?]%andb_True. apply andb_True. auto.
Qed.

Lemma append_empty_l s : EmptyString +:+ s = s.
Proof. reflexivity. Qed.

Lemma append_cons c t s : String c t +:+ s = String c (t +:+ s).
Proof. reflexivity. Qed.

Lemma append_empty_r s : s +:+ EmptyString = s.
Proof. induction s as [|c s IH]; [done|]. by rewrite append_cons, IH. Qed.

Lemma split_at_not_nil sep s : split_at sep s ≠ [].
Proof.
  destruct s as [|c s]; simpl; [done|].
  destruct (sep c); [done|]. by destruct (split_at sep s).
Qed.

Lemma split_at_undelimited s :
  Forall (λ t, undelimited t) (split_at is_skill_delimiter s).
Proof.
  induction s as [|c s IH]; simpl; [by repeat constructor|].
  destruct (is_skill_delimiter c) eqn:Hc; [by constructor|].
  destruct (split_at is_skill_delimiter s) as [|t ts]; simpl.
  - repeat constructor. simpl. by rewrite Hc.
  - inversion IH; subst. constructor; [|done]. simpl. by rewrite Hc.
Qed.

Lemma split_at_prepend t s :
  undelimited t →
  split_at is_skill_delimiter (t +:+ s) =
  match split_at is_skill_delimiter s with
  | piece :: pieces => (t +:+ piece) :: pieces
  | [] => []
  end.
Proof.
  induction t as [|c t IH].
  - intros _. rewrite append_empty_l.
    destruct (split_at is_skill_delimiter s); by rewrite ?append_empty_l.
  - simpl undelimited. intros [Hc Ht]%andb_True. apply negb_True_false in Hc.
    rewrite append_cons. simpl split_at. rewrite Hc, (IH Ht).
    pose proof (split_at_not_nil is_skill_delimiter s).
    destruct (split_at is_skill_delimiter s); by rewrite ?append_cons.
Qed.

Lemma split_at_whole t :
  undelimited t → split_at is_skill_delimiter t = [t].
Proof.
  induction t as [|c t IH]; simpl; [done|].
  intros [Hc Ht]%andb_True. apply negb_True_false in Hc.
  by rewrite Hc, (IH Ht).
Qed.

Lemma split_at_join t ts :
  Forall (λ t, undelimited t) (t :: ts) →
  split_at is_skill_delimiter (join ", " (t :: ts)) = t :: (String " " <$> ts).
Proof.
  revert t. induction ts as [|t' ts IH]; intros t Hall.
  - inversion Hall; subst. by apply split_at_whole.
  - inversion Hall as [|? ? Ht Hts]; subst.
    change (join ", " (t :: t' :: ts)) with (t +:+ ", " +:+ join ", " (t' :: ts)).
    rewrite (split_at_prepend _ _ Ht).
    change (", " +:+ join ", " (t' :: ts))
      with (String "," (String " " (join ", " (t' :: ts)))).
    change (split_at is_skill_delimiter (String "," (String " " (join ", " (t' :: ts)))))
      with (EmptyString ::
            match split_at is_skill_delimiter (join ", " (t' :: ts)) with
            | piece :: pieces => String " " piece :: pieces
            | [] => [String " " EmptyString]
            end).
    rewrite (IH t' Hts). by rewrite append_empty_r.
Qed.

Definition clean_token (skill : string) : string := title (strip skill).

Lemma clean_token_idem skill : clean_token (clean_token skill) = clean_token skill.
Proof. unfold clean_token. by rewrite strip_title, strip_idem, title_idem. Qed.

Lemma clean_token_blank skill : clean_token (String " " skill) = clean_token skill.
Proof. reflexivity. Qed.

Lemma undelimited_clean_token skill : undelimited skill → undelimited (clean_token skill).
Proof.
  intros H. unfold clean_token, title, strip.
  rewrite undelimited_title_from. by apply undelimited_rstrip, undelimited_lstrip.
Qed.

(** What [_clean_skills] keeps of a text. *)
Definition cleaned_skills (skills_str : string) : list string :=
  filter (λ skill, 1 < len skill)
         (clean_token <$> split_at is_skill_delimiter skills_str).

Lemma cleaned_skills_tokens s :
  Forall (λ t, undelimited t ∧ clean_token t = t ∧ 1 < len t) (cleaned_skills s).
Proof.
  unfold cleaned_skills. apply Forall_forall. intros t Ht.
  apply list_elem_of_filter in Ht as [Hlen Ht].
  apply list_elem_of_fmap in Ht as (raw & -> & Hraw).
  pose proof (split_at_undelimited s) as Hall. rewrite Forall_forall in Hall.
  split_and!; [|apply clean_token_idem|done].
  by apply undelimited_clean_token, Hall.
Qed.

Lemma cleaned_skills_join ts :
  Forall (λ t, undelimited t ∧ clean_token t = t ∧ 1 < len t) ts →
  cleaned_skills (join ", " ts) = ts.
Proof.
  intros Hts. unfold cleaned_skills. destruct ts as [|t ts]; [reflexivity|].
  rewrite split_at_join by (eapply Forall_impl; [exact Hts|]; by intros ? [? _]).
  rewrite fmap_cons, <-list_fmap_compose.
  assert (Hmap : clean_token t :: ((clean_token ∘ String " ") <$> ts) = t :: ts).
  { inversion Hts as [|? ? (_ & Ht & _) Hts']; subst. rewrite Ht. f_equal.
    clear -Hts'. induction Hts' as [|t' ts (_ & Ht' & _) _ IH]; [done|].
    rewrite fmap_cons. simpl. rewrite clean_token_blank, Ht'. f_equal. apply IH. }
  rewrite Hmap. clear Hmap.
  induction Hts as [|t' ts' (_ & _ & Hlen) _ IH]; [done|].
  rewrite filter_cons_True by done. by rewrite IH.
Qed.

Lemma _clean_skills_idem s : _clean_skills (_clean_skills s) = _clean_skills s.
Proof.
  destruct s as [s|]; [|reflexivity].
  change (_clean_skills (Some s)) with (Some (join ", " (cleaned_skills s))).
  change (_clean_skills (Some (join ", " (cleaned_skills s))))
    with (Some (join ", " (cleaned_skills (join ", " (cleaned_skills s))))).
  by rewrite (cleaned_skills_join _ (cleaned_skills_tokens s)).
Qed.

End CleanFacts.

(** ** [process_jobs] on a table with salary and experience columns *)

Module ProcessFacts.
Import Py PyFacts DataProcessor CleanFacts.

Definition normalized_columns (cols : list string) : list string :=
  add_column "posted_date"
    (add_column "experience_level"
       (add_column "exp_max" (add_column "exp_min"
          (add_column "salary_max" (add_column "salary_min" cols))))).

(** What one run does to a row; [stamp] is the posting date to fill in,
    if the table has none. *)
Definition normalize_row (stamp : option Z) (r : Row) : Row :=
  let r := set_job_title (_clean_job_title (job_title r)) r in
  let r := set_salary_range (extract_salary_range (salary r)) r in
  let r := set_exp_range (extract_experience_range (experience r)) r in
  let r := set_experience_level
             (Some (get_experience_level (exp_min r) (exp_max r))) r in
  let r := set_skills (_clean_skills (skills r)) r in
  let r := set_location (_clean_location (location r)) r in
  match stamp with
  | Some now => set_posted_date (Some now) r
  | None => r
  end.

Definition stamp_for (now : Z) (df : DataFrame) : option Z :=
  if has_column "posted_date" df then None else Some now.

Lemma elem_of_add_column c c' cols :
  c ∈ add_column c' cols ↔ c = c' ∨ c ∈ cols.
Proof.
  unfold add_column. case_bool_decide as Hin.
  - split; [by right|]. by intros [->|?].
  - rewrite elem_of_app, list_elem_of_singleton. tauto.
Qed.

Lemma add_column_present c cols : c ∈ cols → add_column c cols = cols.
Proof. intros H. unfold add_column. by rewrite bool_decide_eq_true_2. Qed.

Lemma has_column_add c c' cols rs :
  has_column c (mkFrame (add_column c' cols) rs) =
  bool_decide (c = c') || has_column c (mkFrame cols rs).
Proof.
  unfold has_column. simpl. rewrite <-bool_decide_or.
  apply bool_decide_ext, elem_of_add_column.
Qed.

Lemma in_add_column c c' cols :
  bool_decide (c ∈ add_column c' cols) = bool_decide (c = c') || bool_decide (c ∈ cols).
Proof. rewrite <-bool_decide_or. apply bool_decide_ext, elem_of_add_column. Qed.

Lemma has_column_rows c cols rs rs' :
  has_column c (mkFrame cols rs) = has_column c (mkFrame cols rs').
Proof. reflexivity. Qed.

Lemma has_column_elem c df : has_column c df ↔ c ∈ columns df.
Proof. unfold has_column. apply bool_decide_spec. Qed.

Lemma _process_salary_present d df :
  has_column "salary" df → rows df ≠ [] →
  _process_salary d df =
    Ok (mkFrame (add_column "salary_max" (add_column "salary_min" (columns df)))
          ((λ r, set_salary_range (extract_salary_range (salary r)) r) <$> rows df)).
Proof.
  intros Hcol Hrows. unfold _process_salary.
  rewrite (Is_true_eq_true _ Hcol). by destruct (rows df).
Qed.

Lemma _process_experience_present d df :
  has_column "experience" df → rows df ≠ [] →
  _process_experience d df =
    Ok (mkFrame
          (add_column "experience_level"
             (add_column "exp_max" (add_column "exp_min" (columns df))))
          ((λ r, set_experience_level
                   (Some (get_experience_level (exp_min r) (exp_max r))) r) <$>
           ((λ r, set_exp_range (extract_experience_range (experience r)) r) <$>
            rows df))).
Proof.
  intros Hcol Hrows. unfold _process_experience.
  rewrite (Is_true_eq_true _ Hcol). by destruct (rows df).
Qed.

Lemma match_nonempty {A B} (l : list A) (x y : B) :
  l ≠ [] → match l with [] => x | _ :: _ => y end = y.
Proof. by destruct l. Qed.

Lemma fmap_not_nil {A B} (f : A → B) l : l ≠ [] → f <$> l ≠ [].
Proof. by destruct l. Qed.

Lemma process_jobs_present d now df :
  has_column "salary" df → has_column "experience" df →
  process_jobs d now df =
    if negb (has_column "job_title" df) then Raise (KeyError "job_title")
    else match rows df with
         | [] => Raise (ValueError "Columns must be same length as key")
         | _ =>
             if negb (has_column "skills" df) then Raise (KeyError "skills")
             else if negb (has_column "location" df) then Raise (KeyError "location")
             else Ok (mkFrame (normalized_columns (columns df))
                        (normalize_row (stamp_for now df) <$> rows df))
         end.
Proof.
  intros Hsal Hexp. destruct df as [cols rs]. unfold process_jobs.
  destruct (has_column "job_title" _) eqn:Hjt; simpl negb; cbv iota; [|done].
  simpl columns. simpl rows.
  destruct rs as [|r rs].
  { unfold _process_salary.
    change (has_column "salary" _) with (has_column "salary" (mkFrame cols [])).
    by rewrite (Is_true_eq_true _ Hsal). }
  set (rows0 := r :: rs) in *.
  assert (Hne : rows0 ≠ []) by done. clearbody rows0.
  rewrite _process_salary_present; [|exact Hsal|by apply fmap_not_nil].
  unfold obind at 1. simpl columns. simpl rows.
  rewrite _process_experience_present; first last.
  { simpl. by do 2 apply fmap_not_nil. }
  { rewrite !has_column_add.
    by rewrite (has_column_rows _ _ _ rows0), (Is_true_eq_true _ Hexp). }
  unfold obind at 1. unfold stamp_for, normalized_columns, has_column in *.
  simpl columns in *. simpl rows. rewrite !in_add_column.
  destruct (bool_decide ("skills" ∈ cols)) eqn:Hsk; simpl orb; simpl negb; cbv iota; [|done].
  destruct (bool_decide ("location" ∈ cols)) eqn:Hloc; simpl orb; simpl negb; cbv iota; [|done].
  destruct (bool_decide ("posted_date" ∈ cols)) eqn:Hpd;
    simpl orb; simpl negb; cbv iota; f_equal.
  - rewrite (add_column_present "posted_date").
    2:{ rewrite !elem_of_add_column. do 5 right. by apply bool_decide_eq_true in Hpd. }
    f_equal. rewrite <-!list_fmap_compose. apply list_fmap_ext. by intros ? [].
  - f_equal. rewrite <-!list_fmap_compose. apply list_fmap_ext. by intros ? [].
Qed.

Lemma normalized_columns_idem cols :
  normalized_columns (normalized_columns cols) = normalized_columns cols.
Proof.
  unfold normalized_columns at 1.
  rewrite !add_column_present; [done|..];
    unfold normalized_columns; rewrite !elem_of_add_column; auto 10.
Qed.

Lemma normalized_columns_keep c cols : c ∈ cols → c ∈ normalized_columns cols.
Proof. intros H. unfold normalized_columns. rewrite !elem_of_add_column. auto 10. Qed.

Lemma normalized_columns_posted_date cols : "posted_date" ∈ normalized_columns cols.
Proof. unfold normalized_columns. rewrite !elem_of_add_column. auto. Qed.

Lemma normalize_row_fields stamp r :
  normalize_row stamp r =
  mkRow (idx r) (_clean_job_title (job_title r)) (company r)
        (_clean_location (location r)) (_clean_skills (skills r)) (description r)
        (salary r) (experience r)
        (extract_salary_range (salary r)).1 (extract_salary_range (salary r)).2
        (extract_experience_range (experience r)).1
        (extract_experience_range (experience r)).2
        (Some (get_experience_level (extract_experience_range (experience r)).1
                                    (extract_experience_range (experience r)).2))
        (match stamp with Some now => Some now | None => posted_date r end)
        (combined_text r).
Proof. destruct r, stamp; reflexivity. Qed.

Lemma normalize_row_idem stamp r :
  normalize_row None (normalize_row stamp r) = normalize_row stamp r.
Proof.
  rewrite (normalize_row_fields None), (normalize_row_fields stamp).
  cbn [idx job_title company location skills description salary experience
       salary_min salary_max exp_min exp_max experience_level posted_date
       combined_text].
  rewrite _clean_job_title_idem, _clean_skills_idem, _clean_location_idem.
  reflexivity.
Qed.

Lemma normalize_row_ranges stamp r :
  (exp_min (normalize_row stamp r), exp_max (normalize_row stamp r))
    = extract_experience_range (experience r) ∧
  (salary_min (normalize_row stamp r), salary_max (normalize_row stamp r))
    = extract_salary_range (salary r).
Proof.
  rewrite (normalize_row_fields stamp).
  cbn [salary_min salary_max exp_min exp_max].
  split; symmetry; apply surjective_pairing.
Qed.

Lemma digits_value_nonneg acc s : (0 ≤ acc)%Z → (0 ≤ digits_value acc s)%Z.
Proof.
  revert acc. induction s as [|c s IH]; intros acc Hacc; simpl; [done|].
  apply IH. unfold digit_value. lia.
Qed.

Lemma float_nonneg tok : (0 <= float tok)%Q.
Proof.
  unfold float, Qle. simpl.
  pose proof (digits_value_nonneg (int (int_digits tok)) (frac_digits tok)
                (digits_value_nonneg 0 (int_digits tok) (Z.le_refl 0))).
  lia.
Qed.

Lemma Qle_scale_up (v : Q) : (0 <= v)%Q → (v <= v * (12 # 10))%Q.
Proof. destruct v as [n p]. unfold Qle. simpl. nia. Qed.

End ProcessFacts.

(** * The corpus normalizer *)

Module NormalizerClaims.
Import Py PyFacts DataProcessor CleanFacts ProcessFacts.

Definition experience_invariant (r : Row) : Prop :=
  ∃ lo hi, exp_min r = Some lo ∧ exp_max r = Some hi ∧ (lo + 1 ≤ hi)%Z.

Definition salary_invariant (r : Row) : Prop :=
  ∃ lo hi, salary_min r = Some lo ∧ salary_max r = Some hi ∧ (lo <= hi)%Q.

(** C1, as stated, fails: a posting advertised as "5-3 years" and
    "20-10 LPA" is normalized to the experience range (5, 3) and the
    salary range (20, 10); neither invariant holds of it. *)
Lemma swapped_ranges_break_invariants :
  ∃ r', process_jobs draws_a 0 swapped_jobs
          = Ok (mkFrame (normalized_columns raw_columns) [r']) ∧
        exp_min r' = Some 5%Z ∧ exp_max r' = Some 3%Z ∧
        salary_min r' = Some 20%Q ∧ salary_max r' = Some 10%Q ∧
        ¬ experience_invariant r' ∧ ¬ salary_invariant r'.
Proof.
  eexists. split; [vm_compute; reflexivity|].
  repeat split; try reflexivity.
  - intros (lo & hi & [= <-] & [= <-] & Hle). lia.
  - intros (lo & hi & [= <-] & [= <-] & Hle). by apply Hle.
Qed.

(** A salary numeral of at most 15 digits: Python's binary64 reading
    keeps two such numerals apart and in order. *)
Definition short (tok : decimal) : Prop :=
  len (int_digits tok) + len (frac_digits tok) ≤ 15.

(** C1, amended: on a table with salary and experience columns, the
    ranges of a posting are read off its texts as follows.  Two numeric
    tokens a, b (the first two, when there are more) are stored in the
    order in which they are written, as (a, b): the experience range then
    satisfies exp_max >= exp_min + 1 exactly when b >= a + 1, and the
    salary range, for tokens of at most 15 digits, satisfies
    salary_max >= salary_min exactly when b >= a.  One token v gives the
    experience range (v, v + 2) and the salary range (v, 1.2 v), which
    satisfy the invariants.  No token gives the experience range (0, 2),
    which satisfies its invariant, and no salary range; a missing text
    gives no range. *)
Theorem process_jobs_ranges d now df df' i r :
  has_column "salary" df → has_column "experience" df →
  process_jobs d now df = Ok df' →
  rows df !! i = Some r →
  ∃ r', rows df' !! i = Some r' ∧
    match experience r with
    | None => exp_min r' = None ∧ exp_max r' = None ∧ ¬ experience_invariant r'
    | Some e =>
        match findall_digits (lower e) with
        | [] =>
            exp_min r' = Some 0%Z ∧ exp_max r' = Some 2%Z ∧ experience_invariant r'
        | [v] =>
            exp_min r' = Some (int v) ∧ exp_max r' = Some (int v + 2)%Z ∧
            experience_invariant r'
        | a :: b :: _ =>
            exp_min r' = Some (int a) ∧ exp_max r' = Some (int b) ∧
            (experience_invariant r' ↔ (int a + 1 ≤ int b)%Z)
        end
    end ∧
    match salary r with
    | None => salary_min r' = None ∧ salary_max r' = None ∧ ¬ salary_invariant r'
    | Some s =>
        match findall_decimals (lower s) with
        | [] => salary_min r' = None ∧ salary_max r' = None ∧ ¬ salary_invariant r'
        | [v] =>
            salary_min r' = Some (float v) ∧
            salary_max r' = Some (float v * (12 # 10))%Q ∧
            salary_invariant r'
        | a :: b :: _ =>
            salary_min r' = Some (float a) ∧ salary_max r' = Some (float b) ∧
            (short a → short b → (salary_invariant r' ↔ (float a <= float b)%Q))
        end
    end.
Proof.
  intros Hsal Hexp Hrun Hr.
  rewrite process_jobs_present in Hrun by done.
  destruct (negb (has_column "job_title" df)); [done|].
  destruct (rows df) as [|r0 rs] eqn:Hrows; [done|].
  destruct (negb (has_column "skills" df)); [done|].
  destruct (negb (has_column "location" df)); [done|].
  injection Hrun as <-. exists (normalize_row (stamp_for now df) r).
  split.
  { cbn [rows]. change (list_fmap Row Row ?f rs) with (f <$> rs).
    by rewrite <-fmap_cons, list_lookup_fmap, Hr. }
  destruct (normalize_row_ranges (stamp_for now df) r) as [Hexp_r Hsal_r].
  unfold experience_invariant, salary_invariant. split.
  - destruct (experience r) as [e|]; simpl in Hexp_r.
    + destruct (findall_digits (lower e)) as [|a [|b rest]];
        injection Hexp_r as -> ->.
      * split_and!; [done..|]. exists 0%Z, 2%Z. by repeat split.
      * split_and!; [done..|]. exists (int a), (int a + 2)%Z. repeat split. lia.
      * split_and!; [done..|]. split.
        -- by intros (lo & hi & [= <-] & [= <-] & Hle).
        -- intros Hle. by exists (int a), (int b).
    + injection Hexp_r as -> ->. split_and!; [done..|].
      by intros (lo & hi & [=] & _).
  - destruct (salary r) as [s|]; simpl in Hsal_r.
    + destruct (findall_decimals (lower s)) as [|a [|b rest]];
        injection Hsal_r as -> ->.
      * split_and!; [done..|]. by intros (lo & hi & [=] & _).
      * split_and!; [done..|]. exists (float a), (float a * (12 # 10))%Q.
        repeat split. apply Qle_scale_up, float_nonneg.
      * split_and!; [done..|]. intros _ _. split.
        -- by intros (lo & hi & [= <-] & [= <-] & Hle).
        -- intros Hle. by exists (float a), (float b).
    + injection Hsal_r as -> ->. split_and!; [done..|].
      by intros (lo & hi & [=] & _).
Qed.

Lemma process_jobs_ranges_witness :
  has_column "salary" sample_jobs ∧ has_column "experience" sample_jobs ∧
  (∃ df', process_jobs draws_a 0 sample_jobs = Ok df' ∧
     ∃ r', rows df' !! 0 = Some r' ∧
           exp_min r' = Some 5%Z ∧ exp_max r' = Some 8%Z ∧
           salary_min r' = Some 12%Q ∧ salary_max r' = Some 18%Q ∧
           experience_invariant r' ∧ salary_invariant r').
Proof.
  split; [done|]. split; [done|].
  destruct (process_jobs draws_a 0 sample_jobs) as [df'|] eqn:Hrun;
    [|by vm_compute in Hrun].
  exists df'. split; [done|].
  destruct (process_jobs_ranges draws_a 0 sample_jobs df' 0
              (raw_job 0 " senior  software engineer" "IBM" "bengaluru"
                       "python; sql | aws" "12-18 LPA" "5-8 years")
              I I Hrun eq_refl) as (r' & Hr' & He & Hs).
  exists r'. split; [done|].
  change (findall_digits (lower "5-8 years")) with ["5"; "8"] in He.
  change (findall_decimals (lower "12-18 LPA"))
    with [Decimal "12" ""; Decimal "18" ""] in Hs.
  cbv beta iota in He, Hs. cbn [experience salary raw_job] in He, Hs.
  destruct He as (Hemin & Hemax & Heinv), Hs as (Hsmin & Hsmax & Hsinv).
  vm_compute in Hemin, Hemax, Hsmin, Hsmax.
  split_and!; [exact Hemin|exact Hemax|exact Hsmin|exact Hsmax|..].
  - apply Heinv. by vm_compute.
  - apply Hsinv; [unfold short; simpl; lia..|]. by vm_compute.
Defined.

(** C8, as stated, fails: without a salary column the salary range is
    drawn at random on every run, so a second run replaces the figures
    of the first. *)
Lemma process_jobs_redraws_salary :
  (do df1 <- process_jobs draws_a 0 unpaid_jobs; process_jobs draws_b 0 df1)
  ≠ process_jobs draws_a 0 unpaid_jobs.
Proof. vm_compute. discriminate. Qed.

(** C8, amended: on a record set of ASCII text that has salary and
    experience columns, applying [process_jobs] to its own output yields
    that output again. *)
Theorem process_jobs_idempotent d1 d2 now1 now2 df :
  has_column "salary" df → has_column "experience" df →
  (do df1 <- process_jobs d1 now1 df; process_jobs d2 now2 df1)
  = process_jobs d1 now1 df.
Proof.
  intros Hsal Hexp. rewrite (process_jobs_present d1 now1 df) by done.
  destruct (has_column "job_title" df) eqn:Hjt; [|done].
  destruct (rows df) as [|r rs] eqn:Hrows; [done|].
  destruct (has_column "skills" df) eqn:Hsk; [|done].
  destruct (has_column "location" df) eqn:Hloc; [|done].
  simpl negb. cbv iota. unfold obind.
  assert (Hkeep : ∀ c, has_column c df = true →
    has_column c (mkFrame (normalized_columns (columns df))
                    (normalize_row (stamp_for now1 df) <$> r :: rs)) = true).
  { intros c Hc. apply bool_decide_eq_true. simpl.
    apply normalized_columns_keep. by apply bool_decide_eq_true in Hc. }
  rewrite process_jobs_present;
    [|apply Is_true_eq_left, Hkeep; by apply Is_true_eq_true..].
  rewrite !Hkeep by done. simpl negb. cbv iota. cbn [rows columns].
  rewrite match_nonempty by (by apply fmap_not_nil).
  f_equal. f_equal.
  - apply normalized_columns_idem.
  - unfold stamp_for at 1. unfold has_column. cbn [columns].
    rewrite bool_decide_eq_true_2 by apply normalized_columns_posted_date.
    rewrite <-list_fmap_compose.
    apply list_fmap_ext. intros _ r' _. apply normalize_row_idem.
Qed.

Lemma process_jobs_idempotent_witness :
  has_column "salary" sample_jobs ∧ has_column "experience" sample_jobs ∧
  (∃ df1, process_jobs draws_a 0 sample_jobs = Ok df1 ∧
          process_jobs draws_b 7 df1 = Ok df1).
Proof.
  split; [done|]. split; [done|].
  pose proof (process_jobs_idempotent draws_a draws_b 0 7 sample_jobs I I) as Hidem.
  destruct (process_jobs draws_a 0 sample_jobs) as [df1|] eqn:Hrun;
    [|by vm_compute in Hrun].
  exists df1. by split.
Defined.

End NormalizerClaims.

(** * The recommendation engine *)

Module EngineFacts.
Import Py PyFacts RecommendationEngine.

Section engine_facts.
Context `{V : Vectorizer} `{E : RegexEngine}.

Definition with_combined_text (r : Row) : Row :=
  set_combined_text (Some (_combine_job_features r)) r.

(** The table the engine works on, given the table it was built from. *)
Definition own_table (df : DataFrame) : DataFrame :=
  mkFrame (add_column "combined_text" (columns df)) (with_combined_text <$> rows df).

(** The texts the vectorizer is fitted on. *)
Definition combined_texts (table : DataFrame) : list string :=
  (λ r, default "" (combined_text r)) <$> rows table.

(** The engine built from [df] and the heap it leaves. *)
Definition built (σ : heap) (df : DataFrame) (vectors : tfidf) : Engine * heap :=
  (mkEngine (fresh (dom σ)) vectors, <[fresh (dom σ) := own_table df]> σ).

Lemma _prepare_data_eq df :
  _prepare_data df =
  do vectors <- fit_transform (combined_texts (own_table df));
  Ok (own_table df, vectors).
Proof. reflexivity. Qed.

Lemma __init___runs σ l df vectors :
  σ !! l = Some df →
  fit_transform (combined_texts (own_table df)) = Ok vectors →
  __init__ σ l = Ok (built σ df vectors).
Proof.
  intros Hl Hfit. unfold __init__, read. rewrite Hl. unfold obind at 1.
  by rewrite _prepare_data_eq, Hfit.
Qed.

Lemma __init___inv σ l self σ1 :
  __init__ σ l = Ok (self, σ1) →
  ∃ df,
    σ !! l = Some df ∧
    jobs_df self = fresh (dom σ) ∧
    σ1 = <[fresh (dom σ) := own_table df]> σ ∧
    fit_transform (combined_texts (own_table df)) = Ok (job_vectors self) ∧
    n_samples (job_vectors self) = length (rows df).
Proof.
  unfold __init__, read. destruct (σ !! l) as [df|] eqn:Hl; [|done].
  unfold obind at 1. rewrite _prepare_data_eq.
  destruct (fit_transform _) as [vectors|] eqn:Hfit; [|done].
  intros [= <- <-]. exists df. split_and!; try done.
  apply fit_transform_samples in Hfit. cbn [job_vectors snd].
  rewrite Hfit. unfold combined_texts, own_table. cbn [rows].
  by rewrite !length_fmap.
Qed.

Lemma fresh_not_allocated (σ : heap) k : k ∈ dom σ → k ≠ fresh (dom σ).
Proof. intros Hk ->. by apply (is_fresh (dom σ)). Qed.

Lemma read_own_table σ l self σ1 :
  __init__ σ l = Ok (self, σ1) →
  ∃ df, σ !! l = Some df ∧ read σ1 (jobs_df self) = Ok (own_table df) ∧
        n_samples (job_vectors self) = length (rows df).
Proof.
  intros Hinit. apply __init___inv in Hinit as (df & Hl & Hself & -> & _ & Hn).
  exists df.
  split_and!; try done. unfold read. by rewrite Hself, lookup_insert_eq.
Qed.

Definition overwrite (σ : heap) (writes : list (loc * DataFrame)) : heap :=
  foldl (λ σ w, <[w.1 := w.2]> σ) σ writes.

Lemma overwrite_lookup_ne σ writes k :
  Forall (λ w, w.1 ≠ k) writes → overwrite σ writes !! k = σ !! k.
Proof.
  revert σ. induction writes as [|w writes IH]; intros σ Hall; [done|].
  inversion Hall; subst. simpl. rewrite IH by done. by rewrite lookup_insert_ne.
Qed.

Lemma read_after_overwrite σ l self σ1 writes :
  __init__ σ l = Ok (self, σ1) →
  Forall (λ w, w.1 ∈ dom σ) writes →
  read (overwrite σ1 writes) (jobs_df self) = read σ1 (jobs_df self).
Proof.
  intros Hinit Hwrites.
  apply __init___inv in Hinit as (df & Hl & Hself & -> & _ & Hn).
  unfold read. rewrite overwrite_lookup_ne; [done|].
  eapply Forall_impl; [exact Hwrites|]. intros w Hw. rewrite Hself.
  by apply fresh_not_allocated.
Qed.

(** The scored table before filtering. *)
Definition scored (table : DataFrame) (self : Engine) (user_skills : list string)
    : list Scored :=
  zip_with mkScored (rows table)
           (query_similarity (job_vectors self) (join " " user_skills)).

Definition explained (user_skills : list string) (row : Scored) : Recommendation :=
  mkRecommendation row (_generate_match_explanation (job row) user_skills).

Lemma require_columns_present df needed :
  Forall (λ c, has_column c df) needed → require_columns df needed = Ok tt.
Proof.
  intros Hall. unfold require_columns.
  destruct (List.find _ needed) as [c|] eqn:Hfind; [|done].
  apply List.find_some in Hfind as [Hin Hc].
  apply list_elem_of_In in Hin. rewrite Forall_forall in Hall.
  specialize (Hall c Hin). by destruct (has_column c df).
Qed.

Lemma has_column_own_table c df : has_column c df → has_column c (own_table df).
Proof.
  unfold has_column, own_table. cbn [columns]. rewrite !bool_decide_spec.
  rewrite ProcessFacts.elem_of_add_column. auto.
Qed.

Lemma own_table_length df : length (rows (own_table df)) = length (rows df).
Proof. unfold own_table. cbn [rows]. apply length_fmap. Qed.

Definition located (r : Row) : Prop := is_Some (location r).
Definition with_title (r : Row) : Prop := is_Some (job_title r).

(** The columns that the filters look up are there, and a location
    column that is searched holds text: on a column without any, the
    [.str] accessor may be refused. *)
Definition filters_readable (df : DataFrame) (location experience_level : option string)
    (salary_min salary_max : option Q) : Prop :=
  Forall (λ c, has_column c df)
         (filter_columns location experience_level salary_min salary_max) ∧
  ("location" ∈ filter_columns location experience_level salary_min salary_max →
   Exists located (rows df)).

Lemma get_recommendations_run σ l self σ1 user_skills location experience_level
    salary_min salary_max top_n :
  __init__ σ l = Ok (self, σ1) →
  ∃ df, σ !! l = Some df ∧
    get_recommendations σ1 self user_skills location experience_level
                        salary_min salary_max top_n
    = do columns_found <-
        require_columns (own_table df)
          (filter_columns location experience_level salary_min salary_max);
      Ok (explained user_skills <$>
          head_rows top_n
            (sort_values compatibility_score false
               (_apply_filters (scored (own_table df) self user_skills)
                  location experience_level salary_min salary_max))).
Proof.
  intros Hinit. apply read_own_table in Hinit as (df & Hl & Hread & Hn).
  exists df. split; [done|].
  unfold get_recommendations. rewrite Hread. unfold obind at 1.
  unfold assign_scores.
  rewrite bool_decide_eq_true_2; [done|].
  unfold own_table. cbn [rows].
  by rewrite query_similarity_length, Hn, length_fmap.
Qed.

(** With readable filters the call returns. *)
Lemma get_recommendations_returns σ l self σ1 df user_skills location experience_level
    salary_min salary_max top_n :
  __init__ σ l = Ok (self, σ1) → σ !! l = Some df →
  filters_readable df location experience_level salary_min salary_max →
  get_recommendations σ1 self user_skills location experience_level
                      salary_min salary_max top_n
  = Ok (explained user_skills <$>
        head_rows top_n
          (sort_values compatibility_score false
             (_apply_filters (scored (own_table df) self user_skills)
                location experience_level salary_min salary_max))).
Proof.
  intros Hinit Hl [Hcols _].
  destruct (get_recommendations_run σ l self σ1 user_skills location
              experience_level salary_min salary_max top_n Hinit) as (df' & Hl' & ->).
  rewrite Hl in Hl'. injection Hl' as <-.
  rewrite require_columns_present; [done|].
  eapply Forall_impl; [exact Hcols|]. intros c. apply has_column_own_table.
Qed.

(** What the call returns, when it returns. *)
Lemma get_recommendations_returned σ l self σ1 df user_skills location experience_level
    salary_min salary_max top_n recs :
  __init__ σ l = Ok (self, σ1) → σ !! l = Some df →
  get_recommendations σ1 self user_skills location experience_level
                      salary_min salary_max top_n = Ok recs →
  recs = explained user_skills <$>
         head_rows top_n
           (sort_values compatibility_score false
              (_apply_filters (scored (own_table df) self user_skills)
                 location experience_level salary_min salary_max)).
Proof.
  intros Hinit Hl Hrun.
  destruct (get_recommendations_run σ l self σ1 user_skills location
              experience_level salary_min salary_max top_n Hinit) as (df' & Hl' & Hrun').
  rewrite Hl in Hl'. injection Hl' as <-.
  rewrite Hrun' in Hrun. destruct (require_columns _ _); [|done].
  by injection Hrun as <-.
Qed.

Lemma head_rows_sorted {A} (R : relation A) n (l : list A) :
  StronglySorted R l → StronglySorted R (head_rows n l).
Proof.
  intros Hl. unfold head_rows.
  assert (Htake : ∀ k, StronglySorted R (take k l)).
  { intros k. rewrite <-(take_drop k l) in Hl. by apply StronglySorted_app_1_l in Hl. }
  destruct (0 <=? n)%Z; apply Htake.
Qed.

Lemma StronglySorted_fmap_by {A B} (f : A → B) (by_ : B → R) (l : list A) :
  StronglySorted (descending_by by_) (f <$> l) →
  StronglySorted (descending_by (by_ ∘ f)) l.
Proof.
  induction l as [|x l IH]; [constructor|]. rewrite fmap_cons.
  inversion 1 as [|? ? Hl Hx]; subst. constructor; [by apply IH|].
  by rewrite Forall_fmap in Hx.
Qed.

Lemma _apply_filters_subseteq df location experience_level salary_min salary_max :
  _apply_filters df location experience_level salary_min salary_max ⊆ df.
Proof.
  unfold _apply_filters.
  repeat case_match; intros row Hrow;
    repeat (apply list_elem_of_filter in Hrow as [_ Hrow]); done.
Qed.

Lemma head_rows_subseteq {A} n (l : list A) : head_rows n l ⊆ l.
Proof. unfold head_rows. destruct (0 <=? n)%Z; apply subseteq_take. Qed.

Lemma head_rows_length_le {A} n (l : list A) :
  (0 ≤ n)%Z → length (head_rows n l) ≤ Z.to_nat n.
Proof.
  intros Hn. unfold head_rows.
  rewrite (proj2 (Z.leb_le 0 n) Hn), length_take. lia.
Qed.

Lemma zip_with_replicate (rows : list Row) (q : R) :
  zip_with mkScored rows (replicate (length rows) q) = (λ r, mkScored r q) <$> rows.
Proof. induction rows as [|r rows IH]; simpl; by rewrite ?IH. Qed.

Lemma scored_jobs_eq table self user_skills :
  n_samples (job_vectors self) = length (rows table) →
  job <$> scored table self user_skills = rows table.
Proof.
  intros Hn. unfold scored.
  pose proof (query_similarity_length (job_vectors self) (join " " user_skills)) as Hlen.
  rewrite Hn in Hlen. clear Hn. revert Hlen.
  generalize (query_similarity (job_vectors self) (join " " user_skills)).
  induction (rows table) as [|r rs IH]; intros [|q scores] Hlen; try done.
  simpl. f_equal. apply IH. simpl in Hlen. lia.
Qed.

(** *** Role search *)

Lemma special_lower c : is_regex_special (lower_char c) = is_regex_special c.
Proof. each_char c. Qed.

Lemma is_literal_lower pat : is_literal (lower pat) = is_literal pat.
Proof.
  induction pat as [|c pat IH]; [done|].
  unfold lower in *. simpl. by rewrite special_lower, IH.
Qed.

Lemma split_at_literal sep s :
  is_literal s → Forall (λ piece, is_literal piece) (split_at sep s).
Proof.
  induction s as [|c s IH]; simpl; [by repeat constructor|].
  intros [Hc Hs]%andb_True. specialize (IH Hs).
  destruct (sep c); [by constructor|].
  destruct (split_at sep s) as [|piece pieces]; simpl.
  - repeat constructor. simpl. by rewrite andb_True.
  - inversion IH; subst. constructor; [|done]. simpl. by rewrite andb_True.
Qed.

Lemma split_literal s : is_literal s → Forall (λ word, is_literal word) (split s).
Proof.
  intros Hs. unfold split. apply Forall_forall. intros word Hword.
  apply list_elem_of_filter in Hword as [_ Hword].
  pose proof (split_at_literal isspace s Hs) as Hall.
  rewrite Forall_forall in Hall. by apply Hall.
Qed.

(** No job title of the table contains the word, letter case ignored. *)
Definition in_no_title (jobs : list Row) (word : string) : Prop :=
  ∀ r t, r ∈ jobs → job_title r = Some t → contains (lower word) (lower t) = false.

Lemma title_contains_no_match jobs pat :
  is_literal pat → in_no_title jobs pat → title_contains jobs pat = Ok [].
Proof.
  intros Hlit Hnone. unfold title_contains.
  destruct (compile_literal pat Hlit) as (r & -> & Hsearch). unfold obind.
  f_equal. apply filter_none. intros row Hrow. unfold search_cell.
  destruct (job_title row) as [t|] eqn:Ht; [|by intros []].
  rewrite Hsearch, (Hnone row t Hrow Ht). by intros [].
Qed.

Lemma broader_search_no_match jobs keywords :
  Forall (λ word, is_literal word ∧ in_no_title jobs word) keywords →
  broader_search jobs keywords [] = Ok [].
Proof.
  induction 1 as [|word keywords [Hlit Hnone] _ IH]; [done|].
  simpl. by rewrite title_contains_no_match.
Qed.

Lemma title_contains_raises jobs pat e :
  compile_ignorecase pat = Raise e → title_contains jobs pat = Raise e.
Proof. intros Hbad. unfold title_contains. by rewrite Hbad. Qed.

Lemma in_no_title_own_table df word :
  in_no_title (rows df) word → in_no_title (rows (own_table df)) word.
Proof.
  intros Hnone r t Hr Ht. unfold own_table in Hr. cbn [rows] in Hr.
  apply list_elem_of_fmap in Hr as (r0 & -> & Hr0).
  apply (Hnone r0 t Hr0). by destruct r0.
Qed.

End engine_facts.
End EngineFacts.

Module FilterFacts.
Import Py PyFacts RecommendationEngine EngineFacts.

(** What each of the three filters asks of a posting. *)
Definition passes_location (location : option string) (r : Scored) : bool :=
  match location with
  | Some wanted =>
      if nonempty wanted && negb (bool_decide (wanted = "Any")) then
        if bool_decide (wanted = "Remote") then contains_remote (job_location r)
        else location_is (job_location r) wanted || contains_remote (job_location r)
      else true
  | None => true
  end.

Definition passes_experience (experience_level : option string) (r : Scored) : bool :=
  match experience_level with
  | Some label =>
      if nonempty label then
        match _extract_experience_years label with
        | Some exp_years =>
            le_cell (exp_min (job r)) exp_years && ge_cell (exp_max (job r)) exp_years
        | None => true
        end
      else true
  | None => true
  end.

Definition passes_salary (salary_min salary_max : option Q) (r : Scored) : bool :=
  match salary_min, salary_max with
  | Some lo, Some hi => ge_float (job_salary_max r) lo && le_float (job_salary_min r) hi
  | _, _ => true
  end.

Lemma filter_all {A} (l : list A) : filter (λ _, true) l = l.
Proof.
  induction l as [|x l IH]; [done|]. rewrite filter_cons_True by done. by rewrite IH.
Qed.

Lemma filter_and {A} (P Q : A → bool) (l : list A) :
  filter (λ x, Q x) (filter (λ x, P x) l) = filter (λ x, P x && Q x) l.
Proof.
  induction l as [|x l IH]; [done|].
  rewrite !(filter_cons _ x l). cbv beta.
  destruct (P x) eqn:HP; simpl; [|done].
  rewrite filter_cons. destruct (Q x) eqn:HQ; simpl; by rewrite IH.
Qed.

Lemma filter_ext_bool {A} (P Q : A → bool) (l : list A) :
  (∀ x, P x = Q x) → filter (λ x, P x) l = filter (λ x, Q x) l.
Proof.
  intros Heq. induction l as [|x l IH]; [done|].
  rewrite !filter_cons. cbv beta. rewrite <-Heq, IH. done.
Qed.

Lemma location_stage (df : list Scored) location :
  match location with
  | Some wanted =>
      if nonempty wanted && negb (bool_decide (wanted = "Any")) then
        if bool_decide (wanted = "Remote") then
          filter (λ r, contains_remote (job_location r)) df
        else
          filter (λ r, location_is (job_location r) wanted
                       || contains_remote (job_location r)) df
      else df
  | None => df
  end = filter (λ r, passes_location location r) df.
Proof.
  unfold passes_location. destruct location as [wanted|]; [|by rewrite filter_all].
  destruct (nonempty wanted && _); [|by rewrite filter_all].
  by destruct (bool_decide (wanted = "Remote")).
Qed.

Lemma experience_stage (df : list Scored) experience_level :
  match experience_level with
  | Some label =>
      if nonempty label then
        match _extract_experience_years label with
        | Some exp_years =>
            filter (λ r, le_cell (exp_min (job r)) exp_years
                         && ge_cell (exp_max (job r)) exp_years) df
        | None => df
        end
      else df
  | None => df
  end = filter (λ r, passes_experience experience_level r) df.
Proof.
  unfold passes_experience. destruct experience_level as [label|]; [|by rewrite filter_all].
  destruct (nonempty label); [|by rewrite filter_all].
  destruct (_extract_experience_years label); [done|by rewrite filter_all].
Qed.

Lemma salary_stage (df : list Scored) salary_min salary_max :
  match salary_min, salary_max with
  | Some lo, Some hi =>
      filter (λ r, ge_float (job_salary_max r) lo && le_float (job_salary_min r) hi) df
  | _, _ => df
  end = filter (λ r, passes_salary salary_min salary_max r) df.
Proof.
  unfold passes_salary.
  destruct salary_min, salary_max; by rewrite ?filter_all.
Qed.

(** The three stages of [_apply_filters] as one filter. *)
Lemma _apply_filters_filter df location experience_level salary_min salary_max :
  _apply_filters df location experience_level salary_min salary_max
  = filter (λ r, passes_location location r && passes_experience experience_level r
                 && passes_salary salary_min salary_max r) df.
Proof.
  unfold _apply_filters.
  rewrite location_stage, experience_stage, salary_stage.
  rewrite (filter_and (passes_location location) (passes_experience experience_level)).
  by rewrite (filter_and (λ r, passes_location location r
                               && passes_experience experience_level r)
                         (passes_salary salary_min salary_max)).
Qed.

(** Whether a posting passes all three filters. *)
Definition keeps (location experience_level : option string)
    (salary_min salary_max : option Q) (r : Scored) : bool :=
  passes_location location r && passes_experience experience_level r
  && passes_salary salary_min salary_max r.

Lemma _apply_filters_keeps df location experience_level salary_min salary_max :
  _apply_filters df location experience_level salary_min salary_max
  = filter (λ r, keeps location experience_level salary_min salary_max r) df.
Proof. apply _apply_filters_filter. Qed.

End FilterFacts.

(** ** The returned postings, position by position *)

Module RankingFacts.
Import Py RecommendationEngine EngineFacts FilterFacts OrderFacts.

Lemma filter_fmap {A B} (f : A → B) (P : B → bool) (l : list A) :
  filter (λ y, P y) (f <$> l) = f <$> filter (λ x, P (f x)) l.
Proof.
  induction l as [|x l IH]; [done|].
  rewrite fmap_cons, !filter_cons. cbv beta.
  destruct (P (f x)); simpl; by rewrite IH.
Qed.

Lemma head_rows_fmap {A B} (f : A → B) n (l : list A) :
  f <$> head_rows n l = head_rows n (f <$> l).
Proof. unfold head_rows. rewrite length_fmap. destruct (0 <=? n)%Z; apply fmap_take. Qed.

Lemma head_rows_sublist {A} n (l : list A) : head_rows n l `sublist_of` l.
Proof. unfold head_rows. destruct (0 <=? n)%Z; apply sublist_take. Qed.

Lemma StronglySorted_sublist {A} (T : relation A) l1 l2 :
  l1 `sublist_of` l2 → StronglySorted T l2 → StronglySorted T l1.
Proof.
  induction 1 as [|x l1 l2 Hsub IH|x l1 l2 Hsub IH]; intros Hs; [done|..];
    inversion Hs as [|? ? Hl Hx]; subst; [|by apply IH].
  constructor; [by apply IH|].
  rewrite Forall_forall in Hx. apply Forall_forall. intros y Hy.
  apply Hx. by eapply elem_of_sublist.
Qed.

Lemma StronglySorted_lookup {A} (T : relation A) l i j x y :
  StronglySorted T l → i < j → l !! i = Some x → l !! j = Some y → T x y.
Proof.
  intros Hs. revert i j. induction Hs as [|z l Hs IH Hz]; intros i j Hij Hi Hj.
  - by rewrite lookup_nil in Hi.
  - destruct j as [|j]; [lia|]. simpl in Hj. destruct i as [|i].
    + injection Hi as ->. rewrite Forall_forall in Hz.
      apply Hz. by eapply list_elem_of_lookup_2.
    + simpl in Hi. apply (IH i j); [lia|done..].
Qed.

(** A table with the position of every row. *)
Definition positioned {A} (l : list A) : list (nat * A) := zip (seq 0 (length l)) l.

Definition by_position {A} (x y : nat * A) : Prop := x.1 < y.1.

Lemma positioned_snd {A} (l : list A) : (positioned l).*2 = l.
Proof. unfold positioned. apply snd_zip. by rewrite length_seq. Qed.

Lemma positioned_fst {A} (l : list A) : (positioned l).*1 = seq 0 (length l).
Proof. unfold positioned. apply fst_zip. by rewrite length_seq. Qed.

Lemma positioned_lookup {A} (l : list A) :
  Forall (λ x, l !! x.1 = Some x.2) (positioned l).
Proof.
  apply Forall_forall. intros [i v] Hin.
  apply zip_seq_lookup in Hin as [Hin _]. by rewrite Nat.sub_0_r in Hin.
Qed.

Lemma zip_seq_sorted {A} (l : list A) k :
  StronglySorted by_position (zip (seq k (length l)) l).
Proof.
  revert k. induction l as [|x l IH]; intros k; simpl; constructor; [apply IH|].
  apply Forall_forall. intros [i v] Hin.
  apply zip_seq_lookup in Hin as [_ Hle]. unfold by_position. simpl. lia.
Qed.

Lemma positioned_sorted {A} (l : list A) : StronglySorted by_position (positioned l).
Proof. apply zip_seq_sorted. Qed.

(** The postings returned, each with its position in the scored table:
    the rows that pass are ordered by score and the list is cut. *)
Definition shortlist (table : list Scored) (keep : Scored → bool) (top_n : Z)
    : list (nat * Scored) :=
  head_rows top_n
    (sort_values (compatibility_score ∘ snd) false
       (filter (λ x, keep x.2) (positioned table))).

Lemma shortlist_rows (table : list Scored) (keep : Scored → bool) top_n :
  (shortlist table keep top_n).*2
  = head_rows top_n (sort_values compatibility_score false (filter (λ r, keep r) table)).
Proof.
  unfold shortlist. rewrite head_rows_fmap, sort_values_fmap.
  by rewrite <-(filter_fmap snd keep), positioned_snd.
Qed.

Lemma shortlist_submseteq (table : list Scored) (keep : Scored → bool) top_n :
  shortlist table keep top_n ⊆+ positioned table.
Proof.
  unfold shortlist. etrans; [apply sublist_submseteq, head_rows_sublist|].
  rewrite sort_values_perm. apply sublist_submseteq, sublist_filter.
Qed.

Lemma shortlist_lookup (table : list Scored) (keep : Scored → bool) top_n :
  Forall (λ x, table !! x.1 = Some x.2 ∧ keep x.2) (shortlist table keep top_n).
Proof.
  apply Forall_forall. intros x Hx. unfold shortlist in Hx.
  pose proof (elem_of_sublist _ _ _ Hx (head_rows_sublist _ _)) as Hin.
  clear Hx. rename Hin into Hx. rewrite sort_values_perm in Hx.
  apply list_elem_of_filter in Hx as [Hkeep Hx]. split; [|done].
  pose proof (positioned_lookup table) as Hall. rewrite Forall_forall in Hall.
  by apply Hall.
Qed.

Lemma shortlist_NoDup (table : list Scored) (keep : Scored → bool) top_n :
  NoDup (shortlist table keep top_n).*1.
Proof.
  pose proof (shortlist_submseteq table keep top_n) as Hsub.
  apply (fmap_submseteq fst) in Hsub. rewrite positioned_fst in Hsub.
  apply submseteq_sublist_l in Hsub as (l2 & Hsub & Hperm).
  eapply sublist_NoDup; [|exact Hsub]. rewrite Hperm. apply NoDup_seq.
Qed.

Lemma shortlist_sorted (table : list Scored) (keep : Scored → bool) top_n :
  StronglySorted (ranked (compatibility_score ∘ snd) false by_position)
                 (shortlist table keep top_n).
Proof.
  unfold shortlist. eapply StronglySorted_sublist; [apply head_rows_sublist|].
  apply sort_values_ranked.
  eapply StronglySorted_sublist; [apply sublist_filter|apply positioned_sorted].
Qed.

Lemma shortlist_length (table : list Scored) (keep : Scored → bool) top_n :
  (0 ≤ top_n)%Z →
  length (shortlist table keep top_n)
  = Nat.min (Z.to_nat top_n) (length (filter (λ r, keep r) table)).
Proof.
  intros Htop. rewrite <-(length_fmap snd), shortlist_rows. unfold head_rows.
  rewrite (proj2 (Z.leb_le 0 top_n) Htop), length_take, sort_values_length. done.
Qed.

Lemma positioned_elem {A} (l : list A) i x :
  l !! i = Some x → (i, x) ∈ positioned l.
Proof.
  intros Hx. apply (list_elem_of_lookup_2 _ i). unfold positioned.
  apply lookup_zip_Some. split; [|done].
  apply lookup_seq. split; [done|]. by eapply lookup_lt_Some.
Qed.

(** A posting that passes and is left out scores no more than any
    posting that is returned. *)
Lemma shortlist_best (table : list Scored) (keep : Scored → bool) top_n q row x :
  (0 ≤ top_n)%Z →
  table !! q = Some row → keep row →
  q ∉ (shortlist table keep top_n).*1 →
  x ∈ shortlist table keep top_n →
  (compatibility_score row <= compatibility_score x.2)%R.
Proof.
  intros Htop Hrow Hkeep Hout Hx. unfold shortlist, head_rows in Hout, Hx.
  rewrite (proj2 (Z.leb_le 0 top_n) Htop) in Hout, Hx.
  set (sorted := sort_values (compatibility_score ∘ snd) false
                   (filter (λ x : nat * Scored, keep x.2) (positioned table))) in *.
  assert (Hin : (q, row) ∈ sorted).
  { unfold sorted. rewrite sort_values_perm. apply list_elem_of_filter.
    split; [done|]. by apply positioned_elem. }
  rewrite <-(take_drop (Z.to_nat top_n) sorted) in Hin.
  apply elem_of_app in Hin as [Hin|Hin].
  { destruct Hout. by apply (list_elem_of_fmap_2 fst) in Hin. }
  assert (Hsorted : StronglySorted (ranked (compatibility_score ∘ snd) false by_position)
                      (take (Z.to_nat top_n) sorted ++ drop (Z.to_nat top_n) sorted)).
  { rewrite take_drop. apply sort_values_ranked.
    eapply StronglySorted_sublist; [apply sublist_filter|apply positioned_sorted]. }
  destruct (StronglySorted_app_1_elem_of _ _ _ _ _ Hsorted Hx Hin) as [Hgoes _].
  unfold goes_before in Hgoes. by apply bool_decide_unpack in Hgoes.
Qed.

(** Rows of score 0 all along are returned as they stand in the table. *)
Lemma sort_values_zero_scores (l : list Scored) :
  Forall (λ r, compatibility_score r = 0%R) l →
  sort_values compatibility_score false l = l.
Proof. apply sort_values_constant. Qed.

End RankingFacts.

Module EngineClaims.
Import Py PyFacts RecommendationEngine EngineFacts FilterFacts OrderFacts RankingFacts.

(** C5: with both bounds supplied, a posting passes the salary filter
    exactly when it passes the other filters and its band overlaps the
    requested one (salary_max >= filter minimum and salary_min <= filter
    maximum); with either bound absent the salary is not looked at.  A
    band (10, 20) passes (18, 25) and fails (25, 30). *)
Theorem salary_filter_is_band_overlap :
  (∀ df location experience_level lo hi row,
     row ∈ _apply_filters df location experience_level (Some lo) (Some hi) ↔
     row ∈ _apply_filters df location experience_level None None ∧
     ∃ a b, salary_min (job row) = Some a ∧ salary_max (job row) = Some b ∧
            (lo <= b)%Q ∧ (a <= hi)%Q) ∧
  (∀ df location experience_level hi,
     _apply_filters df location experience_level None hi
     = _apply_filters df location experience_level None None) ∧
  (∀ df location experience_level lo,
     _apply_filters df location experience_level lo None
     = _apply_filters df location experience_level None None) ∧
  _apply_filters [band_10_20] None None (Some 18%Q) (Some 25%Q) = [band_10_20] ∧
  _apply_filters [band_10_20] None None (Some 25%Q) (Some 30%Q) = [].
Proof.
  split_and!.
  - intros df location experience_level lo hi row.
    unfold _apply_filters. rewrite list_elem_of_filter.
    rewrite andb_True. unfold ge_float, le_float, job_salary_max, job_salary_min.
    split.
    + intros [[Hhi Hlo] Hin]. split; [done|].
      destruct (salary_max (job row)) as [b|]; [|done].
      destruct (salary_min (job row)) as [a|]; [|done].
      exists a, b. by rewrite <-!Qle_bool_true.
    + intros [Hin (a & b & -> & -> & Hlo & Hhi)]. by rewrite !Qle_bool_true.
  - intros. by destruct hi.
  - intros. by destruct lo.
  - reflexivity.
  - reflexivity.
Qed.

(** C6, as stated, fails: the job title is searched whether or not a
    skill matched, so both fragments can appear together. *)
Lemma title_is_searched_after_a_skill_match :
  _generate_match_explanation
    (posting 0 "Python Developer" "Pune" "Python, Sql" 10 20 1 3) ["Python"]
  = "Matching skills: Python | Title contains 'python'" ∧
  _generate_match_explanation
    (posting 0 "Python Developer" "Pune" "Python, Sql" 10 20 1 3) ["Python"]
  ≠ "Matching skills: Python".
Proof. split; [reflexivity|discriminate]. Qed.

(** C6, amended: the first fragment lists the first three user skills
    that occur, letter case ignored, in the posting's skills text; the
    second fragment, sought in every case, names the first user skill
    longer than 3 characters that occurs in the job title, in lower
    case; the fragments present are joined with " | ", and when there is
    none the explanation is "General profile match". *)
Theorem match_explanation_fragments job_row user_skills :
  let matching :=
    filter (λ skill, contains (lower skill) (lower (str (skills job_row))))
           user_skills in
  let keyword :=
    List.find (λ keyword, contains keyword (lower (str (job_title job_row))))
              (lower <$> filter (λ skill, (3 <? len skill)%nat) user_skills) in
  _generate_match_explanation job_row user_skills =
    match matching, keyword with
    | [], None => "General profile match"
    | [], Some keyword => "Title contains '" +:+ keyword +:+ "'"
    | _ :: _, None => "Matching skills: " +:+ join ", " (take 3 matching)
    | _ :: _, Some keyword =>
        ("Matching skills: " +:+ join ", " (take 3 matching))
        +:+ " | " +:+ ("Title contains '" +:+ keyword +:+ "'")
    end.
Proof.
  intros matching keyword. unfold _generate_match_explanation.
  fold matching. fold keyword.
  destruct matching as [|m ms], keyword as [k|]; reflexivity.
Qed.

(** The results are in descending order of score. *)
Definition sorted_by_score (recs : list Recommendation) : Prop :=
  StronglySorted (descending_by (compatibility_score ∘ result)) recs.

(** Results with equal scores appear in the order in which they stand in
    the corpus: every result is the row at some position of the corpus,
    no position is used twice, and of two results with the same score
    the one returned first has the smaller position. *)
Definition ties_keep_corpus_order (corpus : list Scored) (recs : list Recommendation)
    : Prop :=
  ∃ positions : list nat,
    NoDup positions ∧
    Forall2 (λ r p, corpus !! p = Some (result r)) recs positions ∧
    ∀ i j p q r1 r2,
      i < j → recs !! i = Some r1 → recs !! j = Some r2 →
      positions !! i = Some p → positions !! j = Some q →
      compatibility_score (result r1) = compatibility_score (result r2) →
      p < q.

Lemma Ok_inj {A} (a b : A) : Ok a = Ok b → a = b.
Proof. by intros [= ->]. Qed.

Lemma two_jobs_lookup : two_jobs_heap !! 0 = Some two_jobs.
Proof. apply lookup_singleton_eq. Qed.

Lemma eleven_jobs_lookup : eleven_jobs_heap !! 0 = Some eleven_jobs.
Proof. apply lookup_singleton_eq. Qed.

Lemma unlocated_jobs_lookup : unlocated_jobs_heap !! 0 = Some unlocated_jobs.
Proof. apply lookup_singleton_eq. Qed.

(** The index fitted on the combined texts of a table. *)
Definition sample_vectors (df : DataFrame) : TextVectorIndex.Index :=
  TextVectorIndex.build sample_stop_words sample_max_features
    (combined_texts (own_table df)).

Lemma two_jobs_built :
  __init__ (V:=sample_index) two_jobs_heap 0
  = Ok (built (V:=sample_index) two_jobs_heap two_jobs (sample_vectors two_jobs)).
Proof. apply __init___runs; [apply two_jobs_lookup|reflexivity]. Qed.

Lemma eleven_jobs_built :
  __init__ (V:=sample_index) eleven_jobs_heap 0
  = Ok (built (V:=sample_index) eleven_jobs_heap eleven_jobs
          (sample_vectors eleven_jobs)).
Proof. apply __init___runs; [apply eleven_jobs_lookup|reflexivity]. Qed.

Lemma unlocated_jobs_built :
  __init__ (V:=sample_index) unlocated_jobs_heap 0
  = Ok (built (V:=sample_index) unlocated_jobs_heap unlocated_jobs
          (sample_vectors unlocated_jobs)).
Proof. apply __init___runs; [apply unlocated_jobs_lookup|reflexivity]. Qed.

(** The returned list, read off the shortlist. *)
Lemma get_recommendations_shortlist `{V : Vectorizer} σ l self σ1 df user_skills
    location experience_level salary_min salary_max top_n recs :
  __init__ σ l = Ok (self, σ1) → σ !! l = Some df →
  get_recommendations σ1 self user_skills location experience_level
                      salary_min salary_max top_n = Ok recs →
  recs = (λ x, explained user_skills x.2) <$>
         shortlist (scored (own_table df) self user_skills)
                 (keeps location experience_level salary_min salary_max) top_n.
Proof.
  intros Hinit Hl Hrun.
  rewrite (get_recommendations_returned _ _ _ _ _ _ _ _ _ _ _ _ Hinit Hl Hrun).
  rewrite _apply_filters_keeps, <-shortlist_rows. by rewrite <-list_fmap_compose.
Qed.

Lemma shortlist_in_corpus_order (corpus : list Scored) (keep : Scored → bool) top_n
    user_skills :
  let recs := (λ x, explained user_skills x.2) <$> shortlist corpus keep top_n in
  sorted_by_score recs ∧ ties_keep_corpus_order corpus recs.
Proof.
  intros recs. unfold recs. split.
  - unfold sorted_by_score.
    eapply StronglySorted_fmap; [|apply shortlist_sorted].
    intros x y [Hxy _]. by apply (goes_before_spec _ false) in Hxy.
  - exists (shortlist corpus keep top_n).*1. split_and!.
    + apply shortlist_NoDup.
    + apply Forall2_fmap, Forall_Forall2_diag.
      eapply Forall_impl; [apply shortlist_lookup|]. by intros x [Hx _].
    + intros i j p q r1 r2 Hij Hi Hj Hp Hq Hscore.
      apply list_lookup_fmap_Some in Hi as (x1 & -> & Hx1).
      apply list_lookup_fmap_Some in Hj as (x2 & -> & Hx2).
      apply list_lookup_fmap_Some in Hp as (x1' & -> & Hx1').
      apply list_lookup_fmap_Some in Hq as (x2' & -> & Hx2').
      rewrite Hx1 in Hx1'. injection Hx1' as <-.
      rewrite Hx2 in Hx2'. injection Hx2' as <-.
      destruct (StronglySorted_lookup _ _ _ _ _ _ (shortlist_sorted corpus keep top_n)
                  Hij Hx1 Hx2) as [_ Hties].
      apply Hties. unfold goes_before. cbn [explained result] in Hscore.
      apply bool_decide_pack. simpl. rewrite Hscore. apply Rle_refl.
Qed.


Lemma filter_columns_known location experience_level salary_min salary_max c :
  c ∈ filter_columns location experience_level salary_min salary_max →
  c ∈ ["location"; "exp_min"; "exp_max"; "salary_max"; "salary_min"].
Proof.
  unfold filter_columns. rewrite !elem_of_app. intros [Hc|[Hc|Hc]].
  - destruct location as [wanted|]; [|by apply elem_of_nil in Hc].
    destruct (nonempty wanted && _); [|by apply elem_of_nil in Hc].
    apply list_elem_of_singleton in Hc as ->. repeat constructor.
  - destruct experience_level as [label|]; [|by apply elem_of_nil in Hc].
    destruct (nonempty label); [|by apply elem_of_nil in Hc].
    destruct (_extract_experience_years label); [|by apply elem_of_nil in Hc].
    repeat (apply elem_of_cons in Hc as [->|Hc]; [repeat constructor|]).
    by apply elem_of_nil in Hc.
  - destruct salary_min, salary_max; try (by apply elem_of_nil in Hc).
    repeat (apply elem_of_cons in Hc as [->|Hc]; [repeat constructor|]).
    by apply elem_of_nil in Hc.
Qed.

Lemma two_jobs_readable location experience_level salary_min salary_max :
  filters_readable two_jobs location experience_level salary_min salary_max.
Proof.
  split.
  - apply Forall_forall. intros c Hc%filter_columns_known.
    repeat (apply elem_of_cons in Hc as [->|Hc]; [done|]).
    by apply elem_of_nil in Hc.
  - intros _. left. by eexists.
Qed.


Lemma scored_no_skills stop_words max_features table
    (self : Engine (V:=text_vector_index stop_words max_features)) :
  n_samples (job_vectors self) = length (rows table) →
  scored table self [] = (λ r, mkScored r 0%R) <$> rows table.
Proof.
  intros Hn. unfold scored. simpl join.
  change (query_similarity (job_vectors self) "")
    with (TextVectorIndex.similarity stop_words (job_vectors self) "").
  rewrite IndexFacts.similarity_of_empty.
  change (length (TextVectorIndex.document_vectors (job_vectors self)))
    with (n_samples (job_vectors self)).
  by rewrite Hn, zip_with_replicate.
Qed.

Lemma no_skills_recommendations stop_words max_features σ l self σ1 df
    location experience_level salary_min salary_max top_n :
  __init__ (V:=text_vector_index stop_words max_features) σ l = Ok (self, σ1) →
  σ !! l = Some df →
  explained [] <$>
    head_rows top_n
      (sort_values compatibility_score false
         (_apply_filters (scored (own_table df) self [])
            location experience_level salary_min salary_max))
  = explained [] <$>
      head_rows top_n
        (_apply_filters ((λ r, mkScored r 0%R) <$> rows (own_table df))
           location experience_level salary_min salary_max).
Proof.
  intros Hinit Hl.
  destruct (read_own_table _ _ _ _ Hinit) as (df' & Hl' & _ & Hn).
  rewrite Hl in Hl'. injection Hl' as <-.
  rewrite scored_no_skills by (by rewrite own_table_length).
  rewrite sort_values_zero_scores; [done|].
  apply Forall_forall. intros row Hrow.
  apply _apply_filters_subseteq in Hrow.
  by apply list_elem_of_fmap in Hrow as (r0 & -> & _).
Qed.





(** C9: the engine works on its own copy of the table; whatever is
    written afterwards to objects that existed before the engine was
    constructed, the caller's table among them, the results of
    [get_recommendations] and [analyze_skill_gaps] are the same. *)
Theorem engine_keeps_its_own_copy `{V : Vectorizer} `{E : RegexEngine}
    σ l self σ1 writes user_skills location experience_level salary_min salary_max
    top_n target_role :
  __init__ σ l = Ok (self, σ1) →
  Forall (λ w, w.1 ∈ dom σ) writes →
  get_recommendations (overwrite σ1 writes) self user_skills location
                      experience_level salary_min salary_max top_n
  = get_recommendations σ1 self user_skills location
                        experience_level salary_min salary_max top_n ∧
  analyze_skill_gaps (overwrite σ1 writes) self user_skills target_role
  = analyze_skill_gaps σ1 self user_skills target_role.
Proof.
  intros Hinit Hwrites.
  pose proof (read_after_overwrite σ l self σ1 writes Hinit Hwrites) as Hread.
  unfold get_recommendations, analyze_skill_gaps. by rewrite Hread.
Qed.

Lemma engine_keeps_its_own_copy_witness :
  ∃ self σ1,
    __init__ (V:=sample_index) two_jobs_heap 0 = Ok (self, σ1) ∧
    Forall (λ w : loc * DataFrame, w.1 ∈ dom two_jobs_heap) [(0, eleven_jobs)] ∧
    get_recommendations (overwrite σ1 [(0, eleven_jobs)]) self
                        ["Python"] None None None None 10
    = get_recommendations σ1 self ["Python"] None None None None 10 ∧
    analyze_skill_gaps (E:=literal_engine) (overwrite σ1 [(0, eleven_jobs)]) self
                       ["Python"] "data scientist"
    = analyze_skill_gaps (E:=literal_engine) σ1 self ["Python"] "data scientist".
Proof.
  eexists _, _. split; [exact two_jobs_built|].
  assert (Hwrites : Forall (λ w : loc * DataFrame, w.1 ∈ dom two_jobs_heap)
                           [(0, eleven_jobs)]).
  { constructor; [|constructor]. cbn [fst]. unfold two_jobs_heap.
    rewrite dom_singleton_L. by apply elem_of_singleton. }
  split; [exact Hwrites|].
  exact (engine_keeps_its_own_copy (E:=literal_engine)
           _ _ _ _ [(0, eleven_jobs)] ["Python"] None None None None
           10 "data scientist" two_jobs_built Hwrites).
Defined.

(** C10: for a job_id that is at least the number of postings,
    [get_similar_jobs] returns an empty table, whatever top_n is. *)
Theorem get_similar_jobs_out_of_range `{V : Vectorizer} `{S : Sorter}
    σ l self σ1 df job_id top_n :
  __init__ σ l = Ok (self, σ1) →
  σ !! l = Some df →
  (Z.of_nat (length (rows df)) ≤ job_id)%Z →
  get_similar_jobs σ1 self job_id top_n = Ok [].
Proof.
  intros (df' & Hl' & Hread & _)%read_own_table Hl Hid.
  rewrite Hl in Hl'. injection Hl' as <-.
  unfold get_similar_jobs. rewrite Hread. unfold obind. simpl rows.
  rewrite length_fmap. by rewrite (proj2 (Z.leb_le _ _) Hid).
Qed.

Lemma get_similar_jobs_out_of_range_witness :
  ∃ self σ1,
    __init__ (V:=sample_index) two_jobs_heap 0 = Ok (self, σ1) ∧
    two_jobs_heap !! 0 = Some two_jobs ∧
    (Z.of_nat (length (rows two_jobs)) ≤ 2)%Z ∧
    get_similar_jobs (S:=stable_sorter) σ1 self 2 5 = Ok [].
Proof.
  eexists _, _. split; [exact two_jobs_built|].
  split; [exact two_jobs_lookup|].
  assert (Hid : (Z.of_nat (length (rows two_jobs)) ≤ 2)%Z) by (simpl; lia).
  split; [exact Hid|].
  exact (get_similar_jobs_out_of_range (S:=stable_sorter) _ _ _ _
           two_jobs 2 5 two_jobs_built two_jobs_lookup Hid).
Defined.

(** C7: the code departs from the claim.  The role is handed to
    [str.contains] as a pattern, which is compiled as a regular
    expression before any title is looked at; the role "(" occurs in no
    title of the table, and the call raises instead of reporting no
    role jobs. *)
Theorem unmatched_role_raises `{E : RegexEngine} user_skills :
  (∀ word, word ∈ "(" :: split (lower "(") → in_no_title (rows two_jobs) word) ∧
  ∃ self σ1,
    __init__ (V:=sample_index) two_jobs_heap 0 = Ok (self, σ1) ∧
    analyze_skill_gaps σ1 self user_skills "(" = Raise (ReError "(").
Proof.
  split.
  - intros word Hword r t Hr Ht.
    change (split (lower "(")) with ["("] in Hword.
    assert (word = "(") as ->.
    { repeat (apply elem_of_cons in Hword as [->|Hword]; [done|]).
      by apply elem_of_nil in Hword. }
    unfold two_jobs in Hr. cbn [rows] in Hr.
    repeat (apply elem_of_cons in Hr as [->|Hr]; [by injection Ht as <-|]).
    by apply elem_of_nil in Hr.
  - pose proof two_jobs_built as Hinit. unfold built in Hinit.
    eexists _, _. split; [exact Hinit|].
    destruct (read_own_table _ _ _ _ Hinit) as (df & Hl & Hread & _).
    rewrite two_jobs_lookup in Hl. injection Hl as <-.
    unfold analyze_skill_gaps. rewrite Hread. unfold obind at 1.
    rewrite (require_columns_present (own_table two_jobs) ["job_title"])
      by (by repeat constructor).
    unfold obind at 1.
    by rewrite (title_contains_raises _ "(" _ compile_open_group).
Qed.

End EngineClaims.

(** * Further properties of the recommendation engine *)

Module EngineExtras.
Import Py PyFacts RecommendationEngine EngineFacts FilterFacts OrderFacts RankingFacts
       EngineClaims.

Lemma startswith_refl s : startswith s s = true.
Proof.
  induction s as [|c s IH]; [done|]. simpl. by destruct (ascii_dec c c).
Qed.

Lemma contains_refl s : contains s s = true.
Proof. destruct s; simpl; [done|]. destruct (ascii_dec _ _); [|done]. by rewrite startswith_refl. Qed.

(** X1: [_skills_similar] does not depend on the order of its two
    arguments, and every skill is similar to itself. *)
Theorem _skills_similar_symmetric skill1 skill2 :
  _skills_similar skill1 skill2 = _skills_similar skill2 skill1 ∧
  _skills_similar skill1 skill1 = true.
Proof.
  unfold _skills_similar. split.
  - rewrite (orb_comm (len skill2 <? 3)%nat).
    destruct ((len skill1 <? 3)%nat || (len skill2 <? 3)%nat).
    + apply bool_decide_ext. split; congruence.
    + rewrite (orb_comm (contains skill2 skill1)).
      by rewrite <-Z.abs_opp, Z.opp_sub_distr, Z.add_comm, Z.add_opp_r.
  - rewrite orb_diag. destruct (len skill1 <? 3)%nat.
    + by apply bool_decide_eq_true.
    + by rewrite contains_refl.
Qed.

(** X2: a filter that is absent leaves the table as it is: no location,
    an empty one or "Any"; no experience label or one in which none of
    Entry, Mid, Senior, Expert occurs; a salary band with a missing
    bound. *)
Theorem absent_filters_keep_table df location experience_level salary_min salary_max :
  (location = None ∨ location = Some "" ∨ location = Some "Any") →
  (∀ label, experience_level = Some label → _extract_experience_years label = None) →
  (salary_min = None ∨ salary_max = None) →
  _apply_filters df location experience_level salary_min salary_max = df.
Proof.
  intros Hloc Hexp Hsal. rewrite _apply_filters_filter.
  rewrite <-(filter_all df) at 2. apply filter_ext_bool. intros r.
  assert (passes_location location r = true) as ->
    by (by destruct Hloc as [->|[->| ->]]).
  assert (passes_experience experience_level r = true) as ->.
  { unfold passes_experience. destruct experience_level as [label|]; [|done].
    rewrite (Hexp label eq_refl). by destruct (nonempty label). }
  unfold passes_salary. destruct Hsal as [->| ->]; [done|by destruct salary_min].
Qed.

Lemma absent_filters_keep_table_witness :
  _apply_filters [band_10_20] (Some "Any") (Some "Junior") None (Some 5%Q)
  = [band_10_20].
Proof.
  apply (absent_filters_keep_table [band_10_20] (Some "Any") (Some "Junior")
           None (Some 5%Q)).
  - right. by right.
  - by intros label [= <-].
  - by left.
Defined.

(** X3: a location filter other than "Any" keeps exactly the postings
    whose location contains "remote", letter case ignored, or, unless the
    requested location is "Remote", equals the requested one; postings
    without a location are dropped. *)
Theorem location_filter_keeps_remote df wanted row :
  wanted ≠ "" → wanted ≠ "Any" →
  row ∈ _apply_filters df (Some wanted) None None None ↔
  row ∈ df ∧ ∃ l, location (job row) = Some l ∧
                  (contains "remote" (lower l) = true ∨ l = wanted).
Proof.
  intros Hne Hany. rewrite _apply_filters_filter, list_elem_of_filter.
  unfold passes_location, passes_experience, passes_salary.
  rewrite !andb_true_r.
  assert (nonempty wanted && negb (bool_decide (wanted = "Any")) = true) as ->.
  { rewrite bool_decide_eq_false_2 by done. by destruct wanted. }
  unfold contains_remote, location_is, job_location.
  split.
  - intros [Hpass Hin]. split; [done|].
    destruct (location (job row)) as [l|] eqn:Hl.
    + exists l. split; [done|].
      destruct (bool_decide (wanted = "Remote")).
      * left. by apply Is_true_true.
      * apply orb_True in Hpass as [Heq|Hrem].
        -- right. apply bool_decide_unpack in Heq. congruence.
        -- left. by apply Is_true_true.
    + exfalso. destruct (bool_decide (wanted = "Remote")); [done|].
      apply orb_True in Hpass as [Heq|[]].
      by apply bool_decide_unpack in Heq.
  - intros [Hin (l & Hl & Hcase)]. split; [|done]. rewrite Hl.
    case_bool_decide as Hremote.
    + destruct Hcase as [Hrem| ->]; [by rewrite Hrem|by rewrite Hremote].
    + apply orb_True. destruct Hcase as [Hrem| ->].
      * right. by rewrite Hrem.
      * left. by apply bool_decide_pack.
Qed.

Lemma location_filter_keeps_remote_witness :
  "Pune" ≠ "" ∧ "Pune" ≠ "Any" ∧
  band_10_20 ∈ _apply_filters [band_10_20] (Some "Pune") None None None.
Proof.
  split; [done|]. split; [done|].
  apply (location_filter_keeps_remote [band_10_20] "Pune" band_10_20); [done..|].
  split; [by left|]. exists "Pune". split; [done|]. by right.
Defined.

Lemma extract_years_label label years :
  _extract_experience_years label = Some years →
  nonempty label = true ∧ years ∈ [1; 4; 8; 12]%Z.
Proof.
  unfold _extract_experience_years. destruct label as [|c label]; [done|].
  intros H. split; [done|].
  repeat case_match; simplify_eq; set_solver.
Qed.

(** X4: an experience label in which Entry, Mid, Senior or Expert occurs
    stands for 1, 4, 8 or 12 years, and the filter keeps exactly the
    postings whose range [exp_min, exp_max] contains that number; a
    posting with a missing bound is dropped. *)
Theorem experience_filter_contains_years df label years row :
  _extract_experience_years label = Some years →
  years ∈ [1; 4; 8; 12]%Z ∧
  (row ∈ _apply_filters df None (Some label) None None ↔
   row ∈ df ∧ ∃ lo hi, exp_min (job row) = Some lo ∧ exp_max (job row) = Some hi ∧
                       (lo ≤ years ≤ hi)%Z).
Proof.
  intros Hyears. destruct (extract_years_label _ _ Hyears) as [Hne Hin].
  split; [done|]. rewrite _apply_filters_filter, list_elem_of_filter.
  unfold passes_location, passes_experience, passes_salary.
  rewrite Hne, Hyears, andb_true_r. simpl. unfold le_cell, ge_cell.
  split.
  - intros [[Hlo Hhi]%andb_True Hrow]. split; [done|].
    destruct (exp_min (job row)) as [lo|]; [|done].
    destruct (exp_max (job row)) as [hi|]; [|done].
    exists lo, hi. apply Is_true_true, Z.leb_le in Hlo, Hhi. by repeat split.
  - intros [Hrow (lo & hi & -> & -> & Hlo & Hhi)]. split; [|done].
    apply andb_True. split; by apply Is_true_true, Z.leb_le.
Qed.

Lemma experience_filter_contains_years_witness :
  _extract_experience_years "Mid Level (3-5 years)" = Some 4%Z ∧
  mkScored (posting 0 "Data Engineer" "Pune" "Sql" 10 20 2 5) 0
    ∈ _apply_filters [mkScored (posting 0 "Data Engineer" "Pune" "Sql" 10 20 2 5) 0]
                     None (Some "Mid Level (3-5 years)") None None.
Proof.
  split; [reflexivity|].
  apply (experience_filter_contains_years
           [mkScored (posting 0 "Data Engineer" "Pune" "Sql" 10 20 2 5) 0]
           "Mid Level (3-5 years)" 4%Z
           (mkScored (posting 0 "Data Engineer" "Pune" "Sql" 10 20 2 5) 0) eq_refl).
  split; [by left|]. exists 2%Z, 5%Z. repeat split; simpl; lia.
Defined.

Lemma filters_twice df l1 e1 lo1 hi1 l2 e2 lo2 hi2 :
  _apply_filters (_apply_filters df l1 e1 lo1 hi1) l2 e2 lo2 hi2
  = filter (λ r, keeps l1 e1 lo1 hi1 r && keeps l2 e2 lo2 hi2 r) df.
Proof.
  rewrite !_apply_filters_filter.
  apply (filter_and (keeps l1 e1 lo1 hi1) (keeps l2 e2 lo2 hi2)).
Qed.

(** X5: the three filters act independently: filtering at once is
    filtering by location, then by experience, then by salary, or in the
    opposite order; filtering a second time changes nothing; and the
    postings kept stay in the order of the table. *)
Theorem filters_compose df location experience_level salary_min salary_max :
  _apply_filters df location experience_level salary_min salary_max
  = _apply_filters
      (_apply_filters (_apply_filters df location None None None)
                      None experience_level None None)
      None None salary_min salary_max ∧
  _apply_filters df location experience_level salary_min salary_max
  = _apply_filters
      (_apply_filters (_apply_filters df None None salary_min salary_max)
                      None experience_level None None)
      location None None None ∧
  _apply_filters
    (_apply_filters df location experience_level salary_min salary_max)
    location experience_level salary_min salary_max
  = _apply_filters df location experience_level salary_min salary_max ∧
  _apply_filters df location experience_level salary_min salary_max `sublist_of` df.
Proof.
  split_and!.
  - rewrite !filters_twice, !(_apply_filters_filter df).
    symmetry. etrans; [apply (filter_and (keeps location None None None))|].
    apply filter_ext_bool. intros r. unfold keeps. simpl.
    by destruct (passes_location location r), (passes_experience experience_level r),
      (passes_salary salary_min salary_max r).
  - rewrite !filters_twice, !(_apply_filters_filter df).
    symmetry. etrans; [apply (filter_and (keeps None None salary_min salary_max))|].
    apply filter_ext_bool. intros r. unfold keeps. simpl.
    by destruct (passes_location location r), (passes_experience experience_level r),
      (passes_salary salary_min salary_max r).
  - rewrite filters_twice, _apply_filters_filter.
    apply filter_ext_bool. intros r. unfold keeps.
    by destruct (passes_location location r), (passes_experience experience_level r),
      (passes_salary salary_min salary_max r).
  - rewrite _apply_filters_filter. apply sublist_filter.
Qed.

Lemma scored_lookup `{V : Vectorizer} df self user_skills p row :
  scored (own_table df) self user_skills !! p = Some row →
  ∃ posting score,
    rows df !! p = Some posting ∧
    query_similarity (job_vectors self) (join " " user_skills) !! p = Some score ∧
    row = mkScored (with_combined_text posting) score.
Proof.
  unfold scored, own_table. cbn [rows].
  intros (r & score & -> & Hr & Hscore)%lookup_zip_with_Some.
  apply list_lookup_fmap_Some in Hr as (posting & -> & Hposting).
  by exists posting, score.
Qed.

Lemma scored_length `{V : Vectorizer} table self user_skills :
  length (scored table self user_skills) ≤ length (rows table).
Proof. unfold scored. rewrite length_zip_with. lia. Qed.

(** X6: for a non-negative top_n, [get_recommendations] returns
    min(top_n, k) results, k being the number of postings that pass the
    filters, hence at most top_n and at most as many as there are
    postings; it returns no posting twice: the results are the postings
    at pairwise different positions of the table the engine was built
    from, each with its combined text and with the score the vectorizer
    gave that position, and each passes the requested filters; and they
    are the best: a posting that passes and is left out scores no more
    than any posting returned. *)
Theorem get_recommendations_within_top_n `{V : Vectorizer}
    σ l self σ1 df user_skills location
    experience_level salary_min salary_max top_n recs :
  __init__ σ l = Ok (self, σ1) → σ !! l = Some df → (0 ≤ top_n)%Z →
  get_recommendations σ1 self user_skills location experience_level
                      salary_min salary_max top_n = Ok recs →
  length recs
  = Nat.min (Z.to_nat top_n)
      (length (_apply_filters (scored (own_table df) self user_skills)
                 location experience_level salary_min salary_max)) ∧
  length recs ≤ Z.to_nat top_n ∧
  length recs ≤ length (rows df) ∧
  ∃ positions : list nat,
    NoDup positions ∧
    Forall2 (λ r p,
               ∃ posting score,
                 rows df !! p = Some posting ∧
                 query_similarity (job_vectors self) (join " " user_skills) !! p
                 = Some score ∧
                 result r = mkScored (with_combined_text posting) score ∧
                 _apply_filters [result r] location experience_level
                                salary_min salary_max = [result r])
            recs positions ∧
    ∀ q row r,
      q ∉ positions →
      scored (own_table df) self user_skills !! q = Some row →
      _apply_filters [row] location experience_level salary_min salary_max = [row] →
      r ∈ recs →
      (compatibility_score row <= compatibility_score (result r))%R.
Proof.
  intros Hinit Hl Htop Hrun.
  rewrite (get_recommendations_shortlist _ _ _ _ _ _ _ _ _ _ _ _ Hinit Hl Hrun).
  set (table := scored (own_table df) self user_skills).
  set (keep := keeps location experience_level salary_min salary_max).
  assert (Hlen : length ((λ x : nat * Scored, explained user_skills x.2)
                           <$> shortlist table keep top_n)
                 = Nat.min (Z.to_nat top_n)
                     (length (_apply_filters table location experience_level
                                salary_min salary_max))).
  { rewrite length_fmap, shortlist_length by done. by rewrite _apply_filters_keeps. }
  assert (Hkept : length (_apply_filters table location experience_level
                            salary_min salary_max) ≤ length (rows df)).
  { rewrite _apply_filters_keeps. etrans; [apply length_filter|].
    etrans; [apply scored_length|]. by rewrite own_table_length. }
  rewrite !Hlen.
  split_and!; [done|apply Nat.le_min_l|etrans; [apply Nat.le_min_r|done]|].
  exists (shortlist table keep top_n).*1. split; [apply shortlist_NoDup|]. split.
  - apply Forall2_fmap, Forall_Forall2_diag.
    eapply Forall_impl; [apply shortlist_lookup|].
    intros [p row] [Hrow Hkeep]. cbn [fst snd explained result] in *.
    apply scored_lookup in Hrow as (posting & score & Hposting & Hscore & ->).
    exists posting, score. split_and!; [done..|].
    rewrite _apply_filters_keeps. by rewrite filter_cons_True, filter_nil.
  - intros q row r Hout Hrow Hpass Hr.
    apply list_elem_of_fmap in Hr as (x & -> & Hx). cbn [explained result].
    apply (shortlist_best table keep top_n q row x Htop Hrow); [|done..].
    rewrite _apply_filters_keeps, filter_cons in Hpass.
    fold keep in Hpass. by destruct (keep row).
Qed.

Lemma get_recommendations_within_top_n_witness :
  ∃ self σ1 recs,
    __init__ (V:=sample_index) two_jobs_heap 0 = Ok (self, σ1) ∧
    two_jobs_heap !! 0 = Some two_jobs ∧ (0 ≤ 1)%Z ∧
    get_recommendations σ1 self ["Python"] None None None None 1 = Ok recs ∧
    length recs ≤ 1.
Proof.
  pose proof two_jobs_built as Hinit. unfold built in Hinit.
  pose proof (get_recommendations_returns _ _ _ _ two_jobs ["Python"] None None None
                None 1 Hinit two_jobs_lookup (two_jobs_readable _ _ _ _)) as Hrun.
  assert (Htop : (0 ≤ 1)%Z) by lia.
  destruct (get_recommendations_within_top_n _ _ _ _ two_jobs ["Python"]
              None None None None 1 _ Hinit two_jobs_lookup Htop Hrun)
    as (_ & Hlen & _).
  eexists _, _, _.
  exact (conj Hinit (conj two_jobs_lookup (conj Htop (conj Hrun Hlen)))).
Defined.

(** *** Similar jobs *)

Lemma slice_nonneg {A} (lo hi : Z) (l : list A) :
  (0 ≤ lo)%Z → (0 ≤ hi)%Z →
  slice lo hi l = drop (Z.to_nat lo) (take (Z.to_nat hi) l).
Proof.
  intros Hlo Hhi. unfold slice.
  rewrite (proj2 (Z.ltb_ge lo 0) Hlo), (proj2 (Z.ltb_ge hi 0) Hhi).
  destruct (decide (Z.to_nat hi ≤ length l)) as [Hle|Hgt].
  - rewrite (Z.min_l hi) by lia.
    destruct (decide (Z.to_nat lo ≤ length l)).
    + by rewrite (Z.min_l lo) by lia.
    + rewrite (Z.min_r lo), Nat2Z.id by lia.
      rewrite !drop_ge; [done|rewrite length_take; lia..].
  - rewrite (Z.min_r hi), Nat2Z.id by lia.
    rewrite !take_ge by lia.
    destruct (decide (Z.to_nat lo ≤ length l)).
    + by rewrite (Z.min_l lo) by lia.
    + rewrite (Z.min_r lo), Nat2Z.id by lia. rewrite !drop_ge; [done|lia..].
Qed.

Lemma slice_wraps {A} (i : Z) (l : list A) :
  (- Z.of_nat (length l) ≤ i ≤ -2)%Z →
  slice i (i + 1) l = slice (i + Z.of_nat (length l)) (i + Z.of_nat (length l) + 1) l.
Proof.
  intros Hi. rewrite (slice_nonneg (i + _) (i + _ + 1)) by lia. unfold slice.
  rewrite (proj2 (Z.ltb_lt i 0)), (proj2 (Z.ltb_lt (i + 1) 0)) by lia.
  f_equal; [|f_equal]; lia.
Qed.

Lemma slice_one (i : nat) (n : nat) :
  i < n → slice (Z.of_nat i) (Z.of_nat i + 1) (seq 0 n) = [i].
Proof.
  intros Hi. rewrite slice_nonneg by lia.
  replace (Z.to_nat (Z.of_nat i + 1)) with (S i) by lia. rewrite Nat2Z.id.
  rewrite (take_S_r _ _ i) by (by apply lookup_seq_lt).
  rewrite drop_app_length'; [done|]. rewrite length_take, length_seq. lia.
Qed.

Lemma iloc_in_range rows indices :
  Forall (λ i, i < length rows) indices →
  ∃ picked, iloc rows indices = Ok picked ∧
            length picked = length indices ∧ picked ⊆ rows.
Proof.
  induction 1 as [|i indices Hi _ (picked & Hrun & Hlen & Hsub)]; simpl.
  - exists []. split_and!; [done..|]. by intros ? ?%elem_of_nil.
  - destruct (lookup_lt_is_Some_2 rows i Hi) as [r Hr]. rewrite Hr, Hrun.
    exists (r :: picked). split_and!; [done|by simpl; rewrite Hlen|].
    intros x [->|Hx]%elem_of_cons; [by eapply list_elem_of_lookup_2|by apply Hsub].
Qed.

Lemma zip_similar_jobs (picked : list Row) (scores : list R) (P : Row → Prop) :
  Forall P picked →
  Forall (λ j, P (similar_job j)) (zip_with mkSimilarJob picked scores).
Proof.
  intros Hall. revert scores.
  induction Hall as [|r picked Hr _ IH]; intros [|q scores]; simpl; constructor; auto.
Qed.

(** X7: for a job_id within the table and a non-negative top_n,
    [get_similar_jobs] raises no error and returns min(top_n, n - 1)
    postings of the table, n being the number of postings. *)
Theorem get_similar_jobs_in_range `{V : Vectorizer} `{S : Sorter}
    σ l self σ1 df job_id top_n :
  __init__ σ l = Ok (self, σ1) → σ !! l = Some df →
  (0 ≤ job_id < Z.of_nat (length (rows df)))%Z → (0 ≤ top_n)%Z →
  ∃ similar,
    get_similar_jobs σ1 self job_id top_n = Ok similar ∧
    length similar = Nat.min (Z.to_nat top_n) (length (rows df) - 1) ∧
    Forall (λ j, ∃ posting, posting ∈ rows df ∧
                            similar_job j = with_combined_text posting) similar.
Proof.
  intros Hinit Hl Hid Htop.
  assert (∃ j, job_id = Z.of_nat j ∧ j < length (rows df)) as (j & -> & Hj)
    by (exists (Z.to_nat job_id); lia).
  destruct (read_own_table σ l self σ1 Hinit) as (df' & Hl' & Hread & Hn).
  rewrite Hl in Hl'. injection Hl' as <-.
  unfold get_similar_jobs. rewrite Hread. unfold obind at 1.
  rewrite own_table_length, (proj2 (Z.leb_gt _ _)) by lia.
  rewrite Hn, slice_one by lia.
  set (similarities := pairwise_similarity (job_vectors self) j).
  assert (Hsim : length similarities = length (rows df)).
  { unfold similarities. rewrite pairwise_similarity_length; lia. }
  set (similar_indices := slice 1 (top_n + 1) (reverse (argsort similarities))).
  assert (Hperm : reverse (argsort similarities) ≡ₚ seq 0 (length (rows df))).
  { by rewrite reverse_Permutation, argsort_perm, Hsim. }
  assert (Hlen : length similar_indices
                 = Nat.min (Z.to_nat top_n) (length (rows df) - 1)).
  { unfold similar_indices. rewrite slice_nonneg by lia.
    rewrite length_drop, length_take, Hperm, length_seq. lia. }
  assert (Hrange : Forall (λ i, i < length (rows (own_table df))) similar_indices).
  { apply Forall_forall. intros i Hi. unfold similar_indices in Hi.
    rewrite slice_nonneg in Hi by lia.
    apply (subseteq_drop _ _) in Hi. apply (subseteq_take _ _) in Hi. rewrite Hperm in Hi.
    apply elem_of_seq in Hi. rewrite own_table_length. lia. }
  destruct (iloc_in_range _ _ Hrange) as (picked & Hrun & Hpicked & Hsub).
  rewrite Hrun. unfold obind. eexists. split; [done|]. split.
  - rewrite length_zip_with, length_fmap, Hpicked, Hlen. lia.
  - apply (zip_similar_jobs picked _
             (λ r, ∃ posting, posting ∈ rows df ∧ r = with_combined_text posting)).
    apply Forall_forall. intros r Hr. apply Hsub in Hr.
    unfold own_table in Hr. cbn [rows] in Hr.
    apply list_elem_of_fmap in Hr as (posting & -> & Hposting). eauto.
Qed.

Lemma get_similar_jobs_in_range_witness :
  ∃ self σ1 similar,
    __init__ (V:=sample_index) two_jobs_heap 0 = Ok (self, σ1) ∧
    two_jobs_heap !! 0 = Some two_jobs ∧
    (0 ≤ 1 < Z.of_nat (length (rows two_jobs)))%Z ∧ (0 ≤ 5)%Z ∧
    get_similar_jobs (S:=stable_sorter) σ1 self 1 5 = Ok similar ∧
    length similar = 1.
Proof.
  assert (Hid : (0 ≤ 1 < Z.of_nat (length (rows two_jobs)))%Z) by (simpl; lia).
  destruct (get_similar_jobs_in_range (V:=sample_index) (S:=stable_sorter)
              _ _ _ _ two_jobs 1 5 two_jobs_built two_jobs_lookup Hid ltac:(lia))
    as (similar & Hrun & Hlen & _).
  eexists _, _, similar. split; [exact two_jobs_built|].
  split; [exact two_jobs_lookup|]. split; [exact Hid|]. split; [lia|].
  split; [exact Hrun|exact Hlen].
Defined.

(** X8: the guard of [get_similar_jobs] checks the upper bound only: a
    negative job_id from -n to -2, n being the number of postings, is
    read as the posting job_id + n, counted from the end of the table. *)
Theorem get_similar_jobs_negative_id `{V : Vectorizer} `{S : Sorter}
    σ l self σ1 df job_id top_n :
  __init__ σ l = Ok (self, σ1) → σ !! l = Some df →
  (- Z.of_nat (length (rows df)) ≤ job_id ≤ -2)%Z →
  get_similar_jobs σ1 self job_id top_n
  = get_similar_jobs σ1 self (job_id + Z.of_nat (length (rows df))) top_n.
Proof.
  intros Hinit Hl Hid.
  destruct (read_own_table σ l self σ1 Hinit) as (df' & Hl' & Hread & Hn).
  rewrite Hl in Hl'. injection Hl' as <-.
  unfold get_similar_jobs. rewrite Hread. unfold obind at 1 3.
  rewrite own_table_length, !(proj2 (Z.leb_gt _ _)) by lia.
  rewrite Hn.
  pose proof (slice_wraps job_id (seq 0 (length (rows df)))) as Hwrap.
  rewrite length_seq in Hwrap. by rewrite Hwrap.
Qed.

Lemma get_similar_jobs_negative_id_witness :
  ∃ self σ1,
    __init__ (V:=sample_index) two_jobs_heap 0 = Ok (self, σ1) ∧
    two_jobs_heap !! 0 = Some two_jobs ∧
    (- Z.of_nat (length (rows two_jobs)) ≤ -2 ≤ -2)%Z ∧
    get_similar_jobs (S:=stable_sorter) σ1 self (-2) 5
    = get_similar_jobs (S:=stable_sorter) σ1 self
        (-2 + Z.of_nat (length (rows two_jobs))) 5.
Proof.
  assert (Hid : (- Z.of_nat (length (rows two_jobs)) ≤ -2 ≤ -2)%Z) by (simpl; lia).
  eexists _, _. split; [exact two_jobs_built|]. split; [exact two_jobs_lookup|].
  split; [exact Hid|].
  exact (get_similar_jobs_negative_id (V:=sample_index) (S:=stable_sorter)
           _ _ _ _ two_jobs (-2) 5 two_jobs_built two_jobs_lookup Hid).
Defined.

(** X9: constructing the engine changes no object that existed before:
    the caller's table is as it was; the engine's table is a new object
    with the same postings in the same order, each with its combined
    text filled in, and one job vector per posting. *)
Theorem __init___leaves_caller_table `{V : Vectorizer} σ l self σ1 :
  __init__ σ l = Ok (self, σ1) →
  (∀ k, k ∈ dom σ → σ1 !! k = σ !! k) ∧
  (jobs_df self ∉ dom σ) ∧
  ∃ df table,
    σ !! l = Some df ∧ σ1 !! jobs_df self = Some table ∧
    rows table = with_combined_text <$> rows df ∧
    n_samples (job_vectors self) = length (rows df).
Proof.
  intros Hinit.
  apply __init___inv in Hinit as (df & Hl & Hself & -> & _ & Hn).
  split_and!.
  - intros k Hk. rewrite lookup_insert_ne; [done|].
    intros <-. by apply (is_fresh (dom σ)).
  - rewrite Hself. apply is_fresh.
  - exists df, (own_table df). rewrite Hself, lookup_insert_eq. by split_and!.
Qed.

Lemma __init___leaves_caller_table_witness :
  ∃ self σ1,
    __init__ (V:=sample_index) two_jobs_heap 0 = Ok (self, σ1) ∧
    σ1 !! 0 = Some two_jobs.
Proof.
  eexists _, _. split; [exact two_jobs_built|].
  destruct (__init___leaves_caller_table (V:=sample_index) _ _ _ _
              two_jobs_built) as (Hkeep & _).
  rewrite Hkeep; [exact two_jobs_lookup|].
  unfold two_jobs_heap. rewrite dom_singleton_L. by apply elem_of_singleton.
Defined.

(** X27: on a table with job_title and skills columns whose titles
    hold text, for a target role without regular-expression special
    characters, when neither the role nor any of its
    whitespace-separated keywords occurs in a job title, letter case
    ignored, [analyze_skill_gaps] raises no error and reports 0 role
    jobs, no existing and no missing skills and a match percentage of
    0. *)
Theorem analyze_skill_gaps_no_match `{V : Vectorizer} `{E : RegexEngine}
    σ l self σ1 df user_skills target_role :
  __init__ σ l = Ok (self, σ1) → σ !! l = Some df →
  has_column "job_title" df → has_column "skills" df → Exists with_title (rows df) →
  is_literal target_role →
  (∀ word, word ∈ target_role :: split (lower target_role) →
           in_no_title (rows df) word) →
  analyze_skill_gaps σ1 self user_skills target_role
  = Ok (mkReport target_role 0 [] [] 0%Q).
Proof.
  intros Hinit Hl Htitle Hskills _ Hlit Hnone.
  destruct (read_own_table _ _ _ _ Hinit) as (df' & Hl' & Hread & _).
  rewrite Hl in Hl'. injection Hl' as <-.
  unfold analyze_skill_gaps. rewrite Hread. unfold obind at 1.
  rewrite require_columns_present
    by (constructor; [by apply has_column_own_table|constructor]).
  unfold obind at 1.
  rewrite title_contains_no_match;
    [|done|apply in_no_title_own_table, Hnone; by left].
  unfold obind at 1. rewrite broader_search_no_match.
  - unfold obind at 1.
    rewrite require_columns_present
      by (constructor; [by apply has_column_own_table|constructor]).
    reflexivity.
  - pose proof (split_literal (lower target_role)) as Hwords.
    rewrite is_literal_lower in Hwords. specialize (Hwords Hlit).
    rewrite Forall_forall in Hwords. apply Forall_forall. intros word Hword.
    split; [by apply Hwords|].
    apply in_no_title_own_table, Hnone. by right.
Qed.

Lemma analyze_skill_gaps_no_match_witness :
  ∃ self σ1,
    __init__ (V:=sample_index) two_jobs_heap 0 = Ok (self, σ1) ∧
    two_jobs_heap !! 0 = Some two_jobs ∧
    has_column "job_title" two_jobs ∧ has_column "skills" two_jobs ∧
    Exists with_title (rows two_jobs) ∧
    is_literal "Nurse Practitioner" ∧
    analyze_skill_gaps (E:=literal_engine) σ1 self ["Python"] "Nurse Practitioner"
    = Ok (mkReport "Nurse Practitioner" 0 [] [] 0%Q).
Proof.
  assert (Htitled : Exists with_title (rows two_jobs)) by (left; by eexists).
  assert (Hnone : ∀ word,
            word ∈ "Nurse Practitioner" :: split (lower "Nurse Practitioner") →
            in_no_title (rows two_jobs) word).
  { intros word Hword r t Hr Ht.
    change (split (lower "Nurse Practitioner")) with ["nurse"; "practitioner"] in Hword.
    unfold two_jobs in Hr. cbn [rows] in Hr.
    repeat (apply elem_of_cons in Hr as [->|Hr];
            [injection Ht as <-;
             repeat (apply elem_of_cons in Hword as [->|Hword]; [reflexivity|]);
             by apply elem_of_nil in Hword|]).
    by apply elem_of_nil in Hr. }
  pose proof two_jobs_built as Hinit. unfold built in Hinit.
  eexists _, _.
  exact (conj Hinit (conj two_jobs_lookup (conj I (conj I (conj Htitled (conj I
           (analyze_skill_gaps_no_match (E:=literal_engine) _ _ _ _ two_jobs
              ["Python"] "Nurse Practitioner" Hinit two_jobs_lookup I I Htitled I
              Hnone))))))).
Defined.

End EngineExtras.

(** * Further properties: the skill listings *)

Module ListingFacts.
Import Py.

(** How often a skill is named in a list of skills. *)
Definition occurrences (skill : string) (l : list string) : nat :=
  length (filter (λ s, s = skill) l).

(** The skills named by the postings, in table order, as the three
    listings read them. *)
Definition named_skills (rows : list Row) : list string :=
  mjoin (stripped_skills <$> omap skills rows).

(** [counts.get(key)] *)
Fixpoint dict_get (counts : list (string * nat)) (key : string) : option nat :=
  match counts with
  | [] => None
  | (k, n) :: counts' => if bool_decide (k = key) then Some n else dict_get counts' key
  end.

Lemma occurrences_nil skill : occurrences skill [] = 0.
Proof. done. Qed.

Lemma occurrences_snoc skill l x :
  occurrences skill (l ++ [x]) =
  occurrences skill l + (if bool_decide (x = skill) then 1 else 0).
Proof.
  unfold occurrences. rewrite filter_app, length_app. f_equal.
  rewrite filter_cons, filter_nil.
  case_bool_decide; by destruct (decide _).
Qed.

Lemma occurrences_pos skill l : 0 < occurrences skill l ↔ skill ∈ l.
Proof.
  unfold occurrences. split.
  - intros Hpos. destruct (filter _ l) as [|x l'] eqn:Hf; [simpl in Hpos; lia|].
    assert (Hx : x ∈ filter (λ s, s = skill) l) by (rewrite Hf; left).
    apply list_elem_of_filter in Hx as [-> ?]. done.
  - intros Hin.
    assert (Hx : skill ∈ filter (λ s, s = skill) l) by by apply list_elem_of_filter.
    destruct (filter _ l); [by apply elem_of_nil in Hx|simpl; lia].
Qed.

Lemma dict_get_increment counts key k :
  dict_get (dict_increment counts key) k =
  if bool_decide (k = key) then Some (default 0 (dict_get counts key) + 1)
  else dict_get counts k.
Proof.
  induction counts as [|[k' n] counts IH]; simpl.
  - repeat case_bool_decide; congruence.
  - destruct (decide (k' = key)) as [->|Hk'].
    + rewrite bool_decide_true by done. simpl.
      repeat (case_bool_decide; simpl; subst); congruence.
    + rewrite (bool_decide_false (k' = key)) by done. simpl. rewrite IH.
      repeat (case_bool_decide; simpl; subst); congruence.
Qed.

Lemma dict_increment_keys counts key :
  (dict_increment counts key).*1 =
  if bool_decide (key ∈ counts.*1) then counts.*1 else counts.*1 ++ [key].
Proof.
  induction counts as [|[k n] counts IH]; [done|].
  cbn [dict_increment]. destruct (decide (k = key)) as [->|Hk].
  - rewrite (bool_decide_true (key = key)) by done. rewrite !fmap_cons. simpl.
    rewrite bool_decide_true; [done|left].
  - rewrite (bool_decide_false (k = key)) by done. rewrite !fmap_cons, IH. simpl.
    destruct (decide (key ∈ counts.*1)) as [Hin|Hin].
    + rewrite !bool_decide_true; [done|by right|done].
    + rewrite !bool_decide_false; [done| |done].
      intros [?|?]%elem_of_cons; congruence.
Qed.

Lemma dict_get_elem counts k n :
  NoDup counts.*1 → (k, n) ∈ counts ↔ dict_get counts k = Some n.
Proof.
  induction counts as [|[k' n'] counts IH]; intros Hnd.
  - split; [by intros ?%elem_of_nil|done].
  - rewrite fmap_cons in Hnd. apply NoDup_cons in Hnd as [Hk' Hnd].
    rewrite elem_of_cons, (IH Hnd). cbn [dict_get].
    destruct (decide (k' = k)) as [->|Hk].
    + rewrite bool_decide_true by done. split.
      * intros [Heq|Hget]; [by inversion Heq|].
        destruct Hk'. apply (IH Hnd) in Hget.
        by apply (list_elem_of_fmap_2 fst) in Hget.
      * intros [= ->]. by left.
    + rewrite bool_decide_false by done. split; [|by right].
      intros [Heq|?]; [inversion Heq; congruence|done].
Qed.

Lemma dict_get_keys counts k : k ∈ counts.*1 ↔ is_Some (dict_get counts k).
Proof.
  induction counts as [|[k' n'] counts IH].
  - split; [by intros ?%elem_of_nil|by intros [? ?]].
  - rewrite fmap_cons, elem_of_cons, IH. cbn [dict_get fst].
    destruct (decide (k' = k)) as [->|Hk].
    + rewrite bool_decide_true by done. split; [by eexists|by left].
    + rewrite bool_decide_false by done. split; [|by right].
      intros [?|?]; [congruence|done].
Qed.

(** The counting loop: every key once, with the number of times it was
    seen. *)
Lemma counted_get l k :
  dict_get (foldl dict_increment [] l) k =
  if bool_decide (k ∈ l) then Some (occurrences k l) else None.
Proof.
  induction l as [|x l IH] using rev_ind; [done|].
  rewrite foldl_app. cbn [foldl]. rewrite dict_get_increment, occurrences_snoc.
  destruct (decide (k = x)) as [->|Hk].
  - rewrite (bool_decide_true (x = x)) by done.
    rewrite (bool_decide_true (x ∈ l ++ [x])) by (apply elem_of_app; right; left).
    rewrite IH. destruct (decide (x ∈ l)) as [Hin|Hin].
    + by rewrite bool_decide_true by done.
    + rewrite bool_decide_false by done. simpl.
      destruct (occurrences x l) eqn:Hocc; [done|].
      destruct Hin. apply occurrences_pos. lia.
  - rewrite (bool_decide_false (k = x)), (bool_decide_false (x = k)) by done.
    rewrite Nat.add_0_r, IH.
    destruct (decide (k ∈ l)) as [Hin|Hin].
    + rewrite !bool_decide_true; [done|apply elem_of_app; by left|done].
    + rewrite !bool_decide_false; [done| |done].
      rewrite elem_of_app, list_elem_of_singleton. by intros [?|?].
Qed.

Lemma counted_nodup l : NoDup (foldl dict_increment [] l).*1.
Proof.
  induction l as [|x l IH] using rev_ind; simpl; [constructor|].
  rewrite foldl_app. simpl. rewrite dict_increment_keys.
  case_bool_decide as Hin; [done|].
  apply NoDup_app. split_and!; [done| |apply NoDup_singleton].
  intros y Hy ->%list_elem_of_singleton. done.
Qed.

Lemma counted_keys l k : k ∈ (foldl dict_increment [] l).*1 ↔ k ∈ l.
Proof.
  rewrite dict_get_keys, counted_get. case_bool_decide; [|split; [by intros [? ?]|done]].
  split; [done|by eexists].
Qed.

Lemma counted_elem l k n :
  (k, n) ∈ foldl dict_increment [] l ↔ k ∈ l ∧ n = occurrences k l.
Proof.
  rewrite dict_get_elem by apply counted_nodup. rewrite counted_get.
  destruct (decide (k ∈ l)) as [Hin|Hin].
  - rewrite bool_decide_true by done. split; [by intros [= <-]|by intros [_ ->]].
  - rewrite bool_decide_false by done. split; [done|by intros [? _]].
Qed.

(** [a] is named before [b] is: an [a] stands where no [b] has been
    read yet. *)
Definition named_before (a b : string) (l : list string) : Prop :=
  ∃ l1 l2, l = l1 ++ a :: l2 ∧ b ∉ l1.

(** The keys of the dict are in the order in which they were first
    seen. *)
Lemma counted_order l a b :
  [a; b] `sublist_of` (foldl dict_increment [] l).*1 → named_before a b l.
Proof.
  induction l as [|x l IH] using rev_ind.
  - intros Hsub. by apply sublist_nil_r in Hsub.
  - rewrite foldl_app. cbn [foldl]. rewrite dict_increment_keys.
    assert (Hold : [a; b] `sublist_of` (foldl dict_increment [] l).*1 →
                   named_before a b (l ++ [x])).
    { intros (l1 & l2 & -> & Hb)%IH. exists l1, (l2 ++ [x]).
      by rewrite <-app_assoc. }
    destruct (decide (x ∈ (foldl dict_increment [] l).*1)) as [Hin|Hin].
    { by rewrite bool_decide_true by done. }
    rewrite bool_decide_false by done.
    intros (k1 & k2 & Hk & Hk1 & Hk2)%sublist_app_r.
    apply sublist_cons_r in Hk2 as [Hk2|(k2' & -> & Hk2)].
    + apply sublist_nil_r in Hk2 as ->. rewrite app_nil_r in Hk. subst k1. auto.
    + apply sublist_nil_r in Hk2 as ->.
      destruct k1 as [|a' [|? [|? ?]]]; try done. injection Hk as <- <-.
      apply singleton_sublist_l in Hk1. apply (proj1 (counted_keys _ _)) in Hk1.
      apply list_elem_of_split in Hk1 as (l1 & l2 & ->).
      exists l1, (l2 ++ [b]). split; [by rewrite <-app_assoc|].
      intros Hb. apply Hin, (proj2 (counted_keys _ _)), elem_of_app. by left.
Qed.

(** *** [sorted(items, key=..., reverse=True)] *)

Definition by_decreasing {A} (key : A → nat) (x y : A) : Prop := key y ≤ key x.

Lemma insert_desc_perm {A} (key : A → nat) x l : insert_desc key x l ≡ₚ x :: l.
Proof.
  induction l as [|y l IH]; simpl; [done|].
  destruct (key y <=? key x); [done|]. rewrite IH. apply Permutation_swap.
Qed.

Lemma sorted_reverse_perm {A} (key : A → nat) l : sorted_reverse key l ≡ₚ l.
Proof.
  induction l as [|x l IH]; [done|].
  unfold sorted_reverse in *. cbn [foldr]. rewrite insert_desc_perm. by f_equiv.
Qed.

Lemma insert_desc_sorted {A} (key : A → nat) x l :
  StronglySorted (by_decreasing key) l →
  StronglySorted (by_decreasing key) (insert_desc key x l).
Proof.
  induction 1 as [|y l Hs IH Hy]; simpl.
  - repeat constructor.
  - destruct (key y <=? key x) eqn:Hle.
    + apply Nat.leb_le in Hle. constructor; [by constructor|].
      constructor; [done|]. eapply Forall_impl; [exact Hy|].
      unfold by_decreasing. intros z ?. simpl in *. lia.
    + apply Nat.leb_gt in Hle. constructor; [done|].
      rewrite insert_desc_perm. constructor; [|done].
      unfold by_decreasing. lia.
Qed.

Lemma sorted_reverse_sorted {A} (key : A → nat) l :
  StronglySorted (by_decreasing key) (sorted_reverse key l).
Proof.
  induction l as [|x l IH]; [constructor|].
  unfold sorted_reverse in *. cbn [foldr]. by apply insert_desc_sorted.
Qed.

(** The sort is stable: elements with the same key keep their order. *)
Lemma insert_desc_stable {A} (key : A → nat) x l k :
  filter (λ y, key y = k) (insert_desc key x l) = filter (λ y, key y = k) (x :: l).
Proof.
  induction l as [|y l IH]; simpl; [done|].
  destruct (key y <=? key x) eqn:Hle; [done|]. apply Nat.leb_gt in Hle.
  rewrite (filter_cons _ y), IH, !(filter_cons _ x), !(filter_cons _ y).
  destruct (decide (key y = k)), (decide (key x = k)); try done. lia.
Qed.

Lemma sorted_reverse_stable {A} (key : A → nat) l k :
  filter (λ y, key y = k) (sorted_reverse key l) = filter (λ y, key y = k) l.
Proof.
  induction l as [|x l IH]; [done|].
  unfold sorted_reverse in *. cbn [foldr].
  by rewrite insert_desc_stable, !(filter_cons _ x), IH.
Qed.

Lemma filter_sublist_mono {A} (P : A → Prop) `{∀ x, Decision (P x)} (l1 l2 : list A) :
  l1 `sublist_of` l2 → filter P l1 `sublist_of` filter P l2.
Proof.
  induction 1 as [|x l1 l2 _ IH|x l1 l2 _ IH]; [done| |];
    rewrite ?(filter_cons _ x); destruct (decide (P x));
    auto using sublist_skip, sublist_cons.
Qed.

Lemma lookup_pair_sublist {A} (l : list A) i j a b :
  i < j → l !! i = Some a → l !! j = Some b → [a; b] `sublist_of` l.
Proof.
  intros Hij Ha Hb.
  rewrite <-(take_drop_middle l i a Ha).
  apply sublist_inserts_l, sublist_skip, singleton_sublist_l.
  apply (list_elem_of_lookup_2 _ (j - S i)).
  rewrite lookup_drop. by replace (S i + (j - S i)) with j by lia.
Qed.

Lemma sorted_pair {A} (R : relation A) l x y :
  StronglySorted R l → [x; y] `sublist_of` l → R x y.
Proof.
  induction 1 as [|z l Hs IH Hz]; intros Hsub.
  - by apply sublist_nil_r in Hsub.
  - apply sublist_cons_r in Hsub as [Hsub|(l' & [= -> <-] & Hsub)]; [by apply IH|].
    apply singleton_sublist_l in Hsub. by eapply Forall_forall in Hz.
Qed.

(** *** The ranking

    The counted skills, most frequent first. *)
Definition ranking (l : list string) : list (string * nat) :=
  sorted_reverse snd (foldl dict_increment [] l).

Lemma ranking_elem l k c : (k, c) ∈ ranking l ↔ k ∈ l ∧ c = occurrences k l.
Proof. unfold ranking. rewrite sorted_reverse_perm. apply counted_elem. Qed.

Lemma ranking_nodup l : NoDup (ranking l).*1.
Proof. unfold ranking. rewrite sorted_reverse_perm. apply counted_nodup. Qed.

Lemma ranking_ties l a b c :
  [(a, c); (b, c)] `sublist_of` ranking l → named_before a b l.
Proof.
  intros Hsub. apply counted_order.
  apply (filter_sublist_mono (λ y, y.2 = c)) in Hsub.
  unfold ranking in Hsub. rewrite sorted_reverse_stable in Hsub.
  rewrite !filter_cons_True, filter_nil in Hsub by done.
  change [a; b] with ([(a, c); (b, c)].*1).
  apply fmap_sublist. etrans; [exact Hsub|]. apply sublist_filter.
Qed.

(** The first [n] entries of the ranking. *)
Lemma ranking_top l n :
  let top := (take n (ranking l)).*1 in
  length top ≤ n ∧
  NoDup top ∧
  (∀ s, s ∈ top → s ∈ l) ∧
  (∀ i j a b,
     i < j → top !! i = Some a → top !! j = Some b →
     occurrences b l ≤ occurrences a l ∧
     (occurrences a l = occurrences b l → named_before a b l)) ∧
  (∀ s, s ∈ l → s ∉ top →
     length top = n ∧ ∀ a, a ∈ top → occurrences s l ≤ occurrences a l).
Proof.
  intros top. unfold top. split_and!.
  - rewrite length_fmap, length_take. lia.
  - eapply sublist_NoDup; [apply ranking_nodup|]. apply fmap_sublist, sublist_take.
  - intros s (kc & -> & Hkc)%list_elem_of_fmap. destruct kc as [k c].
    apply subseteq_take in Hkc. by apply ranking_elem in Hkc as [? _].
  - intros i j a b Hij Ha Hb.
    rewrite list_lookup_fmap in Ha. apply fmap_Some in Ha as ([a' ca] & Ha & ->).
    rewrite list_lookup_fmap in Hb. apply fmap_Some in Hb as ([b' cb] & Hb & ->).
    assert (Hsub : [(a', ca); (b', cb)] `sublist_of` ranking l).
    { etrans; [by eapply lookup_pair_sublist|apply sublist_take]. }
    assert (Hca : (a', ca) ∈ ranking l).
    { eapply elem_of_sublist; [|exact Hsub]. left. }
    assert (Hcb : (b', cb) ∈ ranking l).
    { eapply elem_of_sublist; [|exact Hsub]. right; left. }
    apply ranking_elem in Hca as [_ ->]. apply ranking_elem in Hcb as [_ ->].
    cbn [fst]. split.
    + apply (sorted_pair (by_decreasing snd) _ _ _ (sorted_reverse_sorted snd _) Hsub).
    + intros Heq. rewrite Heq in Hsub. by eapply ranking_ties.
  - intros s Hs Hout.
    assert (Hrest : (s, occurrences s l) ∈ drop n (ranking l)).
    { assert (Hin : (s, occurrences s l) ∈ ranking l) by by apply ranking_elem.
      rewrite <-(take_drop n (ranking l)) in Hin.
      apply elem_of_app in Hin as [Hin|Hin]; [|done].
      destruct Hout. by apply (list_elem_of_fmap_2 fst) in Hin. }
    split.
    + rewrite length_fmap, length_take.
      destruct (decide (n ≤ length (ranking l))); [lia|].
      rewrite drop_ge in Hrest by lia. by apply elem_of_nil in Hrest.
    + intros a (kc & -> & Hkc)%list_elem_of_fmap. destruct kc as [k c].
      pose proof (sorted_reverse_sorted snd (foldl dict_increment [] l)) as Hsorted.
      fold (ranking l) in Hsorted. rewrite <-(take_drop n (ranking l)) in Hsorted.
      pose proof (StronglySorted_app_1_elem_of _ _ _ _ _ Hsorted Hkc Hrest) as Hle.
      apply subseteq_take in Hkc. apply ranking_elem in Hkc as [_ ->]. done.
Qed.

(** *** [sorted(strings)] *)

Definition string_lt (a b : string) : Prop := String.compare a b = Lt.

Lemma leb_trans s1 s2 s3 :
  String.leb s1 s2 = true → String.leb s2 s3 = true → String.leb s1 s3 = true.
Proof.
  unfold String.leb. intros H12 H23.
  destruct (String.compare s1 s2) eqn:H1; [| |done].
  { apply String.compare_eq_iff in H1 as ->. done. }
  destruct (String.compare s2 s3) eqn:H2; [| |done].
  { apply String.compare_eq_iff in H2 as ->. by rewrite H1. }
  apply OrderedTypeEx.String_as_OT.cmp_lt in H1, H2.
  pose proof (OrderedTypeEx.String_as_OT.lt_trans _ _ _ H1 H2) as H3.
  apply OrderedTypeEx.String_as_OT.cmp_lt in H3.
  unfold OrderedTypeEx.String_as_OT.cmp in H3. by rewrite H3.
Qed.

Lemma leb_ne_lt a b : String.leb a b = true → a ≠ b → string_lt a b.
Proof.
  unfold String.leb, string_lt. intros Hle Hne.
  destruct (String.compare a b) eqn:Hc; [|done..].
  by apply String.compare_eq_iff in Hc.
Qed.

Lemma insert_string_perm x l : insert_string x l ≡ₚ x :: l.
Proof.
  induction l as [|y l IH]; simpl; [done|].
  destruct (String.leb x y); [done|]. rewrite IH. apply Permutation_swap.
Qed.

Lemma sorted_strings_perm l : sorted_strings l ≡ₚ l.
Proof.
  induction l as [|x l IH]; [done|].
  unfold sorted_strings in *. cbn [foldr]. rewrite insert_string_perm. by f_equiv.
Qed.

Lemma insert_string_sorted x l :
  StronglySorted (λ a b, String.leb a b = true) l →
  StronglySorted (λ a b, String.leb a b = true) (insert_string x l).
Proof.
  induction 1 as [|y l Hs IH Hy]; simpl.
  - repeat constructor.
  - destruct (String.leb x y) eqn:Hle.
    + constructor; [by constructor|]. constructor; [done|].
      eapply Forall_impl; [exact Hy|]. intros z Hz. simpl in *.
      by eapply leb_trans.
    + constructor; [done|]. rewrite insert_string_perm. constructor; [|done].
      destruct (String.leb_total x y) as [Hxy|Hyx]; [congruence|done].
Qed.

Lemma sorted_strings_sorted l :
  StronglySorted (λ a b, String.leb a b = true) (sorted_strings l).
Proof.
  induction l as [|x l IH]; [constructor|].
  unfold sorted_strings in *. cbn [foldr]. by apply insert_string_sorted.
Qed.

Lemma sorted_strings_strict l :
  NoDup l → StronglySorted string_lt (sorted_strings l).
Proof.
  intros Hnd. rewrite <-sorted_strings_perm in Hnd.
  pose proof (sorted_strings_sorted l) as Hs.
  induction Hs as [|x l' Hs IH Hx]; [constructor|].
  apply NoDup_cons in Hnd as [Hx' Hnd]. constructor; [by apply IH|].
  rewrite Forall_forall in Hx. apply Forall_forall. intros y Hy.
  apply leb_ne_lt; [by apply Hx|]. by intros ->.
Qed.

(** *** The skills of a table *)

Lemma stripped_skills_stripped skills_str :
  Forall (λ s, strip s = s ∧ s ≠ "") (stripped_skills skills_str).
Proof.
  apply Forall_forall. intros s. unfold stripped_skills.
  intros [Hne (piece & -> & _)%list_elem_of_fmap]%list_elem_of_filter.
  split; [apply PyFacts.strip_idem|]. intros Heq. by rewrite Heq in Hne.
Qed.

Lemma named_skills_stripped rows :
  Forall (λ s, strip s = s ∧ s ≠ "") (named_skills rows).
Proof.
  apply Forall_forall. intros s. unfold named_skills.
  intros (l & Hs & Hl)%list_elem_of_join.
  apply list_elem_of_fmap in Hl as (skills_str & -> & _).
  pose proof (stripped_skills_stripped skills_str) as Hall.
  rewrite Forall_forall in Hall. by apply Hall.
Qed.

Lemma named_skills_own_table df :
  named_skills (rows (EngineFacts.own_table df)) = named_skills (rows df).
Proof.
  unfold named_skills, EngineFacts.own_table. cbn [rows]. do 2 f_equal.
  induction (rows df) as [|r rs IH]; [done|].
  rewrite fmap_cons. cbn [omap list_omap]. rewrite IH. by destruct r.
Qed.

End ListingFacts.

Module ListingExtras.
Import Py RecommendationEngine EngineFacts EngineClaims ListingFacts.
Import DataProcessorListings RecommendationEngineListings.

Lemma top_slice {A} (top_n : Z) (l : list A) :
  (0 ≤ top_n)%Z → slice 0 top_n l = take (Z.to_nat top_n) l.
Proof. intros Htop. by rewrite EngineExtras.slice_nonneg by lia. Qed.

Lemma _get_top_skills_run df top_n :
  has_column "skills" df → (0 ≤ top_n)%Z →
  _get_top_skills df top_n
  = Ok (take (Z.to_nat top_n) (ranking (named_skills (rows df)))).*1.
Proof.
  intros Hcol Htop. unfold _get_top_skills.
  destruct (has_column "skills" df); [|done]. cbn [negb].
  by rewrite top_slice.
Qed.

(** X10: on a table with a skills column and for top_n >= 0,
    [_get_top_skills] returns at most top_n skills, each once, all of
    them named by a posting; a skill listed earlier is named at least as
    often as one listed later, and of two skills named equally often the
    one that is named first in the table comes first; a skill that is
    left out is named no more often than any skill listed, and the list
    is then full. *)
Theorem _get_top_skills_ranked df top_n :
  has_column "skills" df → (0 ≤ top_n)%Z →
  let named := named_skills (rows df) in
  ∃ top,
    _get_top_skills df top_n = Ok top ∧
    length top ≤ Z.to_nat top_n ∧
    NoDup top ∧
    (∀ s, s ∈ top → s ∈ named) ∧
    (∀ i j a b,
       i < j → top !! i = Some a → top !! j = Some b →
       occurrences b named ≤ occurrences a named ∧
       (occurrences a named = occurrences b named → named_before a b named)) ∧
    (∀ s, s ∈ named → s ∉ top →
       length top = Z.to_nat top_n ∧
       ∀ a, a ∈ top → occurrences s named ≤ occurrences a named).
Proof.
  intros Hcol Htop named. eexists. split; [by apply _get_top_skills_run|].
  apply ranking_top.
Qed.

Lemma _get_top_skills_ranked_witness :
  ∃ top, _get_top_skills two_jobs 2 = Ok top ∧ length top ≤ 2 ∧ NoDup top.
Proof.
  destruct (_get_top_skills_ranked two_jobs 2) as (top & Hrun & Hlen & Hnd & _);
    [by vm_compute|lia|].
  exists top. exact (conj Hrun (conj Hlen Hnd)).
Defined.

(** X11: the trending skills of an engine built from a table with a
    skills column are the 20 most named skills as [_get_top_skills]
    ranks them on that table, each with the number of times it is named
    (at least once) and the trend "up"; the [days] argument has no
    effect. *)
Theorem get_trending_skills_top_20 `{V : Vectorizer} σ l self σ1 df :
  __init__ σ l = Ok (self, σ1) → σ !! l = Some df → has_column "skills" df →
  ∃ trending,
    (∀ days, get_trending_skills σ1 self days = Ok trending) ∧
    _get_top_skills df 20 = Ok (skill <$> trending) ∧
    Forall (λ t, count t = occurrences (skill t) (named_skills (rows df)) ∧
                 0 < count t ∧ trend t = "up") trending.
Proof.
  intros Hinit Hl Hcol.
  destruct (read_own_table _ _ _ _ Hinit) as (df' & Hl' & Hread & _).
  rewrite Hl in Hl'. injection Hl' as <-.
  set (top := take 20 (ranking (named_skills (rows df)))).
  exists ((λ item, mkTrending item.1 item.2 "up") <$> top). split_and!.
  - intros days. unfold get_trending_skills. rewrite Hread. cbn [obind].
    assert (Hcol' : has_column "skills" (own_table df)).
    { apply ProcessFacts.has_column_elem. unfold own_table. cbn [columns].
      apply ProcessFacts.elem_of_add_column. right.
      by apply ProcessFacts.has_column_elem. }
    destruct (has_column "skills" (own_table df)); [|done]. cbn [negb].
    rewrite top_slice by lia. unfold count_skills.
    fold (named_skills (rows (own_table df))). by rewrite named_skills_own_table.
  - rewrite _get_top_skills_run by (done || lia). f_equal.
    rewrite <-list_fmap_compose. by apply list_fmap_ext.
  - apply Forall_forall. intros t (item & -> & Hitem)%list_elem_of_fmap.
    destruct item as [k c]. apply subseteq_take in Hitem.
    apply ranking_elem in Hitem as [Hk ->]. cbn [skill count trend fst snd].
    split_and!; [done| |done]. by apply occurrences_pos.
Qed.

Lemma get_trending_skills_top_20_witness :
  ∃ self σ1 trending,
    __init__ (V:=sample_index) two_jobs_heap 0 = Ok (self, σ1) ∧
    get_trending_skills σ1 self 30 = Ok trending ∧
    _get_top_skills two_jobs 20 = Ok (skill <$> trending).
Proof.
  destruct (get_trending_skills_top_20 (V:=sample_index) _ _ _ _ two_jobs
              two_jobs_built two_jobs_lookup) as (trending & Hrun & Htop & _);
    [by vm_compute|].
  eexists _, _, trending. exact (conj two_jobs_built (conj (Hrun 30%Z) Htop)).
Defined.

(** X12: on a table with a skills column, [get_unique_skills] returns
    the skills named by the postings in strictly ascending order of code
    points, so each once; every one is stripped and non-empty; and they
    are the skills [_get_top_skills] lists when top_n is at least their
    number. *)
Theorem get_unique_skills_sorted df :
  has_column "skills" df →
  ∃ unique,
    get_unique_skills df = Ok unique ∧
    StronglySorted string_lt unique ∧
    (∀ s, s ∈ unique ↔ s ∈ named_skills (rows df)) ∧
    Forall (λ s, strip s = s ∧ s ≠ "") unique ∧
    (∀ top_n, (Z.of_nat (length unique) ≤ top_n)%Z →
       ∃ top, _get_top_skills df top_n = Ok top ∧ top ≡ₚ unique).
Proof.
  intros Hcol.
  assert (Htop_run : ∀ top_n, (0 ≤ top_n)%Z →
            _get_top_skills df top_n
            = Ok (take (Z.to_nat top_n) (ranking (named_skills (rows df)))).*1)
    by (intros; by apply _get_top_skills_run).
  unfold get_unique_skills.
  destruct (has_column "skills" df); [|done]. cbn [negb].
  fold (named_skills (rows df)).
  set (named := named_skills (rows df)).
  set (all_skills := list_to_set named : gset string).
  assert (Helem : ∀ s, s ∈ sorted_strings (elements all_skills) ↔ s ∈ named).
  { intros s. rewrite sorted_strings_perm, elem_of_elements.
    unfold all_skills. by rewrite elem_of_list_to_set. }
  assert (Hnd : NoDup (sorted_strings (elements all_skills))).
  { rewrite sorted_strings_perm. apply NoDup_elements. }
  eexists. split; [done|]. split_and!.
  - apply sorted_strings_strict, NoDup_elements.
  - done.
  - apply Forall_forall. intros s Hs%Helem.
    pose proof (named_skills_stripped (rows df)) as Hall.
    rewrite Forall_forall in Hall. by apply Hall.
  - intros top_n Htop.
    assert (Hperm : (ranking named).*1 ≡ₚ sorted_strings (elements all_skills)).
    { apply NoDup_Permutation; [apply ranking_nodup|done|].
      intros s. rewrite Helem. unfold ranking.
      rewrite sorted_reverse_perm. apply counted_keys. }
    eexists. split; [apply Htop_run; lia|].
    pose proof (Permutation_length Hperm) as Hlen. rewrite length_fmap in Hlen.
    unfold named in Hperm, Hlen. rewrite take_ge; [done|lia].
Qed.

Lemma get_unique_skills_sorted_witness :
  ∃ unique, get_unique_skills two_jobs = Ok unique ∧ StronglySorted string_lt unique.
Proof.
  destruct (get_unique_skills_sorted two_jobs) as (unique & Hrun & Hsorted & _);
    [by vm_compute|].
  exists unique. exact (conj Hrun Hsorted).
Defined.

End ListingExtras.

(** * Further properties: the normalizer *)

Module NormalizerFacts.
Import Py PyFacts CleanFacts ProcessFacts DataProcessor.

Lemma upper_lower c : upper_char (lower_char c) = upper_char c.
Proof. each_char c. Qed.
Lemma delimiter_lower c : is_skill_delimiter (lower_char c) = is_skill_delimiter c.
Proof. each_char c. Qed.
Lemma delimiter_upper c : is_skill_delimiter (upper_char c) = is_skill_delimiter c.
Proof. each_char c. Qed.

(** *** Letter case

    A change of letter case [f], applied to the raw text, is not seen by
    the cleaners. *)
Section letter_case.
Variable f : ascii → ascii.
Hypothesis f_space : ∀ c, isspace (f c) = isspace c.
Hypothesis f_blank : f " "%char = " "%char.
Hypothesis f_cased : ∀ c, iscased (f c) = iscased c.
Hypothesis f_lower : ∀ c, lower_char (f c) = lower_char c.
Hypothesis f_upper : ∀ c, upper_char (f c) = upper_char c.
Hypothesis f_delimiter : ∀ c, is_skill_delimiter (f c) = is_skill_delimiter c.

Lemma title_from_smap b s : title_from b (smap f s) = title_from b s.
Proof.
  revert b. induction s as [|c s IH]; intros b; [done|].
  cbn [smap]. rewrite !title_from_cons, f_cased, IH. f_equal.
  destruct b; simpl; [apply f_lower|apply f_upper].
Qed.

Lemma lower_smap s : lower (smap f s) = lower s.
Proof.
  induction s as [|c s IH]; [done|].
  unfold lower in *. cbn [smap]. by rewrite f_lower, IH.
Qed.

Lemma all_space_smap s : all_space (smap f s) = all_space s.
Proof.
  induction s as [|c s IH]; [done|].
  cbn [smap]. by rewrite !all_space_cons, f_space, IH.
Qed.

Lemma lstrip_smap s : lstrip (smap f s) = smap f (lstrip s).
Proof.
  induction s as [|c s IH]; [done|].
  cbn [smap]. rewrite !lstrip_cons, f_space, IH. by destruct (isspace c).
Qed.

Lemma rstrip_smap s : rstrip (smap f s) = smap f (rstrip s).
Proof.
  induction s as [|c s IH]; [done|].
  cbn [smap]. rewrite !rstrip_cons.
  change (String (f c) (smap f s)) with (smap f (String c s)).
  rewrite all_space_smap, IH. by destruct (all_space (String c s)).
Qed.

Lemma strip_smap s : strip (smap f s) = smap f (strip s).
Proof. unfold strip. by rewrite lstrip_smap, rstrip_smap. Qed.

Lemma sub_spaces_from_smap r s :
  sub_spaces_from r (smap f s) = smap f (sub_spaces_from r s).
Proof.
  revert r. induction s as [|c s IH]; intros r; [done|].
  cbn [smap]. rewrite !sub_spaces_from_cons, f_space, !IH.
  destruct (isspace c), r; cbn [smap]; by rewrite ?f_blank.
Qed.

Lemma split_at_smap s :
  split_at is_skill_delimiter (smap f s) = smap f <$> split_at is_skill_delimiter s.
Proof.
  induction s as [|c s IH]; [done|].
  cbn [smap split_at]. rewrite f_delimiter, IH.
  destruct (is_skill_delimiter c); [done|].
  by destruct (split_at is_skill_delimiter s).
Qed.

Lemma _clean_job_title_smap t :
  _clean_job_title (Some (smap f t)) = _clean_job_title (Some t).
Proof.
  unfold _clean_job_title, sub_spaces, title. f_equal.
  by rewrite strip_smap, sub_spaces_from_smap, title_from_smap.
Qed.

Lemma clean_token_smap piece : clean_token (smap f piece) = clean_token piece.
Proof. unfold clean_token, title. by rewrite strip_smap, title_from_smap. Qed.

Lemma _clean_skills_smap s :
  _clean_skills (Some (smap f s)) = _clean_skills (Some s).
Proof.
  change (_clean_skills (Some (smap f s)))
    with (Some (join ", " (cleaned_skills (smap f s)))).
  change (_clean_skills (Some s)) with (Some (join ", " (cleaned_skills s))).
  do 2 f_equal. unfold cleaned_skills. f_equal.
  rewrite split_at_smap, <-list_fmap_compose.
  apply list_fmap_ext. intros _ piece _. apply clean_token_smap.
Qed.

Lemma _clean_location_smap l :
  _clean_location (Some (smap f l)) = _clean_location (Some l).
Proof.
  unfold _clean_location. rewrite strip_smap, lower_smap.
  destruct (List.find _ location_mapping); [done|].
  unfold title. by rewrite title_from_smap.
Qed.

End letter_case.

(** *** Normal forms *)

Lemma clean_token_fixed t : clean_token t = t → title t = t ∧ strip t = t.
Proof.
  unfold clean_token. intros Ht. split.
  - rewrite <-Ht. by rewrite title_idem.
  - rewrite <-Ht. by rewrite strip_title, strip_idem.
Qed.

Lemma location_values_normal :
  Forall (λ kv, strip kv.2 = kv.2 ∧ title kv.2 = kv.2) location_mapping.
Proof. repeat constructor. Qed.

(** *** Splitting at commas *)

Fixpoint free_of (sep : ascii → bool) (s : string) : bool :=
  match s with
  | EmptyString => true
  | String c s' => negb (sep c) && free_of sep s'
  end.

Lemma split_at_free_prepend sep t s :
  free_of sep t →
  split_at sep (t +:+ s) =
  match split_at sep s with
  | piece :: pieces => (t +:+ piece) :: pieces
  | [] => []
  end.
Proof.
  induction t as [|c t IH].
  - intros _. rewrite append_empty_l.
    destruct (split_at sep s); by rewrite ?append_empty_l.
  - simpl free_of. intros [Hc Ht]%andb_True. apply negb_True_false in Hc.
    rewrite append_cons. simpl split_at. rewrite Hc, (IH Ht).
    pose proof (split_at_not_nil sep s).
    destruct (split_at sep s); by rewrite ?append_cons.
Qed.

Lemma split_at_free sep t : free_of sep t → split_at sep t = [t].
Proof.
  induction t as [|c t IH]; simpl; [done|].
  intros [Hc Ht]%andb_True. apply negb_True_false in Hc.
  by rewrite Hc, (IH Ht).
Qed.

Lemma split_at_free_join sep t ts :
  sep ","%char = true → sep " "%char = false →
  Forall (λ t, free_of sep t) (t :: ts) →
  split_at sep (join ", " (t :: ts)) = t :: (String " " <$> ts).
Proof.
  intros Hcomma Hblank. revert t. induction ts as [|t' ts IH]; intros t Hall.
  - inversion Hall; subst. by apply split_at_free.
  - inversion Hall as [|? ? Ht Hts]; subst.
    change (join ", " (t :: t' :: ts)) with (t +:+ ", " +:+ join ", " (t' :: ts)).
    rewrite (split_at_free_prepend _ _ _ Ht).
    change (", " +:+ join ", " (t' :: ts))
      with (String "," (String " " (join ", " (t' :: ts)))).
    cbn [split_at]. rewrite Hcomma, Hblank, (IH t' Hts).
    by rewrite append_empty_r.
Qed.

Lemma undelimited_free_of_comma t :
  undelimited t → free_of RecommendationEngine.is_comma t.
Proof.
  induction t as [|c t IH]; [done|]. simpl.
  intros [Hc Ht]%andb_True. apply andb_True. split; [|by apply IH].
  unfold is_skill_delimiter, RecommendationEngine.is_comma in *.
  by destruct (bool_decide (c = ","%char)).
Qed.

Lemma split_skills_join ts :
  Forall (λ t, undelimited t ∧ clean_token t = t ∧ 1 < len t) ts →
  RecommendationEngine.split_skills (join ", " ts) = ts.
Proof.
  intros Hts. unfold RecommendationEngine.split_skills.
  destruct ts as [|t ts]; [reflexivity|].
  rewrite split_at_free_join; [|done..|].
  2:{ eapply Forall_impl; [exact Hts|]. intros ? [? _].
      by apply undelimited_free_of_comma. }
  rewrite fmap_cons, <-list_fmap_compose.
  assert (Hmap : strip t :: ((strip ∘ String " ") <$> ts) = t :: ts).
  { inversion Hts as [|? ? (_ & Ht & _) Hts']; subst.
    rewrite (proj2 (clean_token_fixed _ Ht)). f_equal.
    clear -Hts'. induction Hts' as [|t' ts (_ & Ht' & _) _ IH]; [done|].
    rewrite fmap_cons. f_equal; [|apply IH].
    simpl. change (rstrip (lstrip t')) with (strip t').
    apply (clean_token_fixed _ Ht'). }
  rewrite Hmap. clear Hmap.
  induction Hts as [|t' ts' (_ & _ & Hlen) _ IH]; [done|].
  rewrite filter_cons_True; [by rewrite IH|].
  destruct t'; [simpl in Hlen; lia|done].
Qed.

(** *** [process_jobs] as one pass over the rows *)

(** Where the ranges of the row at position [i] come from: the text
    when the column is there, the draws otherwise. *)
Definition salary_range_at (d : Draws) (from_text : bool) (i : nat) (r : Row)
    : option Q * option Q :=
  if from_text then extract_salary_range (salary r)
  else (Some (uniform_3_15 d i), Some (uniform_3_15 d i * uniform_12_20 d i)%Q).

Definition exp_range_at (d : Draws) (from_text : bool) (i : nat) (r : Row)
    : option Z * option Z :=
  if from_text then extract_experience_range (experience r)
  else (Some (choice_exp_min d i), Some (choice_exp_min d i + choice_exp_span d i)%Z).

Definition normalize_row_at (d : Draws) (stamp : option Z) (salary_text exp_text : bool)
    (i : nat) (r : Row) : Row :=
  mkRow (idx r) (_clean_job_title (job_title r)) (company r)
        (_clean_location (location r)) (_clean_skills (skills r)) (description r)
        (salary r) (experience r)
        (salary_range_at d salary_text i r).1 (salary_range_at d salary_text i r).2
        (exp_range_at d exp_text i r).1 (exp_range_at d exp_text i r).2
        (Some (get_experience_level (exp_range_at d exp_text i r).1
                                    (exp_range_at d exp_text i r).2))
        (match stamp with Some now => Some now | None => posted_date r end)
        (combined_text r).

Definition is_nil {A} (l : list A) : bool :=
  match l with [] => true | _ => false end.

Lemma is_nil_fmap {A B} (g : A → B) l : is_nil (g <$> l) = is_nil l.
Proof. by destruct l. Qed.

Lemma is_nil_imap {A B} (g : nat → A → B) l : is_nil (imap g l) = is_nil l.
Proof. by destruct l. Qed.

Lemma _process_salary_run d df :
  _process_salary d df =
  if has_column "salary" df && is_nil (rows df)
  then Raise (ValueError "Columns must be same length as key")
  else Ok (mkFrame (add_column "salary_max" (add_column "salary_min" (columns df)))
             (imap (λ i r, set_salary_range
                             (salary_range_at d (has_column "salary" df) i r) r)
                   (rows df))).
Proof.
  unfold _process_salary, salary_range_at.
  destruct (has_column "salary" df); [|done].
  destruct (rows df) as [|r rs] eqn:Hrows; [done|]. cbn [andb is_nil].
  by rewrite <-imap_const.
Qed.

Lemma _process_experience_run d df :
  _process_experience d df =
  if has_column "experience" df && is_nil (rows df)
  then Raise (ValueError "Columns must be same length as key")
  else Ok (mkFrame
             (add_column "experience_level"
                (add_column "exp_max" (add_column "exp_min" (columns df))))
             (imap (λ i r,
                      let r := set_exp_range
                                 (exp_range_at d (has_column "experience" df) i r) r in
                      set_experience_level
                        (Some (get_experience_level (exp_min r) (exp_max r))) r)
                   (rows df))).
Proof.
  unfold _process_experience, exp_range_at.
  destruct (has_column "experience" df).
  - destruct (rows df) as [|r rs] eqn:Hrows; [done|].
    cbn [andb obind columns rows is_nil]. f_equal. f_equal.
    rewrite <-list_fmap_compose, <-imap_const. by apply imap_ext.
  - cbn [andb obind columns rows]. f_equal. f_equal.
    rewrite fmap_imap. by apply imap_ext.
Qed.

Lemma has_column_new c c' cols rs rs' :
  c ≠ c' →
  has_column c (mkFrame (add_column c' cols) rs) = has_column c (mkFrame cols rs').
Proof. intros Hc. by rewrite has_column_add, bool_decide_false by done. Qed.

Lemma process_jobs_run d now df :
  process_jobs d now df =
    if negb (has_column "job_title" df) then Raise (KeyError "job_title")
    else if (has_column "salary" df || has_column "experience" df) && is_nil (rows df)
    then Raise (ValueError "Columns must be same length as key")
    else if negb (has_column "skills" df) then Raise (KeyError "skills")
    else if negb (has_column "location" df) then Raise (KeyError "location")
    else Ok (mkFrame (normalized_columns (columns df))
               (imap (normalize_row_at d (stamp_for now df)
                        (has_column "salary" df) (has_column "experience" df))
                     (rows df))).
Proof.
  destruct df as [cols rs]. unfold process_jobs.
  destruct (has_column "job_title" _) eqn:Hjt; cbn [negb]; [|done].
  rewrite _process_salary_run. cbn [columns rows]. rewrite is_nil_fmap.
  rewrite (has_column_rows "salary" cols _ rs).
  destruct (has_column "salary" (mkFrame cols rs)) eqn:Hsal, (is_nil rs) eqn:Hnil;
    cbn [andb orb obind]; try done.
  all: rewrite _process_experience_run; cbn [columns rows].
  all: rewrite is_nil_imap, is_nil_fmap, Hnil.
  all: rewrite !(has_column_new "experience" _ _ _ rs) by done.
  all: destruct (has_column "experience" (mkFrame cols rs)) eqn:Hexp;
    cbn [andb orb obind]; try done.
  all: cbn [columns rows]; rewrite !(has_column_new "skills" _ _ _ rs) by done.
  all: destruct (has_column "skills" (mkFrame cols rs)) eqn:Hsk; cbn [negb]; [|done].
  all: rewrite !(has_column_new "location" _ _ _ rs) by done.
  all: destruct (has_column "location" (mkFrame cols rs)) eqn:Hloc; cbn [negb]; [|done].
  all: rewrite !(has_column_new "posted_date" _ _ _ rs) by done.
  all: unfold stamp_for, normalized_columns.
  all: destruct (has_column "posted_date" (mkFrame cols rs)) eqn:Hpd; cbn [negb].
  all: f_equal; f_equal.
  all: try (rewrite (add_column_present "posted_date");
            [done|rewrite !elem_of_add_column; do 5 right;
                  by apply bool_decide_eq_true in Hpd]).
  all: apply list_eq; intros i;
    repeat (rewrite list_lookup_fmap || rewrite list_lookup_imap);
    destruct (rs !! i) as [r|]; [|done]; cbn [fmap option_fmap option_map];
    f_equal; by destruct r.
Qed.

Lemma add_column_prefix c cols : cols `prefix_of` add_column c cols.
Proof.
  unfold add_column. case_bool_decide; [done|]. by apply prefix_app_r.
Qed.

Lemma normalized_columns_prefix cols : cols `prefix_of` normalized_columns cols.
Proof.
  unfold normalized_columns.
  repeat (etrans; [|apply add_column_prefix]). done.
Qed.

Lemma elem_of_normalized_columns c cols :
  c ∈ normalized_columns cols ↔
  c ∈ cols ∨ c ∈ ["salary_min"; "salary_max"; "exp_min"; "exp_max";
                  "experience_level"; "posted_date"].
Proof.
  unfold normalized_columns. rewrite !elem_of_add_column, !elem_of_cons, elem_of_nil.
  tauto.
Qed.

Lemma process_jobs_inv d now df df' :
  process_jobs d now df = Ok df' →
  has_column "job_title" df ∧ has_column "skills" df ∧ has_column "location" df ∧
  (has_column "salary" df || has_column "experience" df) && is_nil (rows df) = false ∧
  df' = mkFrame (normalized_columns (columns df))
          (imap (normalize_row_at d (stamp_for now df)
                   (has_column "salary" df) (has_column "experience" df))
                (rows df)).
Proof.
  rewrite process_jobs_run.
  destruct (has_column "job_title" df); cbn [negb]; [|done].
  destruct ((has_column "salary" df || has_column "experience" df) && is_nil (rows df));
    [done|].
  destruct (has_column "skills" df); cbn [negb]; [|done].
  destruct (has_column "location" df); cbn [negb]; [|done].
  by intros [= <-].
Qed.

Lemma _clean_job_title_present t : is_Some (_clean_job_title t).
Proof. destruct t; by eexists. Qed.

Lemma _clean_skills_present s : is_Some (_clean_skills s).
Proof. destruct s; by eexists. Qed.

Lemma _clean_location_present l : is_Some (_clean_location l).
Proof.
  destruct l as [l|]; [|by eexists]. unfold _clean_location.
  destruct (List.find _ location_mapping); by eexists.
Qed.

Lemma extract_salary_range_both s :
  is_Some (extract_salary_range s).1 ↔ is_Some (extract_salary_range s).2.
Proof.
  destruct s as [s|]; [|done]. unfold extract_salary_range.
  destruct (findall_decimals (lower s)) as [|n0 [|n1 ns]]; simpl; [done|..];
    split; by eexists.
Qed.

Lemma extract_experience_range_both e :
  is_Some (extract_experience_range e).1 ↔ is_Some (extract_experience_range e).2.
Proof.
  destruct e as [e|]; [|done]. unfold extract_experience_range.
  destruct (findall_digits (lower e)) as [|n0 [|n1 ns]]; simpl;
    split; by eexists.
Qed.

(** *** Experience levels *)

Lemma half_le (n k : Z) : Qle_bool (inject_Z n / 2) (inject_Z k) = (n <=? 2 * k)%Z.
Proof.
  unfold Qle_bool, Qdiv, Qmult, Qinv, inject_Z. simpl.
  change (Z.pos (1 * 2)) with 2%Z.
  destruct (Z.leb_spec (n * 1 * 1) (k * 2)), (Z.leb_spec n (2 * k)); lia.
Qed.

Lemma get_experience_level_band lo hi :
  get_experience_level (Some lo) (Some hi) =
  if (lo + hi <=? 4)%Z then "Entry Level (0-2 years)"
  else if (lo + hi <=? 10)%Z then "Mid Level (3-5 years)"
  else if (lo + hi <=? 20)%Z then "Senior Level (6-10 years)"
  else "Expert Level (10+ years)".
Proof.
  unfold get_experience_level.
  change 2%Q with (inject_Z 2) at 2. change 5%Q with (inject_Z 5).
  change 10%Q with (inject_Z 10). by rewrite !half_le.
Qed.

Lemma extract_experience_years_levels :
  RecommendationEngine._extract_experience_years "Entry Level (0-2 years)" = Some 1%Z ∧
  RecommendationEngine._extract_experience_years "Mid Level (3-5 years)" = Some 4%Z ∧
  RecommendationEngine._extract_experience_years "Senior Level (6-10 years)" = Some 8%Z ∧
  RecommendationEngine._extract_experience_years "Expert Level (10+ years)" = Some 12%Z.
Proof. by vm_compute. Qed.

(** The ranges that numpy documents for the four draws. *)
Definition draws_in_range (d : Draws) : Prop :=
  ∀ i, (3 <= uniform_3_15 d i)%Q ∧ (uniform_3_15 d i <= 15)%Q ∧
       (12 # 10 <= uniform_12_20 d i)%Q ∧ (uniform_12_20 d i <= 2)%Q ∧
       choice_exp_min d i ∈ [0; 1; 2; 3; 5; 8]%Z ∧
       choice_exp_span d i ∈ [2; 3; 4; 5]%Z.

End NormalizerFacts.

Module NormalizerExtras.
Import Py PyFacts CleanFacts ProcessFacts DataProcessor NormalizerFacts.
Import RecommendationEngine.

(** X13: on ASCII text, the three cleaners do not see the letter case
    of the raw text: a title, a skills text or a location gives the same
    cleaned value when it is written in lower case or in upper case. *)
Theorem cleaners_ignore_letter_case text :
  _clean_job_title (Some (lower text)) = _clean_job_title (Some text) ∧
  _clean_job_title (Some (upper text)) = _clean_job_title (Some text) ∧
  _clean_skills (Some (lower text)) = _clean_skills (Some text) ∧
  _clean_skills (Some (upper text)) = _clean_skills (Some text) ∧
  _clean_location (Some (lower text)) = _clean_location (Some text) ∧
  _clean_location (Some (upper text)) = _clean_location (Some text).
Proof.
  split_and!.
  - apply _clean_job_title_smap;
      auto using isspace_lower, iscased_lower, lower_lower, upper_lower.
  - apply _clean_job_title_smap;
      auto using isspace_upper, iscased_upper, lower_upper, upper_upper.
  - apply _clean_skills_smap;
      auto using isspace_lower, iscased_lower, lower_lower, upper_lower,
                 delimiter_lower.
  - apply _clean_skills_smap;
      auto using isspace_upper, iscased_upper, lower_upper, upper_upper,
                 delimiter_upper.
  - apply _clean_location_smap;
      auto using isspace_lower, iscased_lower, lower_lower, upper_lower.
  - apply _clean_location_smap;
      auto using isspace_upper, iscased_upper, lower_upper, upper_upper.
Qed.

(** X14: on ASCII text, a cleaned title and a cleaned location are
    never missing and are in normal form: without leading or trailing
    whitespace and title-cased; in a cleaned title every run of
    whitespace is one blank. *)
Theorem cleaned_title_location_normal t l :
  ∃ t' l',
    _clean_job_title t = Some t' ∧ _clean_location l = Some l' ∧
    strip t' = t' ∧ sub_spaces t' = t' ∧ title t' = t' ∧
    strip l' = l' ∧ title l' = l'.
Proof.
  assert (Ht : ∃ t', _clean_job_title t = Some t' ∧
                     strip t' = t' ∧ sub_spaces t' = t' ∧ title t' = t').
  { destruct t as [t|]; [|by eexists]. eexists. split; [done|]. split_and!.
    - by rewrite strip_title, strip_sub_spaces, strip_idem.
    - rewrite sub_spaces_title. unfold sub_spaces.
      by rewrite sub_spaces_from_idem.
    - apply title_idem. }
  assert (Hl : ∃ l', _clean_location l = Some l' ∧ strip l' = l' ∧ title l' = l').
  { destruct l as [l|]; [|by eexists].
    destruct (_clean_location_cases l) as [(kv & Hin & ->)|[_ ->]].
    - pose proof location_values_normal as Hall. rewrite Forall_forall in Hall.
      eexists. split; [done|]. by apply Hall.
    - eexists. split; [done|]. split.
      + by rewrite strip_title, strip_idem.
      + apply title_idem. }
  destruct Ht as (t' & ? & ? & ? & ?), Hl as (l' & ? & ? & ?).
  by exists t', l'.
Qed.

(** X15: on ASCII text, a cleaned skills text is the list of its skills
    joined with ", "; each skill is title-cased, stripped, longer than
    one character and free of the delimiters; and the engine, which
    splits the text at commas and strips the pieces, reads back exactly
    these skills. *)
Theorem cleaned_skills_round_trip s :
  ∃ skills,
    _clean_skills s = Some (join ", " skills) ∧
    Forall (λ skill, title skill = skill ∧ strip skill = skill ∧
                     1 < len skill ∧ undelimited skill) skills ∧
    RecommendationEngine.split_skills (join ", " skills) = skills ∧
    stripped_skills (join ", " skills) = skills.
Proof.
  destruct s as [s|].
  - exists (cleaned_skills s).
    pose proof (cleaned_skills_tokens s) as Htoks. split_and!.
    + done.
    + eapply Forall_impl; [exact Htoks|].
      intros t (? & [? ?]%clean_token_fixed & ?). done.
    + by apply split_skills_join.
    + by apply split_skills_join.
  - exists []. by split_and!.
Qed.

(** The numerals that are read from the experience texts, the first two
    of each, have at most 15 digits. *)
Definition experience_numerals_short (df : DataFrame) : Prop :=
  ∀ r e tok,
    r ∈ rows df → experience r = Some e →
    tok ∈ take 2 (findall_digits (lower e)) → len tok ≤ 15.

(** X16: on a table whose experience numerals have at most 15 digits
    (Python refuses to read a numeral of thousands of digits as an int,
    and to average bounds that no float holds), [process_jobs] succeeds
    exactly when the table has the columns job_title, skills and
    location and, if it has a salary or an experience column, at least
    one row. *)
Theorem process_jobs_succeeds_iff d now df :
  experience_numerals_short df →
  ((∃ df', process_jobs d now df = Ok df') ↔
   has_column "job_title" df ∧ has_column "skills" df ∧ has_column "location" df ∧
   (rows df = [] → ¬ has_column "salary" df ∧ ¬ has_column "experience" df)).
Proof.
  intros _. rewrite process_jobs_run. split.
  - intros [df' Hrun].
    destruct (has_column "job_title" df); cbn [negb] in Hrun; [|done].
    destruct (has_column "salary" df), (has_column "experience" df),
             (rows df) as [|r rs]; cbn [orb andb is_nil] in Hrun; try done.
    all: destruct (has_column "skills" df); cbn [negb] in Hrun; [|done].
    all: destruct (has_column "location" df); cbn [negb] in Hrun; [|done].
    all: split_and!; try done; intros _; split; by intros [].
  - intros (Hjt & Hsk & Hloc & Hrows).
    destruct (has_column "job_title" df); [|done].
    destruct (has_column "skills" df); [|done].
    destruct (has_column "location" df); [|done]. cbn [negb].
    destruct (rows df) as [|r rs] eqn:Hr.
    + destruct (Hrows eq_refl) as [Hsal Hexp].
      destruct (has_column "salary" df); [by destruct Hsal|].
      destruct (has_column "experience" df); [by destruct Hexp|].
      by eexists.
    + rewrite andb_false_r. by eexists.
Qed.

Lemma process_jobs_succeeds_iff_witness :
  experience_numerals_short sample_jobs ∧
  ∃ df', process_jobs draws_a 0 sample_jobs = Ok df'.
Proof.
  assert (Hshort : experience_numerals_short sample_jobs).
  { intros r e tok Hr He Htok. unfold sample_jobs in Hr. cbn [rows] in Hr.
    repeat (apply elem_of_cons in Hr as [->|Hr];
            [injection He as <-; vm_compute in Htok;
             repeat (apply elem_of_cons in Htok as [->|Htok]; [simpl; lia|]);
             by apply elem_of_nil in Htok|]).
    by apply elem_of_nil in Hr. }
  split; [exact Hshort|].
  apply (process_jobs_succeeds_iff draws_a 0 sample_jobs Hshort).
  split_and!; [done..|]. intros Hrows. discriminate Hrows.
Defined.

(** X17: when [process_jobs] succeeds, the table has the same rows in
    the same order; the columns it had keep their places and the new
    ones are among the six the normalizer adds; in every row the index
    label and the company, description, salary and experience cells are
    untouched, the title, skills and location cells hold the cleaned
    values and are never missing, each range has both bounds or neither,
    the level is the one of the row's own range, and the posting date is
    kept when the column was there and is the time of the run
    otherwise. *)
Theorem process_jobs_shape d now df df' :
  process_jobs d now df = Ok df' →
  length (rows df') = length (rows df) ∧
  columns df `prefix_of` columns df' ∧
  (∀ c, c ∈ columns df' ↔
        c ∈ columns df ∨ c ∈ ["salary_min"; "salary_max"; "exp_min"; "exp_max";
                               "experience_level"; "posted_date"]) ∧
  ∀ i r, rows df !! i = Some r →
    ∃ r', rows df' !! i = Some r' ∧
      idx r' = idx r ∧ company r' = company r ∧ description r' = description r ∧
      salary r' = salary r ∧ experience r' = experience r ∧
      job_title r' = _clean_job_title (job_title r) ∧ is_Some (job_title r') ∧
      skills r' = _clean_skills (skills r) ∧ is_Some (skills r') ∧
      location r' = _clean_location (location r) ∧ is_Some (location r') ∧
      (is_Some (salary_min r') ↔ is_Some (salary_max r')) ∧
      (is_Some (exp_min r') ↔ is_Some (exp_max r')) ∧
      experience_level r' = Some (get_experience_level (exp_min r') (exp_max r')) ∧
      posted_date r' = (if has_column "posted_date" df then posted_date r
                        else Some now).
Proof.
  intros (_ & _ & _ & _ & ->)%process_jobs_inv. cbn [rows columns]. split_and!.
  - apply length_imap.
  - apply normalized_columns_prefix.
  - intros c. apply elem_of_normalized_columns.
  - intros i r Hr. eexists. split; [by rewrite list_lookup_imap, Hr|].
    cbn [normalize_row_at idx company description salary experience job_title
         skills location salary_min salary_max exp_min exp_max experience_level
         posted_date].
    split_and!; try done.
    + apply _clean_job_title_present.
    + apply _clean_skills_present.
    + apply _clean_location_present.
    + unfold salary_range_at. destruct (has_column "salary" df).
      * apply extract_salary_range_both.
      * split; by eexists.
    + unfold exp_range_at. destruct (has_column "experience" df).
      * apply extract_experience_range_both.
      * split; by eexists.
    + unfold stamp_for. by destruct (has_column "posted_date" df).
Qed.

Lemma process_jobs_shape_witness :
  ∃ df', process_jobs draws_a 0 sample_jobs = Ok df' ∧
         length (rows df') = 3 ∧ columns sample_jobs `prefix_of` columns df'.
Proof.
  destruct (process_jobs draws_a 0 sample_jobs) as [df'|] eqn:Hrun;
    [|by vm_compute in Hrun].
  exists df'. split; [done|].
  destruct (process_jobs_shape draws_a 0 sample_jobs df' Hrun) as (Hlen & Hcols & _).
  exact (conj Hlen Hcols).
Defined.

(** X18: without a salary column, and with draws in the ranges numpy
    documents, every row gets a salary_min between 3 and 15 and a
    salary_max between 1.2 and 2 times salary_min; without an experience
    column every row gets an exp_min among 0, 1, 2, 3, 5, 8 and an
    exp_max that is 2 to 5 years more. *)
Theorem process_jobs_drawn_ranges d now df df' :
  draws_in_range d →
  process_jobs d now df = Ok df' →
  (¬ has_column "salary" df →
   Forall (λ r', ∃ lo hi,
              salary_min r' = Some lo ∧ salary_max r' = Some hi ∧
              (3 <= lo)%Q ∧ (lo <= 15)%Q ∧
              (lo * (12 # 10) <= hi)%Q ∧ (hi <= lo * 2)%Q) (rows df')) ∧
  (¬ has_column "experience" df →
   Forall (λ r', ∃ lo hi,
              exp_min r' = Some lo ∧ exp_max r' = Some hi ∧
              lo ∈ [0; 1; 2; 3; 5; 8]%Z ∧ (lo + 2 ≤ hi ≤ lo + 5)%Z) (rows df')).
Proof.
  intros Hdraws (_ & _ & _ & _ & ->)%process_jobs_inv. cbn [rows]. split.
  - intros Hsal. apply Forall_forall. intros r' Hr'.
    apply list_elem_of_lookup in Hr' as [i Hr'].
    rewrite list_lookup_imap in Hr'. apply fmap_Some in Hr' as (r & _ & ->).
    destruct (Hdraws i) as (Hlo3 & Hlo15 & Hm12 & Hm2 & _).
    destruct (has_column "salary" df); [by destruct Hsal|].
    cbn [normalize_row_at salary_min salary_max salary_range_at fst snd].
    eexists _, _. split_and!; [done..| |].
    + apply Qmult_le_l; [|done]. eapply Qlt_le_trans; [|exact Hlo3]. done.
    + apply Qmult_le_l; [|done]. eapply Qlt_le_trans; [|exact Hlo3]. done.
  - intros Hexp. apply Forall_forall. intros r' Hr'.
    apply list_elem_of_lookup in Hr' as [i Hr'].
    rewrite list_lookup_imap in Hr'. apply fmap_Some in Hr' as (r & _ & ->).
    destruct (Hdraws i) as (_ & _ & _ & _ & Hmin & Hspan).
    destruct (has_column "experience" df); [by destruct Hexp|].
    cbn [normalize_row_at exp_min exp_max exp_range_at fst snd].
    rewrite !elem_of_cons, elem_of_nil in Hspan.
    eexists _, _. split_and!; try done; lia.
Qed.

Lemma process_jobs_drawn_ranges_witness :
  draws_in_range draws_a ∧
  ∃ df', process_jobs draws_a 0 unpaid_jobs = Ok df' ∧
         Forall (λ r', ∃ lo hi,
                    salary_min r' = Some lo ∧ salary_max r' = Some hi ∧
                    (3 <= lo)%Q ∧ (lo <= 15)%Q ∧
                    (lo * (12 # 10) <= hi)%Q ∧ (hi <= lo * 2)%Q) (rows df').
Proof.
  assert (Hdraws : draws_in_range draws_a).
  { intros i. cbn. split_and!; try (unfold Qle; simpl; lia).
    - rewrite !elem_of_cons. auto.
    - rewrite !elem_of_cons. auto. }
  split; [exact Hdraws|].
  destruct (process_jobs draws_a 0 unpaid_jobs) as [df'|] eqn:Hrun;
    [|by vm_compute in Hrun].
  exists df'. split; [done|].
  destruct (process_jobs_drawn_ranges draws_a 0 unpaid_jobs df' Hdraws Hrun)
    as [Hsal _].
  apply Hsal. by vm_compute.
Defined.

(** X19: the engine recognises every label the normalizer writes: the
    years it reads from the level of a range [lo, hi] are 1 when
    lo + hi <= 4, 4 when lo + hi <= 10, 8 when lo + hi <= 20 and 12
    beyond; a range with a missing bound counts as entry level. *)
Theorem experience_level_years exp_min exp_max :
  RecommendationEngine._extract_experience_years
    (get_experience_level exp_min exp_max)
  = Some (match exp_min, exp_max with
          | Some lo, Some hi =>
              if (lo + hi <=? 4)%Z then 1
              else if (lo + hi <=? 10)%Z then 4
              else if (lo + hi <=? 20)%Z then 8
              else 12
          | _, _ => 1
          end)%Z.
Proof.
  destruct extract_experience_years_levels as (H1 & H4 & H8 & H12).
  destruct exp_min as [lo|], exp_max as [hi|]; try exact H1.
  rewrite get_experience_level_band.
  by destruct (lo + hi <=? 4)%Z, (lo + hi <=? 10)%Z, (lo + hi <=? 20)%Z.
Qed.

(** X20: a posting whose experience text holds one number v gets the
    range [v, v + 2]; the experience filter, asked for the posting's own
    level, keeps it exactly when v is 0 to 4, 6 to 8 or 10 to 12: a
    posting for 5 or 9 years is labelled senior and one for 13 years or
    more expert, yet the 8 and 12 years these levels stand for lie
    outside its range. *)
Theorem single_number_own_level df e tok row :
  findall_digits (lower e) = [tok] →
  (exp_min (job row), exp_max (job row)) = extract_experience_range (Some e) →
  row ∈ df →
  row ∈ RecommendationEngine._apply_filters df None
          (Some (get_experience_level (exp_min (job row)) (exp_max (job row))))
          None None
  ↔ int tok ∈ [0; 1; 2; 3; 4; 6; 7; 8; 10; 11; 12]%Z.
Proof.
  intros Htok Hrange Hrow. unfold extract_experience_range in Hrange.
  rewrite Htok in Hrange. injection Hrange as Hlo Hhi.
  pose proof (digits_value_nonneg 0 tok ltac:(lia)) as Hv. fold (int tok) in Hv.
  set (v := int tok) in *.
  rewrite FilterFacts._apply_filters_filter, list_elem_of_filter.
  unfold FilterFacts.passes_location, FilterFacts.passes_salary,
    FilterFacts.passes_experience.
  rewrite Hlo, Hhi, get_experience_level_band.
  destruct extract_experience_years_levels as (H1 & H4 & H8 & H12).
  rewrite !elem_of_cons, elem_of_nil.
  destruct (Z.leb_spec (v + (v + 2)) 4); [|destruct (Z.leb_spec (v + (v + 2)) 10);
    [|destruct (Z.leb_spec (v + (v + 2)) 20)]].
  all: cbn [nonempty]; rewrite ?H1, ?H4, ?H8, ?H12.
  all: unfold RecommendationEngine.le_cell, RecommendationEngine.ge_cell.
  all: rewrite andb_true_r, andb_true_l, andb_True, !Is_true_true, !Z.leb_le.
  all: split; [intros [? _]; lia|intros ?; split; [lia|done]].
Qed.

Lemma single_number_own_level_witness :
  let row := mkScored (posting 0 "Data Engineer" "Pune" "Sql" 10 20 5 7) 0 in
  findall_digits (lower "5 years") = ["5"] ∧
  row ∉ RecommendationEngine._apply_filters [row] None
          (Some (get_experience_level (exp_min (job row)) (exp_max (job row))))
          None None.
Proof.
  intros row. split; [done|]. intros Hin.
  pose proof (proj1 (single_number_own_level [row] "5 years" "5" row
                       eq_refl eq_refl ltac:(left)) Hin) as Hv.
  rewrite !elem_of_cons, elem_of_nil in Hv. vm_compute in Hv.
  by repeat destruct Hv as [Hv|Hv].
Defined.

End NormalizerExtras.

(** * Further properties: the skill gap analysis *)

Module GapFacts.
Import Py PyFacts RecommendationEngine EngineFacts ListingFacts.

(** Whether the title of a posting contains the word, letter case
    ignored; a posting without a title does not. *)
Definition title_has (word : string) (row : Row) : bool :=
  match job_title row with
  | Some t => contains (lower word) (lower t)
  | None => false
  end.

Definition titled (jobs : list Row) (word : string) : list Row :=
  filter (λ row, title_has word row) jobs.

(** The postings of the first keyword that occurs in a title. *)
Fixpoint first_titled (jobs : list Row) (keywords : list string) : list Row :=
  match keywords with
  | [] => []
  | keyword :: keywords =>
      match titled jobs keyword with
      | [] => first_titled jobs keywords
      | found => found
      end
  end.

(** The postings [analyze_skill_gaps] reads for a role. *)
Definition role_jobs_of (jobs : list Row) (target_role : string) : list Row :=
  match titled jobs target_role with
  | [] => first_titled jobs (split (lower target_role))
  | found => found
  end.

(** The skills of the role's postings, lower-cased, with repeats. *)
Definition lowered_skills (role_jobs : list Row) : list string :=
  mjoin ((λ skills_str, lower <$> split_skills skills_str) <$> role_skills role_jobs).

(** Whether one of the user's skills covers the required one. *)
Definition held_by (user_skills : list string) (req_skill : string) : bool :=
  existsb (λ user_skill,
             contains user_skill req_skill || contains req_skill user_skill
             || _skills_similar user_skill req_skill)
          (lower <$> user_skills).

(** The report drawn up from the role's postings. *)
Definition gap_report (target_role : string) (user_skills : list string)
    (role_jobs : list Row) : SkillGapReport :=
  let required_skills : gset string := list_to_set (lowered_skills role_jobs) in
  let existing_skills :=
    title <$> filter (λ req_skill, held_by user_skills req_skill)
                     (elements required_skills) in
  let missing_skills :=
    title <$> filter (λ req_skill, negb (held_by user_skills req_skill))
                     (elements required_skills) in
  let skill_counts : gmap string nat :=
    foldl count_skill ∅ (lowered_skills role_jobs) in
  mkReport target_role (length role_jobs)
    (elements (list_to_set existing_skills : gset string))
    (fst <$> sorted_reverse snd
               ((λ skill, (skill, default 0%nat (skill_counts !! lower skill)))
                  <$> missing_skills))
    (inject_Z (Z.of_nat (length existing_skills))
     / inject_Z (Z.of_nat (Nat.max (size required_skills) 1)) * 100)%Q.

Lemma lower_idem s : lower (lower s) = lower s.
Proof.
  unfold lower. induction s as [|c s IH]; [done|].
  cbn [smap]. by rewrite lower_lower, IH.
Qed.

Lemma title_lower s : title (lower s) = title s.
Proof.
  apply (NormalizerFacts.title_from_smap lower_char);
    auto using iscased_lower, lower_lower, NormalizerFacts.upper_lower.
Qed.

Lemma lowered_skills_elem role_jobs s :
  s ∈ lowered_skills role_jobs ↔
  ∃ row text piece,
    row ∈ role_jobs ∧ skills row = Some text ∧ piece ∈ split_skills text ∧
    s = lower piece.
Proof.
  unfold lowered_skills, role_skills. rewrite list_elem_of_join. split.
  - intros (l & Hs & Hl).
    apply list_elem_of_fmap in Hl as (text & -> & Htext).
    apply list_elem_of_fmap in Hs as (piece & -> & Hpiece).
    apply list_elem_of_omap in Htext as (row & Hrow & Htext).
    by exists row, text, piece.
  - intros (row & text & piece & Hrow & Htext & Hpiece & ->).
    exists (lower <$> split_skills text). split.
    + by apply list_elem_of_fmap_2.
    + apply list_elem_of_fmap. exists text. split; [done|].
      apply list_elem_of_omap. by exists row.
Qed.

Lemma lowered_skills_lower role_jobs s :
  s ∈ lowered_skills role_jobs → lower s = s.
Proof.
  intros (row & text & piece & _ & _ & _ & ->)%lowered_skills_elem.
  apply lower_idem.
Qed.

Lemma title_inj_lower a b : lower a = a → lower b = b → title a = title b → a = b.
Proof.
  intros Ha Hb Hab. apply (f_equal lower) in Hab.
  by rewrite !lower_title, Ha, Hb in Hab.
Qed.

Lemma counted_skill l k :
  default 0 (foldl count_skill ∅ l !! k) = occurrences k l.
Proof.
  induction l as [|x l IH] using rev_ind; [done|].
  rewrite foldl_app, occurrences_snoc. cbn [foldl]. unfold count_skill at 1.
  destruct (decide (x = k)) as [->|Hx].
  - rewrite lookup_insert_eq. rewrite (bool_decide_true (k = k)) by done.
    cbn [default id]. by rewrite IH.
  - rewrite lookup_insert_ne by done. rewrite (bool_decide_false (x = k)) by done.
    rewrite IH. lia.
Qed.

Lemma filter_split_length {A} (f : A → bool) (l : list A) :
  length (filter (λ x, f x) l) + length (filter (λ x, negb (f x)) l) = length l.
Proof.
  induction l as [|x l IH]; [done|].
  rewrite !filter_cons. destruct (f x); simpl; lia.
Qed.

Lemma fmap_fst_pair {A B} (g : A → B) (l : list A) : ((λ x, (x, g x)) <$> l).*1 = l.
Proof. induction l as [|x l IH]; [done|]. rewrite !fmap_cons, IH. done. Qed.

Lemma sorted_by_key {A} (g : A → nat) (l : list (A * nat)) :
  Forall (λ p, p.2 = g p.1) l →
  StronglySorted (by_decreasing snd) l →
  StronglySorted (by_decreasing g) l.*1.
Proof.
  intros Hall Hs. induction Hs as [|p l Hs IH Hp]; [constructor|].
  apply Forall_cons in Hall as [Hp' Hall].
  rewrite fmap_cons. constructor; [by apply IH|].
  rewrite Forall_fmap. rewrite Forall_forall in Hp, Hall.
  apply Forall_forall. intros q Hq. unfold by_decreasing.
  cbn [compose]. rewrite <-Hp', <-(Hall q Hq). by apply Hp.
Qed.

(** *** The report *)

Section report.
Variables (role : string) (user_skills : list string) (role_jobs : list Row).

Let required : gset string := list_to_set (lowered_skills role_jobs).
Let report := gap_report role user_skills role_jobs.

Lemma required_lower req : req ∈ elements required → lower req = req.
Proof.
  rewrite elem_of_elements. unfold required. rewrite elem_of_list_to_set.
  apply lowered_skills_lower.
Qed.

Lemma titles_nodup (f : string → bool) :
  NoDup (title <$> filter (λ req, f req) (elements required)).
Proof.
  apply NoDup_fmap_2_strong.
  - intros a b [_ Ha]%list_elem_of_filter [_ Hb]%list_elem_of_filter.
    apply title_inj_lower; by apply required_lower.
  - apply NoDup_filter, NoDup_elements.
Qed.

Lemma existing_skills_perm :
  existing_skills report ≡ₚ
  title <$> filter (λ req, held_by user_skills req) (elements required).
Proof. cbn. apply elements_list_to_set, titles_nodup. Qed.

Lemma missing_skills_perm :
  missing_skills report ≡ₚ
  title <$> filter (λ req, negb (held_by user_skills req)) (elements required).
Proof.
  cbn. by rewrite sorted_reverse_perm, fmap_fst_pair.
Qed.

Lemma existing_skills_nodup : NoDup (existing_skills report).
Proof. cbn. apply NoDup_elements. Qed.

Lemma missing_skills_nodup : NoDup (missing_skills report).
Proof. rewrite missing_skills_perm. apply titles_nodup. Qed.

Lemma elements_required req :
  req ∈ elements required ↔ req ∈ lowered_skills role_jobs.
Proof. rewrite elem_of_elements. unfold required. by rewrite elem_of_list_to_set. Qed.

Lemma existing_skills_elem s :
  s ∈ existing_skills report ↔
  ∃ req, req ∈ lowered_skills role_jobs ∧ held_by user_skills req ∧ s = title req.
Proof.
  rewrite existing_skills_perm, list_elem_of_fmap. split.
  - intros (req & -> & [Hheld Hreq]%list_elem_of_filter).
    exists req. by rewrite <-elements_required.
  - intros (req & Hreq & Hheld & ->). exists req. split; [done|].
    apply list_elem_of_filter. by rewrite elements_required.
Qed.

Lemma missing_skills_elem s :
  s ∈ missing_skills report ↔
  ∃ req, req ∈ lowered_skills role_jobs ∧ ¬ held_by user_skills req ∧ s = title req.
Proof.
  rewrite missing_skills_perm, list_elem_of_fmap. split.
  - intros (req & -> & [Hheld Hreq]%list_elem_of_filter).
    exists req. rewrite <-elements_required. by apply negb_True in Hheld.
  - intros (req & Hreq & Hheld & ->). exists req. split; [done|].
    apply list_elem_of_filter. rewrite elements_required. by rewrite negb_True.
Qed.

Lemma skills_partition :
  length (existing_skills report) + length (missing_skills report) = size required.
Proof.
  rewrite existing_skills_perm, missing_skills_perm, !length_fmap.
  rewrite filter_split_length. done.
Qed.

Lemma skill_match_percentage_eq :
  skill_match_percentage report =
  (inject_Z (Z.of_nat (length (existing_skills report)))
   / inject_Z (Z.of_nat (Nat.max (length (existing_skills report)
                                  + length (missing_skills report)) 1)) * 100)%Q.
Proof.
  by rewrite skills_partition, (Permutation_length existing_skills_perm).
Qed.

Lemma missing_skills_sorted :
  StronglySorted
    (by_decreasing (λ s, occurrences (lower s) (lowered_skills role_jobs)))
    (missing_skills report).
Proof.
  cbn. apply sorted_by_key; [|apply sorted_reverse_sorted].
  apply Forall_forall. intros p Hp. rewrite sorted_reverse_perm in Hp.
  apply list_elem_of_fmap in Hp as (s & -> & _). cbn [fst snd].
  apply counted_skill.
Qed.

End report.

Lemma percentage_bounds (e m : nat) :
  let pct := (inject_Z (Z.of_nat e) / inject_Z (Z.of_nat (Nat.max (e + m) 1)) * 100)%Q in
  (0 <= pct)%Q ∧ (pct <= 100)%Q.
Proof.
  intros pct. unfold pct.
  assert (Hpos : (0 < inject_Z (Z.of_nat (Nat.max (e + m) 1)))%Q).
  { change 0%Q with (inject_Z 0). rewrite <-Zlt_Qlt. lia. }
  assert (Hle : (inject_Z (Z.of_nat e) <= inject_Z (Z.of_nat (Nat.max (e + m) 1)))%Q).
  { rewrite <-Zle_Qle. lia. }
  assert (He : (0 <= inject_Z (Z.of_nat e))%Q).
  { change 0%Q with (inject_Z 0). rewrite <-Zle_Qle. lia. }
  split.
  - apply Qmult_le_0_compat; [|done].
    apply Qle_shift_div_l; [done|]. by rewrite Qmult_0_l.
  - rewrite <-(Qmult_1_l 100) at 2. apply Qmult_le_compat_r; [|done].
    apply Qle_shift_div_r; [done|]. by rewrite Qmult_1_l.
Qed.

Lemma first_titled_elem jobs keywords row :
  row ∈ first_titled jobs keywords →
  row ∈ jobs ∧ ∃ word, word ∈ keywords ∧ title_has word row.
Proof.
  induction keywords as [|keyword keywords IH]; cbn [first_titled].
  - by intros ?%elem_of_nil.
  - destruct (titled jobs keyword) as [|found rest] eqn:Hfound.
    + intros (? & word & ? & ?)%IH. split; [done|]. exists word. split; [by right|done].
    + rewrite <-Hfound. unfold titled. intros [Hhas Hrow]%list_elem_of_filter.
      split; [done|]. exists keyword. split; [left|done].
Qed.

Lemma first_titled_length jobs keywords :
  length (first_titled jobs keywords) ≤ length jobs.
Proof.
  induction keywords as [|keyword keywords IH]; cbn [first_titled]; [simpl; lia|].
  destruct (titled jobs keyword) as [|found rest] eqn:Hfound; [done|].
  rewrite <-Hfound. apply length_filter.
Qed.

Lemma role_jobs_of_elem jobs role row :
  row ∈ role_jobs_of jobs role →
  row ∈ jobs ∧ ∃ word, word ∈ role :: split (lower role) ∧ title_has word row.
Proof.
  unfold role_jobs_of. destruct (titled jobs role) as [|found rest] eqn:Hfound.
  - intros (? & word & ? & ?)%first_titled_elem. split; [done|].
    exists word. split; [by right|done].
  - rewrite <-Hfound. unfold titled. intros [Hhas Hrow]%list_elem_of_filter.
    split; [done|]. exists role. split; [left|done].
Qed.

Lemma role_jobs_of_length jobs role : length (role_jobs_of jobs role) ≤ length jobs.
Proof.
  unfold role_jobs_of. destruct (titled jobs role) as [|found rest] eqn:Hfound.
  - apply first_titled_length.
  - rewrite <-Hfound. apply length_filter.
Qed.

Lemma role_jobs_of_exact jobs role row :
  row ∈ jobs → title_has role row → role_jobs_of jobs role = titled jobs role.
Proof.
  intros Hrow Hhas. unfold role_jobs_of.
  destruct (titled jobs role) as [|found rest] eqn:Hfound; [|done].
  assert (Hin : row ∈ titled jobs role) by by apply list_elem_of_filter.
  rewrite Hfound in Hin. by apply elem_of_nil in Hin.
Qed.

Lemma held_by_lower user_skills req :
  held_by (lower <$> user_skills) req = held_by user_skills req.
Proof.
  unfold held_by. rewrite <-list_fmap_compose. f_equal.
  apply list_fmap_ext. intros _ s _. apply lower_idem.
Qed.

Lemma lower_upper_string s : lower (upper s) = lower s.
Proof.
  unfold lower, upper. induction s as [|c s IH]; [done|].
  cbn [smap]. by rewrite lower_upper, IH.
Qed.

Lemma held_by_upper user_skills req :
  held_by (upper <$> user_skills) req = held_by user_skills req.
Proof.
  unfold held_by. rewrite <-list_fmap_compose. f_equal.
  apply list_fmap_ext. intros _ s _. apply lower_upper_string.
Qed.

Lemma gap_report_ext role us1 us2 role_jobs :
  (∀ req, held_by us1 req = held_by us2 req) →
  gap_report role us1 role_jobs = gap_report role us2 role_jobs.
Proof.
  intros Hheld. unfold gap_report.
  rewrite (FilterFacts.filter_ext_bool (held_by us1) (held_by us2)) by done.
  rewrite (FilterFacts.filter_ext_bool (λ req, negb (held_by us1 req))
             (λ req, negb (held_by us2 req))); [done|].
  intros req. by rewrite Hheld.
Qed.

Lemma held_by_nobody req : held_by [] req = false.
Proof. done. Qed.

Lemma held_by_blank user_skills req : "" ∈ user_skills → held_by user_skills req = true.
Proof.
  intros Hin. unfold held_by. apply existsb_exists. exists "". split.
  - apply list_elem_of_In. by apply (list_elem_of_fmap_2 lower) in Hin.
  - by destruct req.
Qed.

Lemma read_lookup (σ : heap) l table : σ !! l = Some table → read σ l = Ok table.
Proof. intros Hl. unfold read. by rewrite Hl. Qed.

Section gap_facts.
Context `{V : Vectorizer} `{E : RegexEngine}.

Lemma title_contains_literal jobs pat :
  is_literal pat → title_contains jobs pat = Ok (titled jobs pat).
Proof.
  intros Hpat. destruct (compile_literal pat Hpat) as (r & Hr & Hsearch).
  unfold title_contains, titled. rewrite Hr. cbn [obind]. f_equal.
  apply FilterFacts.filter_ext_bool. intros row.
  unfold search_cell, title_has. by destruct (job_title row).
Qed.

Lemma broader_search_literal jobs keywords :
  Forall (λ word, is_literal word) keywords →
  broader_search jobs keywords [] = Ok (first_titled jobs keywords).
Proof.
  induction 1 as [|keyword keywords Hk _ IH]; [done|].
  cbn [broader_search first_titled]. rewrite title_contains_literal by done.
  cbn [obind]. by destruct (titled jobs keyword).
Qed.

Lemma analyze_skill_gaps_run σ self table user_skills target_role :
  read σ (jobs_df self) = Ok table →
  has_column "job_title" table → has_column "skills" table →
  is_literal target_role →
  analyze_skill_gaps σ self user_skills target_role
  = Ok (gap_report target_role user_skills (role_jobs_of (rows table) target_role)).
Proof.
  intros Hread Htitle Hskills Hrole. unfold analyze_skill_gaps, role_jobs_of.
  rewrite Hread. cbn [obind].
  rewrite (require_columns_present table ["job_title"]) by (by repeat constructor).
  cbn [obind]. rewrite title_contains_literal by done. cbn [obind].
  destruct (titled (rows table) target_role) as [|row found].
  - rewrite broader_search_literal
      by (apply split_literal; by rewrite is_literal_lower).
    cbn [obind].
    by rewrite (require_columns_present table ["skills"]) by (by repeat constructor).
  - cbn [obind].
    by rewrite (require_columns_present table ["skills"]) by (by repeat constructor).
Qed.

End gap_facts.

End GapFacts.

Module GapExtras.
Import Py PyFacts RecommendationEngine EngineFacts EngineClaims ListingFacts GapFacts.


Lemma two_jobs_engine_table :
  (built (V:=sample_index) two_jobs_heap two_jobs
         (sample_vectors two_jobs)).2
    !! jobs_df (built (V:=sample_index) two_jobs_heap two_jobs
                      (sample_vectors two_jobs)).1
  = Some (own_table two_jobs).
Proof. unfold built. cbn [fst snd jobs_df]. apply lookup_insert_eq. Qed.

Lemma two_jobs_engine_columns :
  has_column "job_title" (own_table two_jobs) ∧ has_column "skills" (own_table two_jobs).
Proof. by vm_compute. Qed.








End GapExtras.

(** * Further properties: job statistics and combined texts *)

Module StatisticsFacts.
Import Py PyFacts CleanFacts ProcessFacts DataProcessor NormalizerFacts ListingFacts.
Import DataProcessorListings DataProcessorStatistics.

Lemma occurrences_cons v x l :
  occurrences v (x :: l) = (if bool_decide (x = v) then 1 else 0) + occurrences v l.
Proof.
  unfold occurrences. rewrite filter_cons.
  destruct (decide (x = v)) as [->|Hx].
  - by rewrite bool_decide_true.
  - by rewrite bool_decide_false.
Qed.

(** [value_counts] counts every value that is present. *)
Lemma value_counts_lookup cells v :
  default 0 (value_counts cells !! v) = occurrences v (omap id cells).
Proof.
  unfold value_counts. induction (omap id cells) as [|x l IH]; [done|].
  cbn [foldr]. rewrite occurrences_cons.
  destruct (decide (x = v)) as [->|Hx].
  - rewrite lookup_insert_eq. rewrite (bool_decide_true (v = v)) by done.
    cbn [default id]. by rewrite IH.
  - rewrite lookup_insert_ne by done. rewrite (bool_decide_false (x = v)) by done.
    by rewrite IH.
Qed.

Lemma value_counts_elem cells v n :
  value_counts cells !! v = Some n → v ∈ omap id cells ∧ 1 ≤ n.
Proof.
  unfold value_counts. revert n. induction (omap id cells) as [|x l IH]; intros n.
  - cbn [foldr]. by rewrite lookup_empty.
  - cbn [foldr]. destruct (decide (x = v)) as [->|Hx].
    + rewrite lookup_insert_eq. intros [= <-]. split; [left|lia].
    + rewrite lookup_insert_ne by done. intros [? ?]%IH. split; [by right|done].
Qed.

Lemma nunique_le cells : nunique cells ≤ length cells.
Proof.
  unfold nunique, size, set_size. cbn [compose].
  trans (length (omap id cells)).
  - apply submseteq_length, NoDup_submseteq; [apply NoDup_elements|].
    intros x. by rewrite elem_of_elements, elem_of_list_to_set.
  - clear. induction cells as [|c cells IH]; [done|].
    cbn [omap list_omap length]. destruct c; cbn [id length]; lia.
Qed.

Lemma nunique_pos cells v : Some v ∈ cells → 1 ≤ nunique cells.
Proof.
  intros Hin. unfold nunique.
  destruct (size (list_to_set (omap id cells) : gset string)) eqn:Hsize; [|lia].
  apply size_empty_inv in Hsize.
  assert (Hv : v ∈ (list_to_set (omap id cells) : gset string)).
  { apply elem_of_list_to_set, list_elem_of_omap. by exists (Some v). }
  rewrite Hsize in Hv. by apply elem_of_empty in Hv.
Qed.

(** The four labels the normalizer writes. *)
Definition levels : list string :=
  [ "Entry Level (0-2 years)"; "Mid Level (3-5 years)";
    "Senior Level (6-10 years)"; "Expert Level (10+ years)" ].

Lemma get_experience_level_levels lo hi : get_experience_level lo hi ∈ levels.
Proof.
  unfold get_experience_level, levels.
  repeat (match goal with |- context [Qle_bool ?a ?b] => destruct (Qle_bool a b) end);
    rewrite !elem_of_cons; auto.
Qed.

Lemma levels_partition (l : list string) :
  Forall (λ label, label ∈ levels) l →
  occurrences "Entry Level (0-2 years)" l + occurrences "Mid Level (3-5 years)" l
  + occurrences "Senior Level (6-10 years)" l + occurrences "Expert Level (10+ years)" l
  = length l.
Proof.
  induction 1 as [|label l Hlabel _ IH]; [done|].
  rewrite !occurrences_cons. cbn [length]. rewrite <-IH.
  unfold levels in Hlabel. rewrite !elem_of_cons, elem_of_nil in Hlabel.
  destruct Hlabel as [->|[->|[->|[->|[]]]]]; repeat case_bool_decide; try done; lia.
Qed.

Lemma omap_id_fmap_some {A B} (f : A → option B) (g : A → B) (l : list A) :
  Forall (λ x, f x = Some (g x)) l → omap id (f <$> l) = g <$> l.
Proof.
  induction 1 as [|x l Hx _ IH]; [done|].
  rewrite !fmap_cons. cbn [omap list_omap id]. by rewrite Hx, IH.
Qed.

(** Every row of a normalized table. *)
Lemma process_jobs_rows d now df df' :
  process_jobs d now df = Ok df' →
  has_column "skills" df' ∧ has_column "location" df' ∧
  has_column "experience_level" df' ∧ has_column "salary_min" df' ∧
  has_column "salary_max" df' ∧
  length (rows df') = length (rows df) ∧
  Forall (λ r', experience_level r'
                = Some (get_experience_level (exp_min r') (exp_max r')) ∧
                is_Some (location r')) (rows df').
Proof.
  intros (_ & Hsk & Hloc & _ & ->)%process_jobs_inv.
  rewrite !has_column_elem. cbn [columns rows].
  rewrite !elem_of_normalized_columns, !elem_of_cons.
  apply has_column_elem in Hsk, Hloc.
  split_and!; auto 10.
  - apply length_imap.
  - apply Forall_forall. intros r' Hr'.
    apply list_elem_of_lookup in Hr' as [i Hr'].
    rewrite list_lookup_imap in Hr'. apply fmap_Some in Hr' as (r & _ & ->).
    split; [done|]. apply _clean_location_present.
Qed.

End StatisticsFacts.

Module StatisticsExtras.
Import Py ProcessFacts DataProcessor NormalizerFacts ListingFacts StatisticsFacts.
Import DataProcessorListings DataProcessorStatistics.

(** X25: on a table that [process_jobs] returned, [get_job_statistics]
    raises no error; it counts every posting; there are at most as many
    locations as postings, and at least one when there is a posting; the
    experience distribution holds only the four labels of the
    normalizer, each at least once, and their counts add up to the
    number of postings; at most 10 top skills are listed, as
    [_get_top_skills] ranks them; and an average salary is NaN exactly
    when no posting has that bound. *)
Theorem get_job_statistics_of_normalized `{M : Averager} d now df df' :
  process_jobs d now df = Ok df' →
  ∃ stats,
    get_job_statistics df' = Ok stats ∧
    total_jobs stats = length (rows df) ∧
    unique_locations stats ≤ total_jobs stats ∧
    (rows df ≠ [] → 1 ≤ unique_locations stats) ∧
    (∀ label n, experience_distribution stats !! label = Some n →
                label ∈ levels ∧ 1 ≤ n) ∧
    default 0 (experience_distribution stats !! "Entry Level (0-2 years)")
    + default 0 (experience_distribution stats !! "Mid Level (3-5 years)")
    + default 0 (experience_distribution stats !! "Senior Level (6-10 years)")
    + default 0 (experience_distribution stats !! "Expert Level (10+ years)")
    = total_jobs stats ∧
    _get_top_skills df' 10 = Ok (top_skills stats) ∧
    length (top_skills stats) ≤ 10 ∧
    (avg_salary_min stats = None ↔ Forall (λ r, salary_min r = None) (rows df')) ∧
    (avg_salary_max stats = None ↔ Forall (λ r, salary_max r = None) (rows df')).
Proof.
  intros (Hsk & Hloc & Hlevel & Hmin & Hmax & Hlen & Hrows)%process_jobs_rows.
  unfold get_job_statistics.
  rewrite (ListingExtras._get_top_skills_run df' 10) by (done || lia).
  destruct (has_column "location" df'); [|done].
  destruct (has_column "experience_level" df'); [|done].
  destruct (has_column "salary_min" df'); [|done].
  destruct (has_column "salary_max" df'); [|done].
  cbn [negb obind]. eexists. split; [done|].
  cbn [total_jobs unique_locations experience_distribution top_skills
       avg_salary_min avg_salary_max].
  assert (Hlabels : omap id (experience_level <$> rows df')
                    = (λ r', get_experience_level (exp_min r') (exp_max r'))
                        <$> rows df').
  { apply omap_id_fmap_some. eapply Forall_impl; [exact Hrows|]. by intros r' [? _]. }
  assert (Hmean : ∀ l : list Q, mean l = None ↔ l = []).
  { intros l. split; [|intros ->; apply mean_empty].
    intros Hnone. destruct l as [|q l]; [done|].
    destruct (mean_nonempty (q :: l)) as [m Hm]; [done|]. congruence. }
  assert (Homap : ∀ (A : Type) (f : Row → option A) (rs : list Row),
            omap f rs = [] ↔ Forall (λ r, f r = None) rs).
  { intros A f rs. induction rs as [|r rs IH]; [by split; [constructor|]|].
    cbn [omap list_omap]. rewrite Forall_cons, <-IH.
    destruct (f r); split; (done || by intros [? ?] || by intros ->). }
  split_and!.
  - done.
  - etrans; [apply nunique_le|]. by rewrite length_fmap.
  - intros Hne. destruct (rows df') as [|r' rs'] eqn:Hr'.
    { destruct (rows df); [done|simpl in Hlen; lia]. }
    apply Forall_cons in Hrows as [[_ [v Hv]] _].
    apply (nunique_pos _ v). rewrite fmap_cons, Hv. left.
  - intros label n Hn. apply value_counts_elem in Hn as [Hin Hn].
    split; [|done]. rewrite Hlabels in Hin.
    apply list_elem_of_fmap in Hin as (r' & -> & _).
    apply get_experience_level_levels.
  - rewrite !value_counts_lookup, Hlabels, levels_partition.
    + by rewrite length_fmap.
    + apply Forall_fmap, Forall_forall. intros r' _.
      apply get_experience_level_levels.
  - done.
  - rewrite length_fmap, length_take. lia.
  - by rewrite Hmean, Homap.
  - by rewrite Hmean, Homap.
Qed.

Lemma get_job_statistics_of_normalized_witness :
  ∃ df' stats,
    process_jobs draws_a 0 sample_jobs = Ok df' ∧
    get_job_statistics (M:=exact_averager) df' = Ok stats ∧
    total_jobs stats = 3.
Proof.
  destruct (process_jobs draws_a 0 sample_jobs) as [df'|] eqn:Hrun;
    [|by vm_compute in Hrun].
  destruct (get_job_statistics_of_normalized (M:=exact_averager)
              draws_a 0 sample_jobs df' Hrun) as (stats & Hstats & Htotal & _).
  exists df', stats. exact (conj eq_refl (conj Hstats Htotal)).
Defined.

End StatisticsExtras.

Module CombinedTextFacts.
Import Py PyFacts CleanFacts RecommendationEngine.

(** The features [_combine_job_features] joins, in its order; the title
    is written twice, without a separator. *)
Definition features (row : Row) : list string :=
  omap id [ (λ t, t +:+ t) <$> job_title row; skills row; company row;
            description row ].

Lemma _combine_job_features_join row :
  _combine_job_features row = join " " (features row).
Proof.
  unfold _combine_job_features, features.
  by destruct (job_title row), (skills row), (company row), (description row).
Qed.

Lemma startswith_append p r : startswith p (p +:+ r) = true.
Proof.
  induction p as [|c p IH]; [done|].
  rewrite append_cons. cbn [startswith]. by destruct (ascii_dec c c).
Qed.

Lemma startswith_append_r p s r :
  startswith p s = true → startswith p (s +:+ r) = true.
Proof.
  revert s. induction p as [|c p IH]; intros s; [done|].
  destruct s as [|c' s]; [done|]. rewrite append_cons. cbn [startswith].
  destruct (ascii_dec c c'); [apply IH|done].
Qed.

Lemma contains_startswith p s : startswith p s = true → contains p s = true.
Proof. intros Hp. destruct s; simpl; by rewrite Hp. Qed.

Lemma contains_append_l x a s : contains x s = true → contains x (a +:+ s) = true.
Proof.
  intros Hx. induction a as [|c a IH]; [done|].
  rewrite append_cons. cbn [contains]. rewrite IH. apply orb_true_r.
Qed.

Lemma contains_append_r x s r : contains x s = true → contains x (s +:+ r) = true.
Proof.
  induction s as [|c s IH].
  - simpl. rewrite orb_false_r. intros Hx. destruct x; [|done].
    by apply contains_startswith.
  - rewrite append_cons. cbn [contains].
    intros [Hx|Hx]%orb_true_iff.
    + rewrite <-append_cons, (startswith_append_r _ _ _ Hx). done.
    + rewrite (IH Hx). apply orb_true_r.
Qed.

Lemma join_cons sep p q ps :
  join sep (p :: q :: ps) = p +:+ sep +:+ join sep (q :: ps).
Proof. reflexivity. Qed.

Lemma join_contains sep x xs : x ∈ xs → contains x (join sep xs) = true.
Proof.
  induction xs as [|p ps IH]; [by intros ?%elem_of_nil|].
  destruct ps as [|q ps].
  - intros ->%list_elem_of_singleton. apply EngineExtras.contains_refl.
  - rewrite join_cons. intros [->|Hx]%elem_of_cons.
    + apply contains_startswith, startswith_append.
    + by apply contains_append_l, contains_append_l, IH.
Qed.

Lemma join_startswith sep p ps : startswith p (join sep (p :: ps)) = true.
Proof.
  destruct ps as [|q ps]; [apply EngineExtras.startswith_refl|].
  rewrite join_cons. apply startswith_append.
Qed.

Lemma length_append s r : len (s +:+ r) = len s + len r.
Proof.
  unfold len. induction s as [|c s IH]; [done|].
  rewrite append_cons. simpl. by rewrite IH.
Qed.

Lemma join_length sep xs :
  len (join sep xs) = sum_list (len <$> xs) + len sep * (length xs - 1).
Proof.
  induction xs as [|p ps IH]; [simpl; lia|].
  destruct ps as [|q ps].
  - cbn [join fmap list_fmap sum_list sum_list_with length id Nat.sub]. lia.
  - rewrite join_cons, !length_append, IH.
    rewrite !fmap_cons. cbn [sum_list sum_list_with length id Nat.sub]. lia.
Qed.

End CombinedTextFacts.

Module CombinedTextExtras.
Import Py RecommendationEngine CombinedTextFacts.

(** X26: the combined text of a posting is made of the fields that are
    present, one blank between them: it begins with the title written
    twice without a separator, and the skills, the company and the
    description occur in it; its length is the length of these features
    plus one for each blank; a posting without any of the four fields
    has the empty text. *)
Theorem combined_text_holds_features row :
  let text := _combine_job_features row in
  (∀ t, job_title row = Some t → startswith (t +:+ t) text = true) ∧
  (∀ s, skills row = Some s → contains s text = true) ∧
  (∀ c, company row = Some c → contains c text = true) ∧
  (∀ d, description row = Some d → contains d text = true) ∧
  len text = sum_list (len <$> features row) + (length (features row) - 1) ∧
  (features row = [] → text = "").
Proof.
  intros text. unfold text. rewrite _combine_job_features_join. split_and!.
  - intros t Ht. unfold features. rewrite Ht. cbn [fmap option_fmap option_map].
    cbn [omap list_omap id]. apply join_startswith.
  - intros s Hs. apply join_contains. unfold features.
    apply list_elem_of_omap. exists (Some s). split; [|done].
    rewrite Hs, !elem_of_cons. auto.
  - intros c Hc. apply join_contains. unfold features.
    apply list_elem_of_omap. exists (Some c). split; [|done].
    rewrite Hc, !elem_of_cons. auto.
  - intros d Hd. apply join_contains. unfold features.
    apply list_elem_of_omap. exists (Some d). split; [|done].
    rewrite Hd, !elem_of_cons. auto.
  - rewrite join_length. cbn [len String.length]. lia.
  - by intros ->.
Qed.

Lemma combined_text_holds_features_witness :
  startswith ("Python Developer" +:+ "Python Developer")
    (_combine_job_features (posting 0 "Python Developer" "Pune" "Python, Sql" 10 20 1 3))
  = true.
Proof.
  exact (proj1 (combined_text_holds_features
                  (posting 0 "Python Developer" "Pune" "Python, Sql" 10 20 1 3))
               "Python Developer" eq_refl).
Defined.

End CombinedTextExtras.
